(** * Text layout of the canvas library: rich text, script itemizer, ToText

    A shallow embedding of [text.go] (package canvas) and of the script
    itemizer of package [canvas/text], with the properties of the layout
    specification stated and settled against it.

    Conventions.  Go's [int] indices are [Z]; a panic (index out of range,
    nil dereference, explicit [panic]) is the [Panic] result.  Go strings are
    byte sequences ([list Z], one entry per byte); runes are [Z].  [float64]
    is the primitive binary64 type.  Pointers ([*FontFace], [*Canvas],
    [*font.SFNT]) are [option nat]: [None] is [nil], [Some a] an address, so
    that Go's pointer comparison is equality of the option. *)

From Stdlib Require Import ZArith Floats Lia Bool.
From stdpp Require Import base tactics option list gmap.

Local Open Scope Z_scope.

(** ** Results and panics *)

Inductive result (A : Type) : Type :=
| Ok (a : A)
| Panic.
Arguments Ok {A} a.
Arguments Panic {A}.

Definition rbind {A B : Type} (m : result A) (k : A -> result B) : result B :=
  match m with
  | Ok a => k a
  | Panic => Panic
  end.

Notation "'let*' p ':=' m 'in' k" := (rbind m (fun p => k))
  (at level 10, p pattern, m at level 100, k at level 200, only parsing).

(** ** Slices *)

Definition len {A : Type} (l : list A) : Z := Z.of_nat (length l).

(** [l[i]] *)
Definition idx {A : Type} (l : list A) (i : Z) : result A :=
  if i <? 0 then Panic
  else match l !! Z.to_nat i with
       | Some a => Ok a
       | None => Panic
       end.

(** [l[i] = x] *)
Definition setidx {A : Type} (l : list A) (i : Z) (x : A) : result (list A) :=
  if (0 <=? i) && (i <? len l) then Ok (<[Z.to_nat i := x]> l) else Panic.

(** [l[lo:hi]]; the bounds are checked against the length. *)
Definition slice {A : Type} (l : list A) (lo hi : Z) : result (list A) :=
  if (0 <=? lo) && (lo <=? hi) && (hi <=? len l)
  then Ok (take (Z.to_nat (hi - lo)) (drop (Z.to_nat lo) l))
  else Panic.

(** ** Fixed-width integers *)

Definition uint16 (z : Z) : Z := z mod 2 ^ 16.
Definition uint32 (z : Z) : Z := z mod 2 ^ 32.
Definition int32 (z : Z) : Z := (z + 2 ^ 31) mod 2 ^ 32 - 2 ^ 31.
Definition int64 (z : Z) : Z := (z + 2 ^ 63) mod 2 ^ 64 - 2 ^ 63.

(** ** UTF-8 (package unicode/utf8 and the string conversions) *)

Definition rune := Z.
Definition gostring := list Z.

Definition RuneError : rune := 65533.
Definition MaxRune : rune := 1114111.

(** [utf8.AppendRune(nil, r)], also [string(r)] for a rune [r]. *)
Definition encodeRune (r : rune) : gostring :=
  let i := uint32 r in
  if i <=? 127 then [i]
  else if i <=? 2047 then
    [Z.lor 192 (Z.shiftr i 6); Z.lor 128 (Z.land i 63)]
  else if (MaxRune <? i) || ((55296 <=? i) && (i <=? 57343)) then
    [239; 191; 189]
  else if i <=? 65535 then
    [Z.lor 224 (Z.shiftr i 12); Z.lor 128 (Z.land (Z.shiftr i 6) 63);
     Z.lor 128 (Z.land i 63)]
  else
    [Z.lor 240 (Z.shiftr i 18); Z.lor 128 (Z.land (Z.shiftr i 12) 63);
     Z.lor 128 (Z.land (Z.shiftr i 6) 63); Z.lor 128 (Z.land i 63)].

(** [string(runes)] *)
Definition stringOfRunes (rs : list rune) : gostring :=
  concat (map encodeRune rs).

Definition contb (b : Z) : bool := (128 <=? b) && (b <=? 191).

(** [utf8.DecodeRuneInString]: the rune at the head of [s] and its width in
    bytes; an invalid or truncated encoding is [RuneError] of width 1. *)
Definition decodeRune (s : gostring) : rune * nat :=
  match s with
  | [] => (RuneError, 0%nat)
  | s0 :: t =>
    if s0 <? 128 then (s0, 1%nat)
    else if (s0 <? 194) || (244 <? s0) then (RuneError, 1%nat)
    else
      let sz := if s0 <? 224 then 2 else if s0 <? 240 then 3 else 4 in
      let lo := if s0 =? 224 then 160 else if s0 =? 240 then 144 else 128 in
      let hi := if s0 =? 237 then 159 else if s0 =? 244 then 143 else 191 in
      if len s <? sz then (RuneError, 1%nat)
      else match t with
      | [] => (RuneError, 1%nat)
      | s1 :: t1 =>
        if (s1 <? lo) || (hi <? s1) then (RuneError, 1%nat)
        else if sz <=? 2 then
          (Z.lor (Z.shiftl (Z.land s0 31) 6) (Z.land s1 63), 2%nat)
        else match t1 with
        | [] => (RuneError, 1%nat)
        | s2 :: t2 =>
          if negb (contb s2) then (RuneError, 1%nat)
          else if sz <=? 3 then
            (Z.lor (Z.lor (Z.shiftl (Z.land s0 15) 12)
                          (Z.shiftl (Z.land s1 63) 6)) (Z.land s2 63), 3%nat)
          else match t2 with
          | [] => (RuneError, 1%nat)
          | s3 :: _ =>
            if negb (contb s3) then (RuneError, 1%nat)
            else
              (Z.lor (Z.lor (Z.lor (Z.shiftl (Z.land s0 7) 18)
                                   (Z.shiftl (Z.land s1 63) 12))
                            (Z.shiftl (Z.land s2 63) 6)) (Z.land s3 63), 4%nat)
          end
        end
      end
  end.

(** [for i, r := range s]: the byte offset and value of every rune of [s].
    [skip] counts the bytes of the current rune still to be passed over. *)
Fixpoint rangeStringFrom (skip : nat) (off : Z) (s : gostring) : list (Z * rune) :=
  match s with
  | [] => []
  | _ :: s' =>
    match skip with
    | S k => rangeStringFrom k (off + 1) s'
    | O => let '(r, w) := decodeRune s in
           (off, r) :: rangeStringFrom (Nat.pred w) (off + 1) s'
    end
  end.

Definition rangeString (s : gostring) : list (Z * rune) := rangeStringFrom 0 0 s.

(** [[]rune(s)] *)
Definition runesOfString (s : gostring) : list rune := map snd (rangeString s).

(** ** Scripts, directions, rotations (package canvas/text) *)

(** The scripts named in the sources; any other script tag is [OtherScript]. *)
Inductive Script : Type :=
| ScriptInvalid | ScriptInherited | ScriptCommon
| Han | Hangul | Katakana | Khmer | Lao | PhagsPa | Brahmi | TaiTham
| NewTaiLue | TaiLe | TaiViet | Thai | Tibetan | Myanmar
| Bopomofo | EgyptianHieroglyphs | Hiragana | MeroiticCursive
| MeroiticHieroglyphs | Mongolian | Ogham | OldTurkic | Yi
| OtherScript (tag : Z).

Global Instance Script_eq_dec : EqDecision Script.
Proof. solve_decision. Defined.

Inductive Direction : Type :=
| DirectionInvalid | LeftToRight | RightToLeft | TopToBottom | BottomToTop.

Global Instance Direction_eq_dec : EqDecision Direction.
Proof. solve_decision. Defined.

Definition Rotation := float.
Definition NoRotation : Rotation := 0%float.
Definition CW : Rotation := (-90)%float.
Definition CCW : Rotation := 90%float.

Definition IsVerticalScript (script : Script) : bool :=
  bool_decide (script = Bopomofo) || bool_decide (script = EgyptianHieroglyphs)
  || bool_decide (script = Hiragana) || bool_decide (script = Katakana)
  || bool_decide (script = Han) || bool_decide (script = Hangul)
  || bool_decide (script = MeroiticCursive)
  || bool_decide (script = MeroiticHieroglyphs)
  || bool_decide (script = Mongolian) || bool_decide (script = Ogham)
  || bool_decide (script = OldTurkic) || bool_decide (script = PhagsPa)
  || bool_decide (script = Yi).

Definition ScriptRotation (script : Script) : Rotation :=
  if bool_decide (script = Mongolian) || bool_decide (script = PhagsPa) then CW
  else if bool_decide (script = Ogham) || bool_decide (script = OldTurkic) then CCW
  else NoRotation.

(** [script != ScriptInherited && script != ScriptCommon] *)
Definition concreteScript (script : Script) : bool :=
  negb (bool_decide (script = ScriptInherited))
  && negb (bool_decide (script = ScriptCommon)).

(** ** ScriptItemizer *)

Record ScriptItem : Type := mkScriptItem {
  ScriptItem_Script : Script;
  ScriptItem_Text : gostring
}.

Section Itemizer.
(** [LookupScript] lives in the Unicode tables of package text. *)
Variable LookupScript : rune -> Script.

(** One iteration of [for j, r := range runes]; the state is
    [(i, items, scripts)]. *)
Definition itemizerStep (runes : list rune) (embeddingLevels : list Z)
    (j : Z) (r : rune) (st : Z * list ScriptItem * list Script)
    : result (Z * list ScriptItem * list Script) :=
  let '(i, items, scripts) := st in
  let curLevel := len scripts - 1 in
  let* curScript := idx scripts curLevel in
  let script := LookupScript r in
  let* level := idx embeddingLevels j in
  let* (script, scripts) :=
    (if len scripts <=? level then
       (* the inner loop appends ScriptInherited until len(scripts) = level *)
       Ok (script,
           (scripts ++ replicate (Z.to_nat (level - len scripts)) ScriptInherited)
             ++ [script])
     else if concreteScript script then
       (let* scripts1 := setidx scripts level script in
        let* scripts2 := slice scripts1 0 (level + 1) in
        Ok (script, scripts2))
     else
       (let* script1 := idx scripts level in
        let* scripts2 := slice scripts 0 (level + 1) in
        Ok (script1, scripts2))) in
  if negb (j =? 0)
     && (negb (curLevel =? level)
         || (negb (bool_decide (curScript = script))
             && concreteScript curScript && concreteScript script))
  then
    (let* text := slice runes i j in
     Ok (j, items ++ [mkScriptItem curScript (stringOfRunes text)], scripts))
  else Ok (i, items, scripts).

Fixpoint itemizerLoop (runes : list rune) (embeddingLevels : list Z)
    (rest : list rune) (j : Z) (st : Z * list ScriptItem * list Script)
    : result (Z * list ScriptItem * list Script) :=
  match rest with
  | [] => Ok st
  | r :: rest' =>
    let* st' := itemizerStep runes embeddingLevels j r st in
    itemizerLoop runes embeddingLevels rest' (j + 1) st'
  end.

Definition ScriptItemizer (runes : list rune) (embeddingLevels : list Z)
    : result (list ScriptItem) :=
  if len runes =? 0 then Ok []
  else
    (let* (i, items, scripts) :=
       itemizerLoop runes embeddingLevels runes 0 (0, [], [ScriptInherited]) in
     let* last := idx scripts (len scripts - 1) in
     let* text := slice runes i (len runes) in
     Ok (items ++ [mkScriptItem last (stringOfRunes text)])).
End Itemizer.

(** ** Enumerations of package canvas *)

Inductive TextAlign : Type :=
| Left | Right | Center | Middle | Top | Bottom | Justify.

Global Instance TextAlign_eq_dec : EqDecision TextAlign.
Proof. solve_decision. Defined.

Inductive VerticalAlign : Type :=
| Baseline | FontTop | FontMiddle | FontBottom.

Inductive WritingMode : Type :=
| HorizontalTB | VerticalRL | VerticalLR.

Global Instance WritingMode_eq_dec : EqDecision WritingMode.
Proof. solve_decision. Defined.

Inductive TextOrientation : Type :=
| Natural | Upright.

Global Instance TextOrientation_eq_dec : EqDecision TextOrientation.
Proof. solve_decision. Defined.

(** ** Rich text *)

(** [*FontFace] and [*Canvas]: [None] is nil. *)
Definition FontFacePtr := option nat.
Definition CanvasPtr := option nat.

Record TextSpanObject : Type := mkTextSpanObject {
  Object_Canvas : CanvasPtr;
  Object_X : float;
  Object_Y : float;
  Object_Width : float;
  Object_Height : float;
  Object_VAlign : VerticalAlign
}.

Definition indexer := list Z.

(** [indexer.index] *)
Fixpoint indexFrom (ix : indexer) (index : Z) (loc : Z) : Z :=
  match ix with
  | [] => index - 1
  | start :: ix' => if loc <? start then index - 1 else indexFrom ix' (index + 1) loc
  end.

Definition index (ix : indexer) (loc : Z) : Z := indexFrom ix 0 loc.

Record RichText : Type := mkRichText {
  Builder : gostring;
  locs : indexer;
  faces : list FontFacePtr;
  mode : WritingMode;
  orient : TextOrientation;
  defaultFace : FontFacePtr;
  objects : list TextSpanObject
}.

Definition setBuilder (rt : RichText) (b : gostring) : RichText :=
  mkRichText b (locs rt) (faces rt) (mode rt) (orient rt) (defaultFace rt) (objects rt).

Definition setLocsFaces (rt : RichText) (l : indexer) (f : list FontFacePtr) : RichText :=
  mkRichText (Builder rt) l f (mode rt) (orient rt) (defaultFace rt) (objects rt).

Definition setObjects (rt : RichText) (o : list TextSpanObject) : RichText :=
  mkRichText (Builder rt) (locs rt) (faces rt) (mode rt) (orient rt) (defaultFace rt) o.

Definition NewRichText (face : FontFacePtr) : result RichText :=
  match face with
  | None => Panic
  | Some _ => Ok (mkRichText [] [0] [face] HorizontalTB Natural face [])
  end.

Definition Reset (rt : RichText) : result RichText :=
  let* l := slice (locs rt) 0 1 in
  let* f := slice (faces rt) 0 1 in
  Ok (mkRichText [] l f (mode rt) (orient rt) (defaultFace rt) (objects rt)).

Definition SetWritingMode (m : WritingMode) (rt : RichText) : RichText :=
  mkRichText (Builder rt) (locs rt) (faces rt) m (orient rt) (defaultFace rt) (objects rt).

Definition SetTextOrientation (o : TextOrientation) (rt : RichText) : RichText :=
  mkRichText (Builder rt) (locs rt) (faces rt) (mode rt) o (defaultFace rt) (objects rt).

Definition WriteString (s : gostring) (rt : RichText) : RichText :=
  setBuilder rt (Builder rt ++ s).

Definition WriteRune (r : rune) (rt : RichText) : RichText :=
  setBuilder rt (Builder rt ++ encodeRune r).

(** [rt.Len()] is the length of the buffer in bytes. *)
Definition Len (rt : RichText) : Z := len (Builder rt).

Definition setFace (face : FontFacePtr) (rt : RichText) : result RichText :=
  let* cur := idx (faces rt) (len (faces rt) - 1) in
  if bool_decide (face = cur) then Ok rt
  else
    (let* prevLoc := idx (locs rt) (len (locs rt) - 1) in
     let* (l, f) :=
       (if Len rt - prevLoc =? 0 then
          (let* l := slice (locs rt) 0 (len (locs rt) - 1) in
           let* f := slice (faces rt) 0 (len (faces rt) - 1) in
           Ok (l, f))
        else Ok (locs rt, faces rt)) in
     Ok (setLocsFaces rt (l ++ [len (runesOfString (Builder rt))]) (f ++ [face]))).

Definition SetFace (face : FontFacePtr) (rt : RichText) : result RichText :=
  match face with
  | None => Panic
  | Some _ => setFace face rt
  end.

(** The search loop of [SetFaceSpan]: [rest] is [rt.locs[k:]]. *)
Fixpoint faceSpanLoop (rest : indexer) (k : Z) (start end_ : Z) (i j : Z) : Z * Z :=
  match rest with
  | [] => (i, j)
  | loc :: rest' =>
    let i := if loc <? start then k else i in
    if end_ <=? loc then (i, k - 1)
    else faceSpanLoop rest' (k + 1) start end_ i j
  end.

Definition SetFaceSpan (face : FontFacePtr) (start end_ : Z) (rt : RichText)
    : result RichText :=
  if (end_ <=? start) || (Len rt <=? start) then Ok rt
  else
    let end_ := if Len rt <? end_ then Len rt else end_ in
    let '(i, j) := faceSpanLoop (locs rt) 0 start end_ 0 (len (locs rt) - 1) in
    let* prefixEnd := slice (Builder rt) 0 end_ in
    let* locs1 := setidx (locs rt) j (len (runesOfString prefixEnd)) in
    let* prefixStart := slice (Builder rt) 0 start in
    let* locsTail := slice locs1 j (len locs1) in
    let* locsHead := slice locs1 0 i in
    let* facesTail := slice (faces rt) j (len (faces rt)) in
    let* facesHead := slice (faces rt) 0 i in
    Ok (setLocsFaces rt
          (locsHead ++ [len (runesOfString prefixStart)] ++ locsTail)
          (facesHead ++ [face] ++ facesTail)).

Definition Add (face : FontFacePtr) (text : gostring) (rt : RichText) : result RichText :=
  let* rt := SetFace face rt in
  Ok (WriteString text rt).

Section Canvas.
(** [Canvas.Size] of the canvas at an address. *)
Variable CanvasSize : nat -> float * float.

Definition AddCanvas (c : CanvasPtr) (valign : VerticalAlign) (rt : RichText)
    : result RichText :=
  match c with
  | None => Panic
  | Some a =>
    let '(width, height) := CanvasSize a in
    let* face := idx (faces rt) (len (faces rt) - 1) in
    let* rt := setFace None rt in
    let rt := WriteRune (int32 (len (objects rt))) rt in
    let rt := setObjects rt
      (objects rt ++ [mkTextSpanObject c 0 0 width height valign]) in
    setFace face rt
  end.

(** The building operations of a rich text. *)
Inductive Op : Type :=
| OpWriteString (s : gostring)
| OpSetFace (face : FontFacePtr)
| OpSetFaceSpan (face : FontFacePtr) (start end_ : Z)
| OpAddCanvas (c : CanvasPtr) (valign : VerticalAlign).

Definition runOp (op : Op) (rt : RichText) : result RichText :=
  match op with
  | OpWriteString s => Ok (WriteString s rt)
  | OpSetFace face => SetFace face rt
  | OpSetFaceSpan face start end_ => SetFaceSpan face start end_ rt
  | OpAddCanvas c valign => AddCanvas c valign rt
  end.

Fixpoint runOps (ops : list Op) (rt : RichText) : result RichText :=
  match ops with
  | [] => Ok rt
  | op :: ops' => let* rt := runOp op rt in runOps ops' rt
  end.
End Canvas.

(** The invariant of the face runs: as many faces as offsets, the first
    offset is 0, and the offsets increase strictly. *)
Fixpoint strictlyIncreasing (l : list Z) : bool :=
  match l with
  | [] => true
  | a :: l' =>
    match l' with
    | [] => true
    | b :: _ => (a <? b) && strictlyIncreasing l'
    end
  end.

Definition faceRunsOk (rt : RichText) : Prop :=
  length (locs rt) = length (faces rt)
  /\ head (locs rt) = Some 0
  /\ strictlyIncreasing (locs rt) = true.

(** ** Glyphs, line-breaking items, text *)

Local Open Scope float_scope.
Set Warnings "-inexact-float".

Record Glyph : Type := mkGlyph {
  Glyph_SFNT : option nat;
  Glyph_Size : float;
  Glyph_Script : Script;
  Glyph_Vertical : bool;
  Glyph_ID : Z;
  Glyph_Cluster : Z;
  Glyph_XAdvance : Z;
  Glyph_YAdvance : Z;
  Glyph_XOffset : Z;
  Glyph_YOffset : Z;
  Glyph_Text : rune
}.

Inductive ItemType : Type := BoxType | GlueType | PenaltyType.

Global Instance ItemType_eq_dec : EqDecision ItemType.
Proof. solve_decision. Defined.

(** The fields of [text.Item] and [text.Breakpoint] that [ToText] uses. *)
Record Item : Type := mkItem {
  Item_Type : ItemType;
  Item_Width : float;
  Item_Stretch : float;
  Item_Shrink : float;
  Item_Penalty : float;
  Item_Size : Z
}.

Record Breakpoint : Type := mkBreakpoint {
  Break_Position : Z;
  Break_Ratio : float;
  Break_Width : float
}.

Inductive Align : Type := AlignLeft | AlignJustified.

Record TextSpan : Type := mkTextSpan {
  Span_X : float;
  Span_Width : float;
  Span_Face : FontFacePtr;
  Span_Text : gostring;
  Span_Objects : list TextSpanObject;
  Span_Glyphs : list Glyph;
  (** [Glyphs] is a slice of the glyph array of [ToText]; this is its offset
      in that array, which an append to the slice writes through. *)
  Span_GlyphsOff : Z;
  Span_Direction : Direction;
  Span_Rotation : Rotation
}.

Record line : Type := mkLine {
  line_y : float;
  line_spans : list TextSpan
}.

Record Text : Type := mkText {
  Text_lines : list line;
  Text_fonts : gset nat;
  Text_WritingMode : WritingMode;
  Text_TextOrientation : TextOrientation;
  Text_width : float;
  Text_height : float;
  Text_text : gostring;
  Text_Overflows : bool
}.

Record Metrics : Type := mkMetrics {
  Metrics_Ascent : float;
  Metrics_Descent : float;
  Metrics_LineGap : float
}.

(** The collaborators of [ToText] that live outside [text.go]: the Unicode
    tables, the bidi levels, the shaper, the item builder and the paragraph
    breaker of package text, and the font faces.  A face is addressed by the
    address its pointer holds. *)
Record Env : Type := mkEnv {
  LookupScript : rune -> Script;
  EmbeddingLevels : list rune -> list Z;
  (** [face.Font.shaper.Shape(text, ppem, direction, script, face.Language,
      face.Font.features, face.Font.variations)] *)
  Shape : nat -> gostring -> float -> Direction -> Script -> list Glyph * Direction;
  GlyphsToItems : list Glyph -> float -> Align -> list Item;
  Linebreak : list Item -> float -> Z -> list Breakpoint * bool;
  Infinity : float;
  face_PPEM : nat -> float;             (* face.PPEM(DefaultResolution) *)
  face_Size : nat -> float;
  face_Direction : nat -> Direction;
  face_mmPerEm : nat -> float;
  face_Font : nat -> nat;               (* the address held by face.Font *)
  face_SFNT : nat -> option nat;        (* face.Font.SFNT *)
  face_UnitsPerEm : nat -> Z;           (* face.Font.SFNT.Head.UnitsPerEm *)
  face_Descender : nat -> Z;            (* face.Font.SFNT.Hhea.Descender *)
  face_SxHeight : nat -> Z;             (* face.Font.SFNT.OS2.SxHeight *)
  face_heights : nat -> WritingMode -> float * float * float * float;
  face_textWidth : nat -> list Glyph -> float;
  face_Metrics : nat -> Metrics;
  face_GlyphIndex : nat -> rune -> Z;   (* face.Font.GlyphIndex *)
  face_GlyphAdvance : nat -> Z -> Z;    (* face.Font.GlyphAdvance *)
  sfnt_GlyphAdvance : option nat -> Z -> Z
}.

(** [float64(n)] for an integer [n]. *)
Definition float64OfInt (z : Z) : float :=
  if (z <? 0)%Z then - PrimFloat.of_uint63 (Uint63.of_Z (- z))
  else PrimFloat.of_uint63 (Uint63.of_Z z).

(** [int32(f)] for a float [f]: truncation toward zero.  What Go does with a
    value out of range depends on the platform; this is the amd64 result. *)
Definition int32OfFloat (f : float) : Z :=
  match Prim2SF f with
  | S754_zero _ => 0%Z
  | S754_finite s m e =>
    let mag := Z.shiftl (Z.pos m) e in
    let v := if s then (- mag)%Z else mag in
    if ((- 2 ^ 31 <=? v) && (v <? 2 ^ 31))%Z then v else (- 2 ^ 31)%Z
  | _ => (- 2 ^ 31)%Z
  end.

(** [math.Max] *)
Definition fmax (x y : float) : float :=
  if (is_infinity x && negb (get_sign x)) || (is_infinity y && negb (get_sign y))
  then infinity
  else if is_nan x || is_nan y then nan
  else if (x =? 0) && (x =? y) then (if get_sign x then y else x)
  else if y <? x then x else y.

(** [a != b] on floats *)
Definition fneq (a b : float) : bool := negb (a =? b).

Definition isRTL (d : Direction) : bool :=
  bool_decide (d = RightToLeft) || bool_decide (d = BottomToTop).

(** ** In-place reversal of a range of a slice *)

(** [l[x], l[y] = l[y], l[x]]; the callers have checked the bounds. *)
Definition swap {A : Type} (x y : nat) (l : list A) : list A :=
  match l !! x, l !! y with
  | Some u, Some v => <[x := v]> (<[y := u]> l)
  | _, _ => l
  end.

(** [n] rounds of the swap loop, the next one exchanging [lo] and [hi]. *)
Fixpoint swapLoop {A : Type} (n : nat) (lo hi : nat) (l : list A) : list A :=
  match n with
  | O => l
  | S n' => swapLoop n' (S lo) (Nat.pred hi) (swap lo hi l)
  end.

(** [for i := 0; i < (b-a)/2; i++ { l[a+i], l[b-1-i] = l[b-1-i], l[a+i] }] *)
Definition reverseRange {A : Type} (a b : nat) (l : list A) : list A :=
  swapLoop ((b - a) / 2) a (Nat.pred b) l.

Definition scriptDirection (mode : WritingMode) (orient : TextOrientation)
    (script : Script) (direction : Direction) : Direction * Rotation :=
  let direction :=
    if bool_decide (direction = TopToBottom) || bool_decide (direction = BottomToTop)
    then (if bool_decide (mode = HorizontalTB) then LeftToRight else TopToBottom)
    else if negb (bool_decide (mode = HorizontalTB)) then TopToBottom
    else direction in
  if negb (bool_decide (mode = HorizontalTB)) then
    if negb (IsVerticalScript script) && bool_decide (orient = Natural)
    then (LeftToRight, CW)
    else
      let rotation := ScriptRotation script in
      if fneq rotation NoRotation then (LeftToRight, rotation)
      else (direction, rotation)
  else (direction, NoRotation).

(** ** ToText *)

Section ToText.
Variable E : Env.

(** *** Itemizing by font face and script *)

(** The three parallel slices [texts], [scripts], [faces]. *)
Definition Runs : Type := list gostring * list Script * list FontFacePtr.

(** The body shared by the loop and the tail of the itemization: the runs
    of [logRunes[i:j]] under face [rt.faces[curFace]]. *)
Definition appendRuns (rt : RichText) (logRunes : list rune)
    (embeddingLevels : list Z) (curFace i j : Z) (runs : Runs) : result Runs :=
  let '(texts, scripts, fs) := runs in
  let* face := idx (faces rt) curFace in
  match face with
  | None =>
    let* rs := slice logRunes i j in
    Ok (texts ++ [stringOfRunes rs], scripts ++ [ScriptInvalid], fs ++ [None])
  | Some _ =>
    let* rs := slice logRunes i j in
    let* ls := slice embeddingLevels i j in
    let* items := ScriptItemizer (LookupScript E) rs ls in
    Ok (texts ++ map ScriptItem_Text items,
        scripts ++ map ScriptItem_Script items,
        fs ++ map (fun _ => face) items)
  end.

(** [for j := range logRunes]; [n] counts the runes left. *)
Fixpoint faceLoop (rt : RichText) (logRunes : list rune) (embeddingLevels : list Z)
    (n : nat) (j : Z) (i curFace : Z) (runs : Runs) : result (Z * Z * Runs) :=
  match n with
  | O => Ok (i, curFace, runs)
  | S n' =>
    let nextFace := index (locs rt) j in
    if negb (nextFace =? curFace)%Z then
      (let* runs := appendRuns rt logRunes embeddingLevels curFace i j runs in
       faceLoop rt logRunes embeddingLevels n' (j + 1) j nextFace runs)
    else faceLoop rt logRunes embeddingLevels n' (j + 1) i curFace runs
  end.

Definition itemizeFaces (rt : RichText) (logRunes : list rune)
    (embeddingLevels : list Z) : result Runs :=
  let* (i, curFace, runs) :=
    faceLoop rt logRunes embeddingLevels (length logRunes) 0 0 0 ([], [], []) in
  if (i <? len logRunes)%Z
  then appendRuns rt logRunes embeddingLevels curFace i (len logRunes) runs
  else Ok runs.

(** *** Shaping *)

(** The pseudo-glyph of an embedded object, one per placeholder rune [r] at
    byte offset [i] of the run. *)
Definition objectGlyph (rt : RichText) (script : Script) (clusterOffset : Z)
    (i : Z) (r : rune) : result Glyph :=
  let* obj := idx (objects rt) r in
  match defaultFace rt with
  | None => Panic
  | Some df =>
    let ppem := float64OfInt (face_UnitsPerEm E df) in
    let xadv := Object_Width obj in
    let yadv := Object_Height obj in
    let yadv := if negb (bool_decide (mode rt = HorizontalTB)) then - yadv else yadv in
    Ok (mkGlyph (face_SFNT E df) (face_Size E df) script
          (negb (bool_decide (mode rt = HorizontalTB)))
          (uint16 r) (uint32 (clusterOffset + uint32 i))
          (int32OfFloat (xadv * ppem / face_Size E df))
          (int32OfFloat (yadv * ppem / face_Size E df))
          0 0 0%Z)
  end.

Fixpoint objectGlyphs (rt : RichText) (script : Script) (clusterOffset : Z)
    (rs : list (Z * rune)) : result (list Glyph) :=
  match rs with
  | [] => Ok []
  | (i, r) :: rs' =>
    let* g := objectGlyph rt script clusterOffset i r in
    let* gs := objectGlyphs rt script clusterOffset rs' in
    Ok (g :: gs)
  end.

(** What the shaping loop stores into one glyph returned by the shaper. *)
Definition tagGlyph (rt : RichText) (f : nat) (script : Script)
    (direction : Direction) (rotation : Rotation) (clusterOffset : Z)
    (g : Glyph) : Glyph :=
  let yoff := Glyph_YOffset g in
  let yoff :=
    if negb (bool_decide (mode rt = HorizontalTB)) then
      if bool_decide (script = Mongolian) then int32 (yoff + face_Descender E f)
      else if fneq rotation NoRotation then
        int32 (yoff - Z.quot (face_SxHeight E f) 2)
      else if bool_decide (orient rt = Upright) && (rotation =? NoRotation)
              && negb (IsVerticalScript script) then
        Z.quot (int32 (- int32 (face_UnitsPerEm E f + face_SxHeight E f))) 2
      else yoff
    else yoff in
  mkGlyph (face_SFNT E f) (face_Size E f) script
    (bool_decide (direction = TopToBottom) || bool_decide (direction = BottomToTop))
    (Glyph_ID g) (uint32 (Glyph_Cluster g + clusterOffset))
    (Glyph_XAdvance g) (Glyph_YAdvance g) (Glyph_XOffset g) yoff (Glyph_Text g).

(** The glyphs of run [k], its direction and its rotation, before the
    reversal for line breaking. *)
Definition shapeRun (rt : RichText) (text : gostring) (face : FontFacePtr)
    (script : Script) (clusterOffset : Z)
    : result (list Glyph * Direction * Rotation) :=
  match face with
  | None =>
    let* gs := objectGlyphs rt script clusterOffset (rangeString text) in
    Ok (gs, DirectionInvalid, NoRotation)
  | Some f =>
    let ppem := face_PPEM E f in
    let '(direction, rotation) :=
      scriptDirection (mode rt) (orient rt) script (face_Direction E f) in
    let '(glyphsString, direction) := Shape E f text ppem direction script in
    Ok (map (tagGlyph rt f script direction rotation clusterOffset) glyphsString,
        direction, rotation)
  end.

(** The state of the shaping loop. *)
Record Shaped : Type := mkShaped {
  clusterOffset : Z;
  glyphIndices : indexer;
  glyphs : list Glyph;
  directions : list Direction;
  rotations : list Rotation
}.

(** One iteration of [for k, text := range texts]. *)
Definition shapeStep (rt : RichText) (text : gostring) (face : FontFacePtr)
    (script : Script) (st : Shaped) : result Shaped :=
  let* (glyphsString, direction, rotation) :=
    shapeRun rt text face script (clusterOffset st) in
  let glyphsString :=
    if isRTL direction
    then reverseRange 0 (length glyphsString) glyphsString
    else glyphsString in
  Ok (mkShaped (uint32 (clusterOffset st + uint32 (len text)))
        (glyphIndices st ++ [len (glyphs st)])
        (glyphs st ++ glyphsString)
        (directions st ++ [direction])
        (rotations st ++ [rotation])).

Fixpoint shapeLoop (rt : RichText) (texts : list gostring)
    (scripts : list Script) (fs : list FontFacePtr) (st : Shaped) : result Shaped :=
  match texts, scripts, fs with
  | text :: texts', script :: scripts', face :: fs' =>
    let* st := shapeStep rt text face script st in
    shapeLoop rt texts' scripts' fs' st
  | [], _, _ => Ok st
  | _, _, _ => Panic
  end.

(** *** Writing mode and alignment *)

Definition swapAxes (rt : RichText) (width height : float)
    (halign valign : TextAlign) : float * float * TextAlign * TextAlign :=
  if negb (bool_decide (mode rt = HorizontalTB)) then
    let '(width, height) := (height, width) in
    let '(halign, valign) := (valign, halign) in
    let halign := if bool_decide (halign = Top) then Left
                  else if bool_decide (halign = Bottom) then Right else halign in
    let valign := if bool_decide (valign = Left) then Top
                  else if bool_decide (valign = Right) then Bottom else valign in
    (width, height, halign, valign)
  else (width, height, halign, valign).

(** *** Breakpoints *)

(** The loop run for a zero width: a break at every forced penalty. *)
Fixpoint forcedBreaks (items : list Item) (i : Z) (lineWidth : float)
    (breaks : list Breakpoint) : list Breakpoint :=
  match items with
  | [] => breaks
  | item :: items' =>
    if negb (bool_decide (Item_Type item = PenaltyType)) then
      forcedBreaks items' (i + 1) (lineWidth + Item_Width item) breaks
    else if Item_Penalty item <=? - Infinity E then
      forcedBreaks items' (i + 1) 0 (breaks ++ [mkBreakpoint i 0 lineWidth])
    else forcedBreaks items' (i + 1) lineWidth breaks
  end.

(** The breakpoints and the overflow flag; [looseness] is 0. *)
Definition breakLines (items : list Item) (width : float)
    : list Breakpoint * bool :=
  if fneq width 0 then
    let '(breaks, ok) := Linebreak E items width 0 in
    (breaks, negb ok)
  else if (len items =? 0)%Z then ([mkBreakpoint 0 0 0], false)
  else (forcedBreaks items 0 0 [], false).

(** *** Cleaning up the items after breaking *)

Record Coalesce : Type := mkCoalesce {
  c_items : list Item;
  c_breaks : list Breakpoint;
  c_k : Z;
  c_j : Z;
  c_shift : Z
}.

(** [append(items[:k], items[k+1:]...)] *)
Definition removeAt {A : Type} (k : Z) (l : list A) : list A :=
  take (Z.to_nat k) l ++ drop (Z.to_nat (k + 1)) l.

(** [it.Size += n] *)
Definition addSize (it : Item) (n : Z) : Item :=
  mkItem (Item_Type it) (Item_Width it) (Item_Stretch it) (Item_Shrink it)
    (Item_Penalty it) (int64 (Item_Size it + n)).

(** The glue [g] merged into the glue [it]. *)
Definition mergeGlue (it g : Item) : Item :=
  mkItem (Item_Type it) (Item_Width it + Item_Width g)
    (Item_Stretch it + Item_Stretch g) (Item_Shrink it + Item_Shrink g)
    (Item_Penalty it) (int64 (Item_Size it + Item_Size g)).

(** The item [g] merged into the box [it]; the type is set to [BoxType]. *)
Definition mergeBox (it g : Item) : Item :=
  mkItem BoxType (Item_Width it + Item_Width g)
    (Item_Stretch it) (Item_Shrink it)
    (Item_Penalty it) (int64 (Item_Size it + Item_Size g)).

Definition isType (ty : ItemType) (it : Item) : bool :=
  bool_decide (Item_Type it = ty).

(** [0 < k && items[k-1].Type == ty] *)
Definition prevIs (ty : ItemType) (items : list Item) (k : Z) : bool :=
  (0 <? k)%Z &&
  match items !! Z.to_nat (k - 1) with
  | Some p => isType ty p
  | None => false
  end.

(** The item at [k] is folded into the one at [k'] by [f] and removed. *)
Definition foldInto (f : Item -> Item -> Item) (items : list Item) (k k' : Z)
    : result (list Item) :=
  let* it := idx items k in
  let* p := idx items k' in
  let* items := setidx items k' (f p it) in
  Ok (removeAt k items).

(** One iteration of [for k := 0; k < len(items); k++], with the [k++]. *)
Definition coalesceStep (st : Coalesce) : result Coalesce :=
  let items := c_items st in
  let breaks := c_breaks st in
  let k := c_k st in
  let j := c_j st in
  let shift := c_shift st in
  let* it := idx items k in
  let* br := idx breaks j in
  if (k =? int64 (Break_Position br - shift))%Z then
    (* keep breaking item *)
    (let* breaks := setidx breaks j
       (mkBreakpoint (int64 (Break_Position br - shift)) (Break_Ratio br)
          (Break_Width br)) in
     Ok (mkCoalesce items breaks (k + 1) (j + 1) shift))
  else if (0 <? k)%Z && isType GlueType it && (0 <? j)%Z
          && match breaks !! Z.to_nat (j - 1) with
             | Some pb => (k - 1 =? Break_Position pb)%Z
             | None => false
             end then
    (* put spaces at the beginning of the line into the break *)
    (let* items := foldInto (fun p g => addSize p (Item_Size g)) items k (k - 1) in
     Ok (mkCoalesce items breaks k j (shift + 1)))
  else if (k + 1 <? len items)%Z && isType GlueType it
          && (k + 1 =? int64 (Break_Position br - shift))%Z then
    (* put spaces at the end of the line into the break *)
    (let* items := foldInto (fun p g => addSize p (Item_Size g)) items k (k + 1) in
     Ok (mkCoalesce items breaks k j (shift + 1)))
  else if isType PenaltyType it && (Item_Size it =? 0)%Z then
    (* remove non-breaking penalties *)
    Ok (mkCoalesce (removeAt k items) breaks k j (shift + 1))
  else if isType GlueType it && (Item_Size it =? 0)%Z && (Break_Ratio br =? 0) then
    (* remove empty glues *)
    Ok (mkCoalesce (removeAt k items) breaks k j (shift + 1))
  else if isType GlueType it && prevIs GlueType items k then
    (* merge glues; parse again in case of a box-glue pair *)
    (let* items := foldInto mergeGlue items k (k - 1) in
     Ok (mkCoalesce items breaks (k - 1) j (shift + 1)))
  else if isType BoxType it && prevIs BoxType items k then
    (* merge boxes *)
    (let* items := foldInto mergeBox items k (k - 1) in
     Ok (mkCoalesce items breaks k j (shift + 1)))
  else if isType GlueType it
          && ((Break_Ratio br =? 0)
              || ((Item_Stretch it =? 0) && (Item_Shrink it =? 0)))
          && prevIs BoxType items k then
    (* merge glue with box when glue is the width of a space *)
    (let* items := foldInto mergeBox items k (k - 1) in
     Ok (mkCoalesce items breaks k j (shift + 1)))
  else Ok (mkCoalesce items breaks (k + 1) j shift).

(** The loop; [None] when the fuel runs out. *)
Fixpoint coalesceLoop (fuel : nat) (st : Coalesce) : option (result Coalesce) :=
  if (len (c_items st) <=? c_k st)%Z then Some (Ok st)
  else match fuel with
       | O => None
       | S fuel' =>
         match coalesceStep st with
         | Ok st' => coalesceLoop fuel' st'
         | Panic => Some Panic
         end
       end.

(** The state the loop starts in: the empty indent box is removed. *)
Definition coalesceInit (items : list Item) (breaks : list Breakpoint) : Coalesce :=
  match items with
  | it :: items' =>
    if Item_Width it =? 0 then mkCoalesce items' breaks 0 0 1
    else mkCoalesce items breaks 0 0 0
  | [] => mkCoalesce items breaks 0 0 0
  end.

(** Every iteration lowers [2 * len(items) - k], so this fuel suffices
    (lemma [coalesce_fuel] below). *)
Definition coalesceFuel (items : list Item) : nat := (2 * length items + 1)%nat.

Definition coalesceRun (items : list Item) (breaks : list Breakpoint)
    : option (result Coalesce) :=
  let st := coalesceInit items breaks in
  coalesceLoop (coalesceFuel (c_items st)) st.

(** The cleaned items and the shifted breakpoints. *)
Definition coalesce (items : list Item) (breaks : list Breakpoint)
    : result (list Item * list Breakpoint) :=
  match coalesceRun items breaks with
  | Some (Ok st) => Ok (c_items st, c_breaks st)
  | _ => Panic
  end.

(** *** Line heights *)

(** [face.heights(mode)] through a pointer; nil cannot be dereferenced. *)
Definition heightsOf (face : FontFacePtr) (m : WritingMode)
    : result (float * float * float * float) :=
  match face with
  | Some f => Ok (face_heights E f m)
  | None => Panic
  end.

Definition IsText (span : TextSpan) : bool := (len (Span_Objects span) =? 0)%Z.

(** [TextSpanObject.Heights] *)
Definition Object_Heights (obj : TextSpanObject) (face : FontFacePtr)
    : result (float * float) :=
  match Object_VAlign obj with
  | Baseline => Ok (Object_Height obj, 0)
  | FontTop =>
    match face with
    | None => Panic
    | Some f =>
      let ascent := Metrics_Ascent (face_Metrics E f) in
      Ok (ascent, - (ascent - Object_Height obj))
    end
  | FontMiddle =>
    match face with
    | None => Panic
    | Some f =>
      let ascent := Metrics_Ascent (face_Metrics E f) in
      let descent := Metrics_Descent (face_Metrics E f) in
      Ok ((ascent - descent + Object_Height obj) / 2,
          - (ascent - descent - Object_Height obj) / 2)
    end
  | FontBottom =>
    match face with
    | None => Panic
    | Some f =>
      let descent := Metrics_Descent (face_Metrics E f) in
      Ok (- descent + Object_Height obj, descent)
    end
  end.

Definition Quad : Type := float * float * float * float.

Definition maxQuad (q : Quad) (t a d b : float) : Quad :=
  let '(top, ascent, descent, bottom) := q in
  (fmax top t, fmax ascent a, fmax descent d, fmax bottom b).

(** The spans of a line in horizontal mode. *)
Fixpoint heightsObjectsH (face : FontFacePtr) (objs : list TextSpanObject)
    (q : Quad) : result Quad :=
  match objs with
  | [] => Ok q
  | obj :: objs' =>
    let* (spanAscent, spanDescent) := Object_Heights obj face in
    match face with
    | None => Panic
    | Some f =>
      let lineSpacing := Metrics_LineGap (face_Metrics E f) in
      heightsObjectsH face objs'
        (maxQuad q (spanAscent + lineSpacing) spanAscent spanDescent
           (spanDescent + lineSpacing))
    end
  end.

Fixpoint heightsSpansH (spans : list TextSpan) (q : Quad) : result Quad :=
  match spans with
  | [] => Ok q
  | span :: spans' =>
    let* q :=
      (if IsText span then
         (let* (t, a, d, b) := heightsOf (Span_Face span) HorizontalTB in
          Ok (maxQuad q t a d b))
       else heightsObjectsH (Span_Face span) (Span_Objects span) q) in
    heightsSpansH spans' q
  end.

(** The spans of a line in a vertical mode; the state carries [width]. *)
Fixpoint heightsGlyphsV (m : WritingMode) (face : FontFacePtr) (gs : list Glyph)
    (qw : Quad * float) : result (Quad * float) :=
  match gs with
  | [] => Ok qw
  | glyph :: gs' =>
    let '(q, width) := qw in
    let* qw :=
      (if Glyph_Vertical glyph then
         match face with
         | None => Panic
         | Some f =>
           Ok (q, fmax width
                    (1.2 * face_mmPerEm E f
                     * float64OfInt (sfnt_GlyphAdvance E (Glyph_SFNT glyph)
                                       (Glyph_ID glyph))))
         end
       else
         (let* (t, a, d, b) := heightsOf face m in
          Ok (maxQuad q t a d b, width))) in
    heightsGlyphsV m face gs' qw
  end.

Fixpoint heightsSpansV (m : WritingMode) (spans : list TextSpan)
    (qw : Quad * float) : result (Quad * float) :=
  match spans with
  | [] => Ok qw
  | span :: spans' =>
    let* qw :=
      (if IsText span then heightsGlyphsV m (Span_Face span) (Span_Glyphs span) qw
       else
         Ok (fst qw,
             fold_left (fun w obj => fmax w (Object_Width obj))
               (Span_Objects span) (snd qw))) in
    heightsSpansV m spans' qw
  end.

(** [line.Heights] *)
Definition line_Heights (l : line) (m : WritingMode) : result Quad :=
  if bool_decide (m = HorizontalTB) then heightsSpansH (line_spans l) (0, 0, 0, 0)
  else
    let* (q, width) := heightsSpansV m (line_spans l) ((0, 0, 0, 0), 0) in
    Ok (maxQuad q (width / 2) (width / 2) (width / 2) (width / 2)).

(** *** Building up the lines *)

(** The state of the assembly loop: the lines, fonts and text of the
    result, the glyph array (which the spans share), the glyph index [i],
    the line index [j] and the pen position. *)
Record Asm : Type := mkAsm {
  a_lines : list line;
  a_fonts : gset nat;
  a_text : gostring;
  a_glyphs : list Glyph;
  a_i : Z;
  a_j : Z;
  a_x : float;
  a_y : float
}.

Definition setLines (st : Asm) (ls : list line) : Asm :=
  mkAsm ls (a_fonts st) (a_text st) (a_glyphs st) (a_i st) (a_j st) (a_x st) (a_y st).

Definition setX (st : Asm) (x : float) : Asm :=
  mkAsm (a_lines st) (a_fonts st) (a_text st) (a_glyphs st) (a_i st) (a_j st) x (a_y st).

Definition setI (st : Asm) (i : Z) : Asm :=
  mkAsm (a_lines st) (a_fonts st) (a_text st) (a_glyphs st) i (a_j st) (a_x st) (a_y st).

Definition setSpanText (sp : TextSpan) (s : gostring) : TextSpan :=
  mkTextSpan (Span_X sp) (Span_Width sp) (Span_Face sp) s (Span_Objects sp)
    (Span_Glyphs sp) (Span_GlyphsOff sp) (Span_Direction sp) (Span_Rotation sp).

Definition setSpanX (sp : TextSpan) (x : float) : TextSpan :=
  mkTextSpan x (Span_Width sp) (Span_Face sp) (Span_Text sp) (Span_Objects sp)
    (Span_Glyphs sp) (Span_GlyphsOff sp) (Span_Direction sp) (Span_Rotation sp).

(** [t.lines[j].spans] *)
Definition spansAt (ls : list line) (j : Z) : result (list TextSpan) :=
  let* l := idx ls j in Ok (line_spans l).

Definition setSpansAt (ls : list line) (j : Z) (spans : list TextSpan)
    : result (list line) :=
  let* l := idx ls j in setidx ls j (mkLine (line_y l) spans).

(** [span.Text += string(glyph.Text)] for every glyph of [gs], on the last
    span of line [j]. *)
Definition appendGlyphText (ls : list line) (j : Z) (gs : list Glyph)
    : result (list line) :=
  let* spans := spansAt ls j in
  let* sp := idx spans (len spans - 1) in
  let text := fold_left (fun s g => s ++ encodeRune (Glyph_Text g)) gs (Span_Text sp) in
  let* spans := setidx spans (len spans - 1) (setSpanText sp text) in
  setSpansAt ls j spans.

Section Assemble.
Variable rt : RichText.
Variable log : gostring.
Variable fs : list FontFacePtr.       (* the face of every run *)
Variable gix : indexer.                (* glyphIndices *)
Variable dirs : list Direction.
Variable rots : list Rotation.
Variable items : list Item.
Variable breaks : list Breakpoint.
Variables width height : float.
Variable halign : TextAlign.
Variable lineSpacing : float.

(** The offset a line starts at, from the alignment. *)
Definition lineStart (x : float) (j : Z) : result float :=
  if bool_decide (halign = Right) then
    (let* br := idx breaks j in Ok (x + (width - Break_Width br)))
  else if bool_decide (halign = Center) || bool_decide (halign = Middle) then
    (let* br := idx breaks j in Ok (x + (width - Break_Width br) / 2))
  else Ok x.

(** The hyphen appended to the last span of line [j] when the break is
    taken at a soft hyphen.  The append to [span.Glyphs] writes the glyph
    array at the end of the slice. *)
Definition hyphenate (st : Asm) : result Asm :=
  let* spans := spansAt (a_lines st) (a_j st) in
  let* sp := idx spans (len spans - 1) in
  match Span_Face sp with
  | None => Panic
  | Some f =>
    let id := face_GlyphIndex E f 45%Z in
    let glyph := mkGlyph (face_SFNT E f) (face_Size E f) ScriptInvalid false
                   id 0 (int32 (face_GlyphAdvance E f id)) 0 0 0 45%Z in
    let sp' := mkTextSpan (Span_X sp)
                 (Span_Width sp + face_textWidth E f [glyph])
                 (Span_Face sp) (Span_Text sp ++ [45%Z]) (Span_Objects sp)
                 (Span_Glyphs sp ++ [glyph]) (Span_GlyphsOff sp)
                 (Span_Direction sp) (Span_Rotation sp) in
    let* gl := setidx (a_glyphs st)
                 (Span_GlyphsOff sp + len (Span_Glyphs sp)) glyph in
    let* spans := setidx spans (len spans - 1) sp' in
    let* ls := setSpansAt (a_lines st) (a_j st) spans in
    Ok (mkAsm ls (a_fonts st) (a_text st) gl (a_i st) (a_j st) (a_x st) (a_y st))
  end.

(** At a breakpoint, first: the glyphs of the breaking item (spaces) go to
    the text of the last span of the line, and a soft hyphen is made
    visible.  Nothing is done on a line without spans. *)
Definition breakPrepare (item : Item) (st : Asm) : result Asm :=
  let j := a_j st in
  let i := a_i st in
  let* spans := spansAt (a_lines st) j in
  if (0 <? len spans)%Z then
    (* add spaces to previous span *)
    (let* gs := slice (a_glyphs st) i (i + Item_Size item) in
     let* ls := appendGlyphText (a_lines st) j gs in
     let st := setLines st ls in
     let* softHyphen :=
       (if isType PenaltyType item && (Item_Size item =? 1)%Z
        then (let* g := idx (a_glyphs st) i in Ok (Glyph_Text g =? 173)%Z)
        else Ok false) in
     if softHyphen then hyphenate st else Ok st)
  else Ok st.

(** Then the ascent, descent and bottom of the line, from the face of the
    next glyph when the line has no span, and stretched by the line
    spacing. *)
Definition breakHeights (st : Asm) : result (float * float * float) :=
  let j := a_j st in
  let* spans := spansAt (a_lines st) j in
  let* (_, ascent, descent, bottom) :=
    (if (len spans =? 0)%Z then
       (let* face := idx fs (index gix (a_i st)) in heightsOf face (mode rt))
     else (let* l := idx (a_lines st) j in line_Heights l (mode rt))) in
  let ascent := if (0 <? j)%Z then ascent * lineSpacing else ascent in
  let bottom := bottom * lineSpacing in
  Ok (ascent, descent, bottom).

(** [height != 0.0 && height < y+ascent+descent] *)
Definition lineOverflows (st : Asm) (ascent descent : float) : bool :=
  fneq height 0 && (height <? a_y st + ascent + descent).

(** The item at a breakpoint.  The boolean tells whether the loop goes
    on; it is false after a [break]. *)
Definition breakStep (position : Z) (item : Item) (st : Asm)
    : result (Asm * bool) :=
  let* st := breakPrepare item st in
  let* (ascent, descent, bottom) := breakHeights st in
  let j := a_j st in
  let i := a_i st in
  if lineOverflows st ascent descent then
    (* doesn't fit *)
    (let* ls := slice (a_lines st) 0 (len (a_lines st) - 1) in
     if (0 <? j)%Z then
       (let* g := idx (a_glyphs st) i in
        let* text := slice log 0 (Glyph_Cluster g) in
        Ok (mkAsm ls (a_fonts st) text (a_glyphs st) i j (a_x st) (a_y st), false))
     else
       Ok (mkAsm ls (a_fonts st) [] (a_glyphs st) i j (a_x st) 0, false))
  else
    (let* l := idx (a_lines st) j in
     let* ls := setidx (a_lines st) j (mkLine (a_y st + ascent) (line_spans l)) in
     let y := a_y st + (ascent + bottom) in
     if (position =? len items - 1)%Z then
       Ok (mkAsm ls (a_fonts st) (a_text st) (a_glyphs st) i j (a_x st) y, false)
     else
       (let ls := ls ++ [mkLine 0 []] in
        let j := if (j + 1 <? len breaks)%Z then (j + 1)%Z else j in
        let* x := lineStart 0 j in
        Ok (mkAsm ls (a_fonts st) (a_text st) (a_glyphs st)
              (i + Item_Size item) j x y, true))).

(** The objects of the glyphs [glyphs[a:b]] of an object run, laid out
    one after the other; [w] is the width so far. *)
Fixpoint spanObjects (gs : list Glyph) (w : float) (objs : list TextSpanObject)
    : result (float * list TextSpanObject) :=
  match gs with
  | [] => Ok (w, objs)
  | glyph :: gs' =>
    let* obj := idx (objects rt) (Glyph_ID glyph) in
    if bool_decide (mode rt = HorizontalTB) then
      spanObjects gs' (w + Object_Width obj)
        (objs ++ [mkTextSpanObject (Object_Canvas obj) w (Object_Y obj)
                    (Object_Width obj) (Object_Height obj) (Object_VAlign obj)])
    else
      spanObjects gs' (w + Object_Height obj)
        (objs ++ [mkTextSpanObject (Object_Canvas obj)
                    (- Object_Width obj / 2) (- w - Object_Height obj)
                    (Object_Width obj) (Object_Height obj) (Object_VAlign obj)])
  end.

(** [for ; 0 < first; first--], stopping before a span that is not
    right-to-left or bottom-to-top. *)
Fixpoint firstRTL (spans : list TextSpan) (first : nat) : nat :=
  match first with
  | O => O
  | S first' =>
    match spans !! first' with
    | Some sp => if isRTL (Span_Direction sp) then firstRTL spans first' else first
    | None => first
    end
  end.

(** [for i := first; i < last; i++ { spans[i].X += d }], [n] spans. *)
Fixpoint shiftSpans (n : nat) (i : nat) (d : float) (spans : list TextSpan)
    : list TextSpan :=
  match n with
  | O => spans
  | S n' =>
    match spans !! i with
    | Some sp => shiftSpans n' (S i) d (<[i := setSpanX sp (Span_X sp + d)]> spans)
    | None => spans
    end
  end.

(** The spans of the line after a right-to-left span was appended: it
    takes the place of the span before it and the right-to-left spans
    before it move to the right. *)
Definition reorderSpans (spans : list TextSpan) (xdx w : float)
    : result (list TextSpan) :=
  let last := (length spans - 1)%nat in
  let first := firstRTL spans last in
  if (first <? last)%nat then
    (let* spFirst := idx spans (Z.of_nat first) in
     let space := xdx - Span_X spFirst - Span_Width spFirst in
     let* spLast := idx spans (Z.of_nat last) in
     let* spPrev := idx spans (Z.of_nat last - 1) in
     let spans := <[last := setSpanX spLast (Span_X spPrev)]> spans in
     Ok (shiftSpans (last - first) first (w + space) spans))
  else Ok spans.

(** The state of the loop over [b] inside a box. *)
Record BoxSt : Type := mkBoxSt {
  b_a : Z;
  b_k : Z;
  b_dx : float;
  b_glyphs : list Glyph;
  b_lines : list line;
  b_fonts : gset nat
}.

(** The span of the glyphs [glyphs[a:b]], all of run [k], appended to
    line [j]. *)
Definition spanStep (j : Z) (x : float) (b nextK : Z) (st : BoxSt)
    : result BoxSt :=
  let a := b_a st in
  let k := b_k st in
  let dx := b_dx st in
  let* face := idx fs k in
  let* ga := idx (b_glyphs st) a in
  let* gb := idx (b_glyphs st) b in
  let ac := Glyph_Cluster ga in
  let bc := Glyph_Cluster gb in
  let* gsab := slice (b_glyphs st) a b in
  let* (face, w, objs, fonts) :=
    match face with
    | Some f =>
      (* text *)
      Ok (face, face_textWidth E f gsab, [], {[face_Font E f]} ∪ b_fonts st)
    | None =>
      (* path/image object *)
      let* spans := spansAt (b_lines st) j in
      let* face :=
        (if (0 <? len spans)%Z
         then (let* sp := idx spans (len spans - 1) in Ok (Span_Face sp))
         else Ok (defaultFace rt)) in
      let* (w, objs) := spanObjects gsab 0 [] in
      Ok (face, w, objs, b_fonts st)
    end in
  let* dk := idx dirs k in
  (* reverse right-to-left and bottom-to-top glyph order *)
  let gl := if isRTL dk then reverseRange (Z.to_nat a) (Z.to_nat b) (b_glyphs st)
            else b_glyphs st in
  let* s := slice log ac bc in
  let* rk := idx rots k in
  let* gsab := slice gl a b in
  let* spans := spansAt (b_lines st) j in
  let spans := spans ++ [mkTextSpan (x + dx) w face s objs gsab a dk rk] in
  let* spans := (if isRTL dk then reorderSpans spans (x + dx) w else Ok spans) in
  let* ls := setSpansAt (b_lines st) j spans in
  Ok (mkBoxSt b nextK (dx + w) gl ls fonts).

(** [for b := i + 1; b <= i+item.Size; b++], [n] values of [b] left. *)
Fixpoint boxLoop (n : nat) (j : Z) (x : float) (iend : Z) (b : Z) (st : BoxSt)
    : result BoxSt :=
  match n with
  | O => Ok st
  | S n' =>
    let nextK := index gix b in
    let* st :=
      (if negb (nextK =? b_k st)%Z || (b =? iend)%Z
       then spanStep j x b nextK st else Ok st) in
    boxLoop n' j x iend (b + 1) st
  end.

(** A box item that is not at a breakpoint. *)
Definition boxStep (item : Item) (st : Asm) : result Asm :=
  let i := a_i st in
  let* bst :=
    boxLoop (Z.to_nat (Item_Size item)) (a_j st) (a_x st) (i + Item_Size item)
      (i + 1) (mkBoxSt i (index gix i) 0 (a_glyphs st) (a_lines st) (a_fonts st)) in
  Ok (mkAsm (b_lines bst) (b_fonts bst) (a_text st) (b_glyphs bst)
        i (a_j st) (a_x st + Item_Width item) (a_y st)).

(** A glue item that is not at a breakpoint. *)
Definition glueStep (item : Item) (st : Asm) : result Asm :=
  let* br := idx breaks (a_j st) in
  let w := Item_Width item in
  let w :=
    if 0 <=? Break_Ratio br then
      (if negb (is_infinity (Item_Stretch item))
       then w + Break_Ratio br * Item_Stretch item else w)
    else if negb (is_infinity (Item_Shrink item))
    then w + Break_Ratio br * Item_Shrink item else w in
  let st := setX st (a_x st + w) in
  let* spans := spansAt (a_lines st) (a_j st) in
  if (0 <? len spans)%Z then
    (let* gs := slice (a_glyphs st) (a_i st) (a_i st + Item_Size item) in
     let* ls := appendGlyphText (a_lines st) (a_j st) gs in
     Ok (setLines st ls))
  else Ok st.

(** [for position, item := range items]; [its] are the items from
    [position] on. *)
Fixpoint asmLoop (its : list Item) (position : Z) (st : Asm) : result Asm :=
  match its with
  | [] => Ok st
  | item :: its' =>
    let* br := idx breaks (a_j st) in
    if (position =? Break_Position br)%Z then
      (let* (st, continue) := breakStep position item st in
       if continue then asmLoop its' (position + 1) st else Ok st)
    else if isType BoxType item then
      (let* st := boxStep item st in
       asmLoop its' (position + 1) (setI st (a_i st + Item_Size item)))
    else if isType GlueType item then
      (let* st := glueStep item st in
       asmLoop its' (position + 1) (setI st (a_i st + Item_Size item)))
    else asmLoop its' (position + 1) (setI st (a_i st + Item_Size item))
  end.
End Assemble.

(** *** Vertical alignment *)

Definition shiftLine (dy : float) (l : line) : line :=
  mkLine (line_y l + dy) (line_spans l).

(** [for j := range t.lines { t.lines[j].y += dy; dy += ddy }] *)
Fixpoint justifyLines (ls : list line) (dy ddy : float) : list line :=
  match ls with
  | [] => []
  | l :: ls' => shiftLine dy l :: justifyLines ls' (dy + ddy) ddy
  end.

Definition alignLines (rt : RichText) (ls : list line) (height y : float)
    (valign : TextAlign) : list line :=
  let valign :=
    if bool_decide (mode rt = VerticalRL) then
      (if bool_decide (valign = Top) then Bottom
       else if bool_decide (valign = Bottom) then Top else valign)
    else valign in
  let ls :=
    if bool_decide (valign = Center) || bool_decide (valign = Middle)
       || bool_decide (valign = Bottom) then
      let dy := height - y in
      let dy := if bool_decide (valign = Center) || bool_decide (valign = Middle)
                then dy / 2 else dy in
      map (shiftLine dy) ls
    else if bool_decide (valign = Justify) then
      justifyLines ls 0 ((height - y) / float64OfInt (len ls - 1))
    else ls in
  if bool_decide (mode rt = VerticalRL)
  then map (fun l => mkLine (height - line_y l) (line_spans l)) ls
  else ls.

(** *** The layout *)

(** The part of [ToText] that builds up the lines, from the cleaned items
    and the breakpoints. *)
Definition buildLines (rt : RichText) (log : gostring) (fs : list FontFacePtr)
    (sh : Shaped) (items : list Item) (breaks : list Breakpoint)
    (width height : float) (halign valign : TextAlign) (lineStretch : float)
    (overflows : bool) : result Text :=
  let gl := glyphs sh ++ [mkGlyph None 0 ScriptInvalid false 0 (uint32 (len log))
                            0 0 0 0 0%Z] in
  let lineSpacing := 1 + lineStretch in
  let* x := lineStart breaks width halign 0 0 in
  let* st :=
    asmLoop rt log fs (glyphIndices sh) (directions sh) (rotations sh) items
      breaks width height halign lineSpacing items 0
      (mkAsm [mkLine 0 []] ∅ log gl 0 0 x 0) in
  let* y :=
    (if (0 <? a_j st)%Z then
       (* remove line gap of last line *)
       (let* l := idx (a_lines st) (a_j st - 1) in
        let* (_, _, descent, bottom) := line_Heights l (mode rt) in
        Ok (a_y st + (- bottom * lineSpacing + descent)))
     else Ok (a_y st)) in
  Ok (mkText (alignLines rt (a_lines st) height y valign) (a_fonts st)
        (mode rt) (orient rt) width height (a_text st) overflows).

(** [ToText]; the receiver is passed through, so that the state it is left
    in can be compared with the state it was called in. *)
Definition ToText (width height : float) (halign valign : TextAlign)
    (indent lineStretch : float) (rt : RichText) : result (Text * RichText) :=
  let log := Builder rt in
  let logRunes := runesOfString log in
  let embeddingLevels := EmbeddingLevels E logRunes in
  let* (texts, scripts, fs) := itemizeFaces rt logRunes embeddingLevels in
  let* sh := shapeLoop rt texts scripts fs (mkShaped 0 [] [] [] []) in
  let '(width, height, halign, valign) := swapAxes rt width height halign valign in
  let align := if bool_decide (halign = Justify) then AlignJustified else AlignLeft in
  let items := GlyphsToItems E (glyphs sh) indent align in
  let '(breaks, overflows) := breakLines items width in
  let* (items, breaks) := coalesce items breaks in
  let* t := buildLines rt log fs sh items breaks width height halign valign
              lineStretch overflows in
  Ok (t, rt).
End ToText.

(** ** A concrete instance of the collaborators

    A small shaper, item builder, breaker and font, on which the layout can
    be run: one glyph of advance 10 per rune, in visual order (right-to-left
    runs come out with descending clusters); one box per glyph, a glue per
    space, a forced break per paragraph separator and at the end; breaks at
    the forced penalties only.  Face 1 is right-to-left, every other face
    left-to-right. *)

Definition sampleInfinity : float := 1000.

Definition sampleShape (f : nat) (text : gostring) (ppem : float)
    (d : Direction) (script : Script) : list Glyph * Direction :=
  let d := if bool_decide (d = DirectionInvalid) then LeftToRight else d in
  let gs := map (fun ir => mkGlyph None 0 ScriptInvalid false (snd ir) (fst ir)
                             10 0 0 0 (snd ir)) (rangeString text) in
  (if isRTL d then reverse gs else gs, d).

Definition sampleItem (g : Glyph) : Item :=
  let r := Glyph_Text g in
  if ((10 <=? r) && (r <=? 13))%Z then mkItem PenaltyType 0 0 0 (- sampleInfinity) 1
  else if (r =? 32)%Z then mkItem GlueType 10 5 3 0 1
  else if (r =? 173)%Z then mkItem PenaltyType 10 0 0 50 1
  else mkItem BoxType 10 0 0 0 1.

Definition sampleGlyphsToItems (gs : list Glyph) (indent : float) (align : Align)
    : list Item :=
  match gs with
  | [] => []
  | _ => [mkItem BoxType indent 0 0 0 0] ++ map sampleItem gs
         ++ [mkItem GlueType 0 infinity 0 0 0;
             mkItem PenaltyType 0 0 0 (- sampleInfinity) 0]
  end.

Fixpoint sampleBreaks (items : list Item) (i : Z) (w : float) : list Breakpoint :=
  match items with
  | [] => []
  | it :: items' =>
    if bool_decide (Item_Type it = PenaltyType) then
      (if Item_Penalty it <=? - sampleInfinity
       then mkBreakpoint i 0 w :: sampleBreaks items' (i + 1) 0
       else sampleBreaks items' (i + 1) w)
    else sampleBreaks items' (i + 1) (w + Item_Width it)
  end.

Definition sampleEnv : Env :=
  mkEnv (fun r => if (r =? 32)%Z then ScriptCommon else OtherScript 1)
        (fun runes => map (fun _ => 0%Z) runes)
        sampleShape
        sampleGlyphsToItems
        (fun items width looseness => (sampleBreaks items 0 0, true))
        sampleInfinity
        (fun _ => 12)
        (fun _ => 12)
        (fun f => if (f =? 1)%nat then RightToLeft else LeftToRight)
        (fun _ => 1)
        (fun f => f)
        (fun f => Some f)
        (fun _ => 1000%Z)
        (fun _ => (-200)%Z)
        (fun _ => 500%Z)
        (fun _ _ => (13, 10, 3, 5))
        (fun _ gs => float64OfInt (10 * len gs))
        (fun _ => mkMetrics 10 3 2)
        (fun _ r => r)
        (fun _ _ => 10%Z)
        (fun _ _ => 10%Z).

Definition sampleCanvasSize (a : nat) : float * float := (20, 10).

(** ** The breakpoints of a zero width, as the specification words them

    One breakpoint per forced-break penalty, carrying the accumulated width
    of the non-penalty items since the previous break. *)

Section ForcedBreaksSpec.
Variable E : Env.

(** A penalty whose cost is at or below minus infinity. *)
Definition forcedPenalty (it : Item) : bool :=
  isType PenaltyType it && (Item_Penalty it <=? - Infinity E).

(** The positions of the forced penalties of [items], the first item being
    at position [i]. *)
Fixpoint forcedPositions (items : list Item) (i : Z) : list Z :=
  match items with
  | [] => []
  | it :: items' =>
    if forcedPenalty it then i :: forcedPositions items' (i + 1)
    else forcedPositions items' (i + 1)
  end.

(** The items after the last forced penalty of [pre]. *)
Definition sinceBreak (pre : list Item) : list Item :=
  fold_left (fun acc it => if forcedPenalty it then [] else acc ++ [it]) pre [].

(** The widths of the items that are no penalties, added up from 0. *)
Definition accumulatedWidth (its : list Item) : float :=
  fold_left (fun w it => w + Item_Width it)
    (filter (fun it => Item_Type it <> PenaltyType) its) 0.

Definition forcedBreaksSpec (items : list Item) : list Breakpoint :=
  map (fun p => mkBreakpoint p 0
                  (accumulatedWidth (sinceBreak (take (Z.to_nat p) items))))
    (forcedPositions items 0).

(** The collaborators with another paragraph breaker. *)
Definition withLinebreak (lb : list Item -> float -> Z -> list Breakpoint * bool) : Env :=
  mkEnv (LookupScript E) (EmbeddingLevels E) (Shape E) (GlyphsToItems E) lb
    (Infinity E) (face_PPEM E) (face_Size E) (face_Direction E) (face_mmPerEm E)
    (face_Font E) (face_SFNT E) (face_UnitsPerEm E) (face_Descender E)
    (face_SxHeight E) (face_heights E) (face_textWidth E) (face_Metrics E)
    (face_GlyphIndex E) (face_GlyphAdvance E) (sfnt_GlyphAdvance E).
End ForcedBreaksSpec.

(** ** The total size of a list of items *)

(** The sum of the [Size] fields: the number of glyphs the items stand for. *)
Definition sumSizes (items : list Item) : Z := foldr Z.add 0%Z (map Item_Size items).

(** The sizes are glyph counts: none is negative, and their total fits an
    [int]. *)
Definition sizesOk (items : list Item) : Prop :=
  Forall (fun it => 0 <= Item_Size it)%Z items /\ (sumSizes items < 2 ^ 63)%Z.

(** ** Texts of items, valid levels, and the invariant of the itemizer loop *)

Definition itemTexts (items : list ScriptItem) : gostring :=
  concat (map ScriptItem_Text items).

(** The levels are those of a bidi run: as many as runes, none negative. *)
Definition levelsOk (runes : list rune) (embeddingLevels : list Z) : Prop :=
  length embeddingLevels = length runes /\ Forall (fun l => (0 <= l)%Z) embeddingLevels.

(** What the itemizer loop keeps true before rune [j]. *)
Definition itemizerInv (runes : list rune) (j : Z)
    (st : Z * list ScriptItem * list Script) : Prop :=
  let '(i, items, scripts) := st in
  (0 <= i <= j)%Z /\ (1 <= len scripts)%Z
  /\ itemTexts items = stringOfRunes (take (Z.to_nat i) runes).

(** ** Sample rich texts, items and layout states *)

(** The rich text [NewRichText(face 0)] after [WriteString("é")]; the string
    is the two bytes C3 A9, one rune. *)
Definition richE : RichText :=
  mkRichText [195; 169]%Z [0%Z] [Some 0%nat] HorizontalTB Natural (Some 0%nat) [].

(** The items of "ab c", a line break, "d" with no indent, and the breaks at
    the two forced penalties. *)
Definition itemsAbcd : list Item :=
  [mkItem BoxType 0 0 0 0 0; mkItem BoxType 10 0 0 0 1; mkItem BoxType 10 0 0 0 1;
   mkItem GlueType 10 5 3 0 1; mkItem BoxType 10 0 0 0 1;
   mkItem PenaltyType 0 0 0 (-1000) 1; mkItem BoxType 10 0 0 0 1;
   mkItem GlueType 0 infinity 0 0 0; mkItem PenaltyType 0 0 0 (-1000) 0].

Definition breaksAbcd : list Breakpoint :=
  [mkBreakpoint 5 0 40; mkBreakpoint 8 0 10].


Definition glyphA : Glyph :=
  mkGlyph (Some 0%nat) 12 (OtherScript 1) false 97 0 10 0 0 0 97%Z.

Definition asmA : Asm :=
  mkAsm [mkLine 0 [mkTextSpan 0 10 (Some 0%nat) [97%Z] [] [glyphA] 0 LeftToRight 0]]
    {[0%nat]} [97%Z]
    [glyphA; mkGlyph None 0 ScriptInvalid false 0 1 0 0 0 0 0%Z] 1 0 10 0.

(** The rich text of "ab c", a line break, "d" with an embedded object after
    it, in two faces. *)
Definition richAbcd : RichText :=
  mkRichText [97; 98; 32; 99; 10; 100; 0]%Z [0; 3; 6; 7]%Z
    [Some 0%nat; Some 2%nat; None; Some 2%nat] HorizontalTB Natural (Some 0%nat)
    [mkTextSpanObject (Some 7%nat) 0 0 20 10 Baseline].


Definition richMixed : RichText :=
  mkRichText [97; 98; 99; 100; 101]%Z [0; 2]%Z [Some 0%nat; Some 1%nat]
    HorizontalTB Natural (Some 0%nat) [].




(** ** The invariant of the loop over a box, for one run

    The run [k] of direction [d] holds the glyphs [s] to [e] of the glyph
    array; [shaped] are its glyphs as they stood after shaping; the box
    starts at glyph [i] and the spans go to line [j]. *)


Section RunInvariant.
Variable gix : indexer.
Variable j : Z.
Variable i : Z.
Variable k : Z.
Variables s e : Z.
Variable d : Direction.
Variable shaped : list Glyph.




End RunInvariant.

(** ** The frame of the steps between breakpoints *)

(** What the steps that are not at a breakpoint leave alone: the number of
    lines, the line index, the baseline and the text. *)
Definition sameFrame (st st' : Asm) : Prop :=
  length (a_lines st') = length (a_lines st) /\ a_j st' = a_j st
  /\ a_y st' = a_y st /\ a_text st' = a_text st.

(** ** Further functions of the two packages, and what their loops keep *)

(** [Glyph.Rotation] *)
Definition Glyph_Rotation (g : Glyph) : Rotation :=
  if negb (Glyph_Vertical g) then
    let rot := ScriptRotation (Glyph_Script g) in
    if rot =? NoRotation then CW else rot
  else NoRotation.

Local Open Scope Z_scope.

(** [utf8.ValidRune] *)
Definition ValidRune (r : rune) : bool :=
  ((0 <=? r) && (r <? 55296)) || ((57343 <? r) && (r <=? MaxRune)).

(** The string is valid UTF-8: it is the encoding of its runes, all of them
    valid. *)
Definition validUTF8 (s : gostring) : bool :=
  bool_decide (stringOfRunes (runesOfString s) = s)
  && forallb ValidRune (runesOfString s).

Fixpoint nondecreasing (l : list Z) : bool :=
  match l with
  | [] => true
  | a :: l' =>
    match l' with
    | [] => true
    | b :: _ => (a <=? b) && nondecreasing l'
    end
  end.

(** What the face runs of a rich text built from valid strings satisfy: as
    many faces as offsets, the first offset is 0, the offsets do not
    decrease, and none is beyond the number of runes of the buffer. *)
Definition faceRunsSorted (rt : RichText) : Prop :=
  length (locs rt) = length (faces rt)
  /\ head (locs rt) = Some 0
  /\ nondecreasing (locs rt) = true
  /\ Forall (fun l => l <= len (runesOfString (Builder rt))) (locs rt)
  /\ validUTF8 (Builder rt) = true.

(** The operations that write valid UTF-8 and set no face on a span. *)
Definition plainOp (op : Op) : bool :=
  match op with
  | OpWriteString s => validUTF8 s
  | OpSetFaceSpan _ _ _ => false
  | _ => true
  end.

Definition asciiString (s : gostring) : bool :=
  forallb (fun b => (0 <=? b) && (b <? 128)) s.

Definition asciiOp (op : Op) : bool :=
  match op with
  | OpWriteString s => asciiString s
  | OpSetFaceSpan _ _ _ => false
  | _ => true
  end.

Definition faceRunsStrict (rt : RichText) : Prop :=
  faceRunsOk rt
  /\ Forall (fun l => l <= Len rt) (locs rt)
  /\ asciiString (Builder rt) = true.

(** What the itemization by face keeps true of the runs that cover the
    first [i] runes. *)
Definition runsInv (rt : RichText) (logRunes : list rune) (i : Z)
    (runs : list gostring * list Script * list FontFacePtr) : Prop :=
  let '(texts, scripts, fs) := runs in
  concat texts = stringOfRunes (take (Z.to_nat i) logRunes)
  /\ length scripts = length texts /\ length fs = length texts
  /\ Forall (fun f => f ∈ faces rt) fs.

(** What the shaping loop keeps true after the runs [done]. *)
Definition shapedInv (done : list gostring) (st : Shaped) : Prop :=
  length (glyphIndices st) = length done
  /\ length (directions st) = length done
  /\ length (rotations st) = length done
  /\ clusterOffset st = uint32 (len (concat done))
  /\ nondecreasing (glyphIndices st) = true
  /\ Forall (fun g => 0 <= g <= len (glyphs st)) (glyphIndices st)
  /\ (done = [] -> glyphs st = [])
  /\ (done <> [] -> head (glyphIndices st) = Some 0).

(** What the itemizer loop keeps true of the items before rune [j]: the
    run in progress is not empty past the first rune, no item is empty,
    and there are no more items than runes consumed. *)
Definition itemizerRuns (j : Z) (st : Z * list ScriptItem * list Script) : Prop :=
  let '(i, items, scripts) := st in
  (0 <= i <= j) /\ (i < j \/ j = 0)
  /\ Forall (fun it => ScriptItem_Text it <> []) items
  /\ len items <= i.

Local Open Scope float_scope.

(** [Text.Size] *)
Definition Text_Size (t : Text) : float * float := (Text_width t, Text_height t).

(** [Text.String] *)
Definition Text_String (t : Text) : gostring := Text_text t.

(** [Text.Empty] *)
Definition Text_Empty (t : Text) : bool :=
  forallb (fun l => (len (line_spans l) =? 0)%Z) (Text_lines t).

(** [f] on every element, in order, up to the first panic. *)
Fixpoint forEach {A B : Type} (f : A -> result B) (l : list A) : result (list B) :=
  match l with
  | [] => Ok []
  | a :: l' => let* b := f a in let* bs := forEach f l' in Ok (b :: bs)
  end.

Section Walk.
Variable E : Env.
(** [face.XOffset] and [face.YOffset], in font units. *)
Variables face_XOffset face_YOffset : nat -> Z.

(** The arguments [Text.WalkSpans] calls the callback with for one span of
    a line at [y]. *)
Definition walkSpan (m : WritingMode) (y : float) (span : TextSpan)
    : result (float * float * TextSpan) :=
  match Span_Face span with
  | None => Panic
  | Some f =>
    let xOffset := face_mmPerEm E f * float64OfInt (face_XOffset f) in
    let yOffset := face_mmPerEm E f * float64OfInt (face_YOffset f) in
    if bool_decide (m = HorizontalTB)
    then Ok (Span_X span + xOffset, - y + yOffset, span)
    else Ok (y + xOffset, - Span_X span + yOffset, span)
  end.

(** [Text.WalkSpans]: the calls of the callback, in order. *)
Definition WalkSpans (t : Text) : result (list (float * float * TextSpan)) :=
  let* calls :=
    forEach (fun l => forEach (walkSpan (Text_WritingMode t) (line_y l)) (line_spans l))
      (Text_lines t) in
  Ok (concat calls).
End Walk.

(** Every span of the lines has a face. *)
Definition linesOk (ls : list line) : Prop :=
  Forall (fun l => Forall (fun sp => Span_Face sp <> None) (line_spans l)) ls.

(** Every font is the font of a face of the runs. *)
Definition fontsOk (E : Env) (fs : list FontFacePtr) (fonts : gset nat) : Prop :=
  forall x : nat, x ∈ fonts -> exists f : nat, Some f ∈ fs /\ x = face_Font E f.

(** [Text.Heights] *)
Definition Text_Heights (E : Env) (t : Text) : result (float * float) :=
  if (len (Text_lines t) =? 0)%Z then Ok (0, 0)
  else
    let* firstLine := idx (Text_lines t) 0 in
    let* lastLine := idx (Text_lines t) (len (Text_lines t) - 1) in
    let* (_, ascent, _, _) := line_Heights E firstLine (Text_WritingMode t) in
    let* (_, _, descent, _) := line_Heights E lastLine (Text_WritingMode t) in
    Ok (- line_y firstLine + ascent, line_y lastLine + descent).

(** The text after a step: as it was, or, when the box has a height, cut
    to a prefix of the logical text. *)
Definition textKept (log : gostring) (height : float) (st st' : Asm) : Prop :=
  a_text st' = a_text st
  \/ (fneq height 0 = true /\ exists n : nat, a_text st' = take n log).

(** [IsParagraphSeparator] of package text: line feed, vertical tab, form
    feed, carriage return, next line, line separator, paragraph separator. *)
Definition IsParagraphSeparator (r : rune) : bool :=
  ((10 <=? r) && (r <=? 13) || (r =? 133) || (r =? 8232) || (r =? 8233))%Z.

(** [utf8.RuneLen] *)
Definition RuneLen (r : rune) : Z :=
  (if r <? 0 then -1
   else if r <=? 127 then 1
   else if r <=? 2047 then 2
   else if (55296 <=? r) && (r <=? 57343) then -1
   else if r <=? 65535 then 3
   else if r <=? MaxRune then 4
   else -1)%Z.

Section TextLine.
Variable E : Env.
(** [face.Script] *)
Variable face_Script : nat -> Script.

Definition itemizeString (log : gostring) : result (list ScriptItem) :=
  let logRunes := runesOfString log in
  let embeddingLevels := EmbeddingLevels E logRunes in
  ScriptItemizer (LookupScript E) logRunes embeddingLevels.

(** [for _, item := range itemizeString(s[i:j])]: the spans of a line and
    its width. *)
Fixpoint lineSpans (f : nat) (ppem : float) (items : list ScriptItem)
    (lineWidth : float) (spans : list TextSpan) : list TextSpan * float :=
  match items with
  | [] => (spans, lineWidth)
  | item :: items' =>
    let '(glyphs, direction) :=
      Shape E f (ScriptItem_Text item) ppem (face_Direction E f) (face_Script f) in
    let width := face_textWidth E f glyphs in
    lineSpans f ppem items' (lineWidth + width)
      (spans ++ [mkTextSpan lineWidth width (Some f) (ScriptItem_Text item) []
                   glyphs 0 direction NoRotation])
  end.

(** The state of the loop of [NewTextLine]. *)
Record LineSt : Type := mkLineSt {
  l_i : Z;
  l_y : float;
  l_skipNext : bool;
  l_lines : list line
}.

(** The line of [s[i:j]] at [y]. *)
Definition textLine (f : nat) (s : gostring) (halign : TextAlign) (i j : Z)
    (y : float) : result line :=
  let ppem := face_PPEM E f in
  let* sub := slice s i j in
  let* items := itemizeString sub in
  let '(spans, lineWidth) := lineSpans f ppem items 0 [] in
  let spans :=
    if bool_decide (halign = Center) || bool_decide (halign = Middle)
    then map (fun sp => setSpanX sp (- lineWidth / 2)) spans
    else if bool_decide (halign = Right)
    then map (fun sp => setSpanX sp (- lineWidth)) spans
    else spans in
  Ok (mkLine y spans).

(** One iteration of [for j, r := range s + "\n"]. *)
Definition textLineStep (f : nat) (s : gostring) (halign : TextAlign)
    (jr : Z * rune) (st : LineSt) : result LineSt :=
  let '(j, r) := jr in
  if IsParagraphSeparator r then
    if l_skipNext st then Ok (mkLineSt (l_i st + 1) (l_y st) false (l_lines st))
    else
      let* lines :=
        (if (l_i st <? j)%Z then
           (let* l := textLine f s halign (l_i st) j (l_y st) in
            Ok (l_lines st ++ [l]))
         else Ok (l_lines st)) in
      let m := face_Metrics E f in
      let y := l_y st + (Metrics_Ascent m + Metrics_Descent m + Metrics_LineGap m) in
      let i := (j + RuneLen r)%Z in
      let* skipNext :=
        (if (r =? 13)%Z && (j + 1 <? len s)%Z
         then (let* b := idx s (j + 1) in Ok (b =? 10)%Z)
         else Ok false) in
      Ok (mkLineSt i y skipNext lines)
  else Ok st.

Fixpoint textLineLoop (f : nat) (s : gostring) (halign : TextAlign)
    (rs : list (Z * rune)) (st : LineSt) : result LineSt :=
  match rs with
  | [] => Ok st
  | jr :: rs' =>
    let* st := textLineStep f s halign jr st in
    textLineLoop f s halign rs' st
  end.

Definition NewTextLine (face : FontFacePtr) (s : gostring) (halign : TextAlign)
    : result Text :=
  match face with
  | None => Panic
  | Some f =>
    let* st := textLineLoop f s halign (rangeString (s ++ [10%Z]))
                 (mkLineSt 0 0 false []) in
    Ok (mkText (l_lines st) {[face_Font E f]} HorizontalTB Natural 0 0 s false)
  end.
End TextLine.

(** [NewTextBox] *)
Definition NewTextBox (E : Env) (face : FontFacePtr) (s : gostring)
    (width height : float) (halign valign : TextAlign) (indent lineStretch : float)
    : result Text :=
  let* rt := NewRichText face in
  let rt := WriteString s rt in
  let* (t, _) := ToText E width height halign valign indent lineStretch rt in
  Ok t.

(** A span of [NewTextLine]: the face is the one given, the text is not
    empty, and there are no objects. *)
Definition lineSpanOk (f : nat) (sp : TextSpan) : Prop :=
  Span_Face sp = Some f /\ Span_Text sp <> [] /\ Span_Objects sp = [].

(** The spans follow one another from [x]: each starts where the one
    before it ends. *)
Fixpoint spansChained (x : float) (spans : list TextSpan) : Prop :=
  match spans with
  | [] => True
  | sp :: spans' => Span_X sp = x /\ spansChained (x + Span_Width sp) spans'
  end.

(** The widths of the spans, added up from [x] in their order. *)
Definition spansWidth (x : float) (spans : list TextSpan) : float :=
  fold_left (fun w sp => w + Span_Width sp) spans x.

(** Where [NewTextLine] puts the spans of a line. *)
Definition lineAligned (halign : TextAlign) (l : line) : Prop :=
  let spans := line_spans l in
  if bool_decide (halign = Center) || bool_decide (halign = Middle)
  then Forall (fun sp => Span_X sp = - spansWidth 0 spans / 2) spans
  else if bool_decide (halign = Right)
  then Forall (fun sp => Span_X sp = - spansWidth 0 spans) spans
  else spansChained 0 spans.

(** ** The assembly loop with its exit, and the layout in two parts *)








(** ** ToText with the receiver as a store

    [ToText] once more, this time as the method it is: a computation on the
    state of the rich text behind the pointer [rt].  Every [rt.x] of the
    source is an access to that state at the place where the source has it,
    [get] for a read; the state that is left is returned with the result. *)

Module Receiver.

(** A computation on the receiver: from the state of the rich text to a
    result and the state that is left, or a panic. *)
Definition M (A : Type) : Type := RichText -> result (A * RichText).

Definition ret {A : Type} (a : A) : M A := fun rt => Ok (a, rt).

Definition bind {A B : Type} (m : M A) (k : A -> M B) : M B :=
  fun rt =>
    match m rt with
    | Ok (a, rt') => k a rt'
    | Panic => Panic
    end.

(** A step that does not touch the receiver. *)
Definition lift {A : Type} (r : result A) : M A :=
  fun rt =>
    match r with
    | Ok a => Ok (a, rt)
    | Panic => Panic
    end.

(** [rt.field], read. *)
Definition get {A : Type} (field : RichText -> A) : M A :=
  fun rt => Ok (field rt, rt).

(** [rt.field = v], a write: the state that is left is [upd rt]. *)
Definition store (upd : RichText -> RichText) : M unit :=
  fun rt => Ok (tt, upd rt).

(** [func (rt *RichText) SetWritingMode(mode WritingMode) { rt.mode = mode }],
    a method that writes. *)
Definition SetWritingMode (m : WritingMode) : M unit := store (SetWritingMode m).

Notation "'let!' p ':=' m 'in' k" := (bind m (fun p => k))
  (at level 10, p pattern, m at level 100, k at level 200, only parsing).

Section ToText.
Variable E : Env.

(** [rt.faces[i]] *)
Definition faceAt (i : Z) : M FontFacePtr :=
  let! fcs := get faces in lift (idx fcs i).

(** [obj := rt.objects[i]], a copy of the object. *)
Definition objectAt (i : Z) : M TextSpanObject :=
  let! objs := get objects in lift (idx objs i).

(** [for _, item := range items], appending [rt.faces[curFace]] for every
    item. *)
Fixpoint appendItems (curFace : Z) (items : list ScriptItem) (runs : Runs) : M Runs :=
  match items with
  | [] => ret runs
  | item :: items' =>
    let '(texts, scripts, fs) := runs in
    let! face := faceAt curFace in
    appendItems curFace items'
      (texts ++ [ScriptItem_Text item], scripts ++ [ScriptItem_Script item],
       fs ++ [face])
  end.

Definition appendRuns (logRunes : list rune) (embeddingLevels : list Z)
    (curFace i j : Z) (runs : Runs) : M Runs :=
  let '(texts, scripts, fs) := runs in
  let! face := faceAt curFace in
  match face with
  | None =>
    let! rs := lift (slice logRunes i j) in
    ret (texts ++ [stringOfRunes rs], scripts ++ [ScriptInvalid], fs ++ [None])
  | Some _ =>
    let! rs := lift (slice logRunes i j) in
    let! ls := lift (slice embeddingLevels i j) in
    let! items := lift (ScriptItemizer (LookupScript E) rs ls) in
    appendItems curFace items runs
  end.

Fixpoint faceLoop (logRunes : list rune) (embeddingLevels : list Z)
    (n : nat) (j : Z) (i curFace : Z) (runs : Runs) : M (Z * Z * Runs) :=
  match n with
  | O => ret (i, curFace, runs)
  | S n' =>
    let! ix := get locs in
    let nextFace := index ix j in
    if negb (nextFace =? curFace)%Z then
      (let! runs := appendRuns logRunes embeddingLevels curFace i j runs in
       faceLoop logRunes embeddingLevels n' (j + 1) j nextFace runs)
    else faceLoop logRunes embeddingLevels n' (j + 1) i curFace runs
  end.

Definition itemizeFaces (logRunes : list rune) (embeddingLevels : list Z) : M Runs :=
  let! (i, curFace, runs) :=
    faceLoop logRunes embeddingLevels (length logRunes) 0 0 0 ([], [], []) in
  if (i <? len logRunes)%Z
  then appendRuns logRunes embeddingLevels curFace i (len logRunes) runs
  else ret runs.

Definition objectGlyph (script : Script) (clusterOffset : Z) (i : Z) (r : rune)
    : M Glyph :=
  let! obj := objectAt r in
  let! face := get defaultFace in
  match face with
  | None => lift Panic
  | Some df =>
    let ppem := float64OfInt (face_UnitsPerEm E df) in
    let xadv := Object_Width obj in
    let yadv := Object_Height obj in
    let! m := get mode in
    let yadv := if negb (bool_decide (m = HorizontalTB)) then - yadv else yadv in
    let! m' := get mode in
    ret (mkGlyph (face_SFNT E df) (face_Size E df) script
           (negb (bool_decide (m' = HorizontalTB)))
           (uint16 r) (uint32 (clusterOffset + uint32 i))
           (int32OfFloat (xadv * ppem / face_Size E df))
           (int32OfFloat (yadv * ppem / face_Size E df))
           0 0 0%Z)
  end.

Fixpoint objectGlyphs (script : Script) (clusterOffset : Z) (rs : list (Z * rune))
    : M (list Glyph) :=
  match rs with
  | [] => ret []
  | (i, r) :: rs' =>
    let! g := objectGlyph script clusterOffset i r in
    let! gs := objectGlyphs script clusterOffset rs' in
    ret (g :: gs)
  end.

Definition tagGlyph (f : nat) (script : Script) (direction : Direction)
    (rotation : Rotation) (clusterOffset : Z) (g : Glyph) : M Glyph :=
  let yoff := Glyph_YOffset g in
  let! m := get mode in
  let! yoff :=
    (if negb (bool_decide (m = HorizontalTB)) then
       if bool_decide (script = Mongolian)
       then ret (int32 (yoff + face_Descender E f))
       else if fneq rotation NoRotation
       then ret (int32 (yoff - Z.quot (face_SxHeight E f) 2))
       else
         (let! o := get orient in
          if bool_decide (o = Upright) && (rotation =? NoRotation)
             && negb (IsVerticalScript script)
          then ret (Z.quot (int32 (- int32 (face_UnitsPerEm E f + face_SxHeight E f))) 2)
          else ret yoff)
     else ret yoff) in
  ret (mkGlyph (face_SFNT E f) (face_Size E f) script
         (bool_decide (direction = TopToBottom) || bool_decide (direction = BottomToTop))
         (Glyph_ID g) (uint32 (Glyph_Cluster g + clusterOffset))
         (Glyph_XAdvance g) (Glyph_YAdvance g) (Glyph_XOffset g) yoff (Glyph_Text g)).

(** [for i := range glyphsString] *)
Fixpoint tagGlyphs (f : nat) (script : Script) (direction : Direction)
    (rotation : Rotation) (clusterOffset : Z) (gs : list Glyph) : M (list Glyph) :=
  match gs with
  | [] => ret []
  | g :: gs' =>
    let! g := tagGlyph f script direction rotation clusterOffset g in
    let! gs := tagGlyphs f script direction rotation clusterOffset gs' in
    ret (g :: gs)
  end.

Definition shapeRun (text : gostring) (face : FontFacePtr) (script : Script)
    (clusterOffset : Z) : M (list Glyph * Direction * Rotation) :=
  match face with
  | None =>
    let! gs := objectGlyphs script clusterOffset (rangeString text) in
    ret (gs, DirectionInvalid, NoRotation)
  | Some f =>
    let ppem := face_PPEM E f in
    let! m := get mode in
    let! o := get orient in
    let '(direction, rotation) := scriptDirection m o script (face_Direction E f) in
    let '(glyphsString, direction) := Shape E f text ppem direction script in
    let! gs := tagGlyphs f script direction rotation clusterOffset glyphsString in
    ret (gs, direction, rotation)
  end.

Definition shapeStep (text : gostring) (face : FontFacePtr) (script : Script)
    (st : Shaped) : M Shaped :=
  let! (glyphsString, direction, rotation) :=
    shapeRun text face script (clusterOffset st) in
  let glyphsString :=
    if isRTL direction
    then reverseRange 0 (length glyphsString) glyphsString
    else glyphsString in
  ret (mkShaped (uint32 (clusterOffset st + uint32 (len text)))
         (glyphIndices st ++ [len (glyphs st)])
         (glyphs st ++ glyphsString)
         (directions st ++ [direction])
         (rotations st ++ [rotation])).

Fixpoint shapeLoop (texts : list gostring) (scripts : list Script)
    (fs : list FontFacePtr) (st : Shaped) : M Shaped :=
  match texts, scripts, fs with
  | text :: texts', script :: scripts', face :: fs' =>
    let! st := shapeStep text face script st in
    shapeLoop texts' scripts' fs' st
  | [], _, _ => ret st
  | _, _, _ => lift Panic
  end.

Definition swapAxes (width height : float) (halign valign : TextAlign)
    : M (float * float * TextAlign * TextAlign) :=
  let! m := get mode in
  if negb (bool_decide (m = HorizontalTB)) then
    let '(width, height) := (height, width) in
    let '(halign, valign) := (valign, halign) in
    let halign := if bool_decide (halign = Top) then Left
                  else if bool_decide (halign = Bottom) then Right else halign in
    let valign := if bool_decide (valign = Left) then Top
                  else if bool_decide (valign = Right) then Bottom else valign in
    ret (width, height, halign, valign)
  else ret (width, height, halign, valign).

Section Assemble.
Variable log : gostring.
Variable fs : list FontFacePtr.
Variable gix : indexer.
Variable dirs : list Direction.
Variable rots : list Rotation.
Variable items : list Item.
Variable breaks : list Breakpoint.
Variables width height : float.
Variable halign : TextAlign.
Variable lineSpacing : float.

Definition breakHeights (st : Asm) : M (float * float * float) :=
  let j := a_j st in
  let! spans := lift (spansAt (a_lines st) j) in
  let! (_, ascent, descent, bottom) :=
    (if (len spans =? 0)%Z then
       (let! face := lift (idx fs (index gix (a_i st))) in
        let! m := get mode in
        lift (heightsOf E face m))
     else
       (let! l := lift (idx (a_lines st) j) in
        let! m := get mode in
        lift (line_Heights E l m))) in
  let ascent := if (0 <? j)%Z then ascent * lineSpacing else ascent in
  let bottom := bottom * lineSpacing in
  ret (ascent, descent, bottom).

Definition breakStep (position : Z) (item : Item) (st : Asm) : M (Asm * bool) :=
  let! st := lift (breakPrepare E item st) in
  let! (ascent, descent, bottom) := breakHeights st in
  let j := a_j st in
  let i := a_i st in
  if lineOverflows height st ascent descent then
    (let! ls := lift (slice (a_lines st) 0 (len (a_lines st) - 1)) in
     if (0 <? j)%Z then
       (let! g := lift (idx (a_glyphs st) i) in
        let! text := lift (slice log 0 (Glyph_Cluster g)) in
        ret (mkAsm ls (a_fonts st) text (a_glyphs st) i j (a_x st) (a_y st), false))
     else
       ret (mkAsm ls (a_fonts st) [] (a_glyphs st) i j (a_x st) 0, false))
  else
    (let! l := lift (idx (a_lines st) j) in
     let! ls := lift (setidx (a_lines st) j (mkLine (a_y st + ascent) (line_spans l))) in
     let y := a_y st + (ascent + bottom) in
     if (position =? len items - 1)%Z then
       ret (mkAsm ls (a_fonts st) (a_text st) (a_glyphs st) i j (a_x st) y, false)
     else
       (let ls := ls ++ [mkLine 0 []] in
        let j := if (j + 1 <? len breaks)%Z then (j + 1)%Z else j in
        let! x := lift (lineStart breaks width halign 0 j) in
        ret (mkAsm ls (a_fonts st) (a_text st) (a_glyphs st)
               (i + Item_Size item) j x y, true))).

(** [obj.X = x] and [obj.Y = y] on the local [obj]. *)
Definition setObjectX (obj : TextSpanObject) (x : float) : TextSpanObject :=
  mkTextSpanObject (Object_Canvas obj) x (Object_Y obj) (Object_Width obj)
    (Object_Height obj) (Object_VAlign obj).

Definition setObjectY (obj : TextSpanObject) (y : float) : TextSpanObject :=
  mkTextSpanObject (Object_Canvas obj) (Object_X obj) y (Object_Width obj)
    (Object_Height obj) (Object_VAlign obj).

(** [for _, glyph := range glyphs[a:b]]: the object is copied out of the
    table, [obj := rt.objects[glyph.ID]], and the position is written to
    the copy, which goes to the span. *)
Fixpoint spanObjects (gs : list Glyph) (w : float) (objs : list TextSpanObject)
    : M (float * list TextSpanObject) :=
  match gs with
  | [] => ret (w, objs)
  | glyph :: gs' =>
    let! obj := objectAt (Glyph_ID glyph) in
    let! m := get mode in
    if bool_decide (m = HorizontalTB) then
      (let obj := setObjectX obj w in
       spanObjects gs' (w + Object_Width obj) (objs ++ [obj]))
    else
      (let obj := setObjectX obj (- Object_Width obj / 2) in
       let obj := setObjectY obj (- w - Object_Height obj) in
       spanObjects gs' (w + Object_Height obj) (objs ++ [obj]))
  end.

Definition spanStep (j : Z) (x : float) (b nextK : Z) (st : BoxSt) : M BoxSt :=
  let a := b_a st in
  let k := b_k st in
  let dx := b_dx st in
  let! face := lift (idx fs k) in
  let! ga := lift (idx (b_glyphs st) a) in
  let! gb := lift (idx (b_glyphs st) b) in
  let ac := Glyph_Cluster ga in
  let bc := Glyph_Cluster gb in
  let! gsab := lift (slice (b_glyphs st) a b) in
  let! (face, w, objs, fonts) :=
    match face with
    | Some f =>
      ret (face, face_textWidth E f gsab, [], {[face_Font E f]} ∪ b_fonts st)
    | None =>
      let! spans := lift (spansAt (b_lines st) j) in
      let! face :=
        (if (0 <? len spans)%Z
         then (let! sp := lift (idx spans (len spans - 1)) in ret (Span_Face sp))
         else get defaultFace) in
      let! (w, objs) := spanObjects gsab 0 [] in
      ret (face, w, objs, b_fonts st)
    end in
  let! dk := lift (idx dirs k) in
  let gl := if isRTL dk then reverseRange (Z.to_nat a) (Z.to_nat b) (b_glyphs st)
            else b_glyphs st in
  let! s := lift (slice log ac bc) in
  let! rk := lift (idx rots k) in
  let! gsab := lift (slice gl a b) in
  let! spans := lift (spansAt (b_lines st) j) in
  let spans := spans ++ [mkTextSpan (x + dx) w face s objs gsab a dk rk] in
  let! spans := lift (if isRTL dk then reorderSpans spans (x + dx) w else Ok spans) in
  let! ls := lift (setSpansAt (b_lines st) j spans) in
  ret (mkBoxSt b nextK (dx + w) gl ls fonts).

Fixpoint boxLoop (n : nat) (j : Z) (x : float) (iend : Z) (b : Z) (st : BoxSt)
    : M BoxSt :=
  match n with
  | O => ret st
  | S n' =>
    let nextK := index gix b in
    let! st :=
      (if negb (nextK =? b_k st)%Z || (b =? iend)%Z
       then spanStep j x b nextK st else ret st) in
    boxLoop n' j x iend (b + 1) st
  end.

Definition boxStep (item : Item) (st : Asm) : M Asm :=
  let i := a_i st in
  let! bst :=
    boxLoop (Z.to_nat (Item_Size item)) (a_j st) (a_x st) (i + Item_Size item)
      (i + 1) (mkBoxSt i (index gix i) 0 (a_glyphs st) (a_lines st) (a_fonts st)) in
  ret (mkAsm (b_lines bst) (b_fonts bst) (a_text st) (b_glyphs bst)
         i (a_j st) (a_x st + Item_Width item) (a_y st)).

Fixpoint asmLoop (its : list Item) (position : Z) (st : Asm) : M Asm :=
  match its with
  | [] => ret st
  | item :: its' =>
    let! br := lift (idx breaks (a_j st)) in
    if (position =? Break_Position br)%Z then
      (let! (st, continue) := breakStep position item st in
       if continue then asmLoop its' (position + 1) st else ret st)
    else if isType BoxType item then
      (let! st := boxStep item st in
       asmLoop its' (position + 1) (setI st (a_i st + Item_Size item)))
    else if isType GlueType item then
      (let! st := lift (glueStep breaks item st) in
       asmLoop its' (position + 1) (setI st (a_i st + Item_Size item)))
    else asmLoop its' (position + 1) (setI st (a_i st + Item_Size item))
  end.
End Assemble.

Definition alignLines (ls : list line) (height y : float) (valign : TextAlign)
    : M (list line) :=
  let! m := get mode in
  let valign :=
    if bool_decide (m = VerticalRL) then
      (if bool_decide (valign = Top) then Bottom
       else if bool_decide (valign = Bottom) then Top else valign)
    else valign in
  let ls :=
    if bool_decide (valign = Center) || bool_decide (valign = Middle)
       || bool_decide (valign = Bottom) then
      let dy := height - y in
      let dy := if bool_decide (valign = Center) || bool_decide (valign = Middle)
                then dy / 2 else dy in
      map (shiftLine dy) ls
    else if bool_decide (valign = Justify) then
      justifyLines ls 0 ((height - y) / float64OfInt (len ls - 1))
    else ls in
  let! m' := get mode in
  if bool_decide (m' = VerticalRL)
  then ret (map (fun l => mkLine (height - line_y l) (line_spans l)) ls)
  else ret ls.

Definition buildLines (log : gostring) (fs : list FontFacePtr) (sh : Shaped)
    (items : list Item) (breaks : list Breakpoint) (width height : float)
    (halign valign : TextAlign) (lineStretch : float) (overflows : bool) : M Text :=
  let! m := get mode in
  let! o := get orient in
  let gl := glyphs sh ++ [mkGlyph None 0 ScriptInvalid false 0 (uint32 (len log))
                            0 0 0 0 0%Z] in
  let lineSpacing := 1 + lineStretch in
  let! x := lift (lineStart breaks width halign 0 0) in
  let! st :=
    asmLoop log fs (glyphIndices sh) (directions sh) (rotations sh) items breaks
      width height halign lineSpacing items 0
      (mkAsm [mkLine 0 []] ∅ log gl 0 0 x 0) in
  let! y :=
    (if (0 <? a_j st)%Z then
       (let! l := lift (idx (a_lines st) (a_j st - 1)) in
        let! m1 := get mode in
        let! (_, _, descent, bottom) := lift (line_Heights E l m1) in
        ret (a_y st + (- bottom * lineSpacing + descent)))
     else ret (a_y st)) in
  let! ls := alignLines (a_lines st) height y valign in
  ret (mkText ls (a_fonts st) m o width height (a_text st) overflows).

(** [func (rt *RichText) ToText(...)]: the text, and the state the receiver
    is left in. *)
Definition ToText (width height : float) (halign valign : TextAlign)
    (indent lineStretch : float) : M Text :=
  let! log := get Builder in
  let logRunes := runesOfString log in
  let embeddingLevels := EmbeddingLevels E logRunes in
  let! (texts, scripts, fs) := itemizeFaces logRunes embeddingLevels in
  let! sh := shapeLoop texts scripts fs (mkShaped 0 [] [] [] []) in
  let! (width, height, halign, valign) := swapAxes width height halign valign in
  let align := if bool_decide (halign = Justify) then AlignJustified else AlignLeft in
  let items := GlyphsToItems E (glyphs sh) indent align in
  let '(breaks, overflows) := breakLines E items width in
  let! (items, breaks) := lift (coalesce items breaks) in
  buildLines log fs sh items breaks width height halign valign lineStretch overflows.
End ToText.
End Receiver.

(** * Properties *)

(** ** Slices and results *)

Lemma idx_Ok {A : Type} (l : list A) (i : Z) :
  (0 <= i < len l)%Z -> exists a, idx l i = Ok a /\ l !! Z.to_nat i = Some a.
Proof.
  intros Hi. unfold idx, len in *.
  destruct (Z.ltb_spec i 0); [lia|].
  destruct (l !! Z.to_nat i) as [a|] eqn:Hl; [eauto|].
  apply lookup_ge_None in Hl. lia.
Qed.

Lemma idx_inv {A : Type} (l : list A) (i : Z) (a : A) :
  idx l i = Ok a -> (0 <= i < len l)%Z /\ l !! Z.to_nat i = Some a.
Proof.
  unfold idx, len. destruct (Z.ltb_spec i 0); [discriminate|].
  destruct (l !! Z.to_nat i) as [a'|] eqn:Hl; [|discriminate].
  intros [= ->]. split; [|done]. apply lookup_lt_Some in Hl. lia.
Qed.

Lemma setidx_Ok {A : Type} (l : list A) (i : Z) (x : A) :
  (0 <= i < len l)%Z -> setidx l i x = Ok (<[Z.to_nat i := x]> l).
Proof.
  intros Hi. unfold setidx.
  destruct (Z.leb_spec 0 i); [|lia]. destruct (Z.ltb_spec i (len l)); [|lia]. done.
Qed.

Lemma setidx_inv {A : Type} (l l' : list A) (i : Z) (x : A) :
  setidx l i x = Ok l' -> (0 <= i < len l)%Z /\ l' = <[Z.to_nat i := x]> l.
Proof.
  unfold setidx.
  destruct (Z.leb_spec 0 i); [|discriminate].
  destruct (Z.ltb_spec i (len l)); [|discriminate].
  simpl. intros [= <-]. done.
Qed.

Lemma slice_Ok {A : Type} (l : list A) (lo hi : Z) :
  (0 <= lo <= hi)%Z -> (hi <= len l)%Z ->
  slice l lo hi = Ok (take (Z.to_nat (hi - lo)) (drop (Z.to_nat lo) l)).
Proof.
  intros [H1 H2] H3. unfold slice.
  destruct (Z.leb_spec 0 lo); [|lia]. destruct (Z.leb_spec lo hi); [|lia].
  destruct (Z.leb_spec hi (len l)); [|lia]. done.
Qed.

Lemma slice_inv {A : Type} (l l' : list A) (lo hi : Z) :
  slice l lo hi = Ok l' ->
  (0 <= lo <= hi)%Z /\ (hi <= len l)%Z
  /\ l' = take (Z.to_nat (hi - lo)) (drop (Z.to_nat lo) l).
Proof.
  unfold slice.
  destruct (Z.leb_spec 0 lo); [|discriminate].
  destruct (Z.leb_spec lo hi); [|discriminate].
  destruct (Z.leb_spec hi (len l)); [|discriminate].
  simpl. intros [= <-]. repeat split; lia.
Qed.

Lemma rbind_Ok {A B : Type} (m : result A) (k : A -> result B) (b : B) :
  rbind m k = Ok b -> exists a, m = Ok a /\ k a = Ok b.
Proof. destruct m; simpl; [eauto|discriminate]. Qed.

Lemma len_app {A : Type} (l1 l2 : list A) : len (l1 ++ l2) = (len l1 + len l2)%Z.
Proof. unfold len. rewrite length_app. lia. Qed.

Lemma len_nonneg {A : Type} (l : list A) : (0 <= len l)%Z.
Proof. unfold len. lia. Qed.

(** ** The script itemizer *)

Lemma stringOfRunes_app (r1 r2 : list rune) :
  stringOfRunes (r1 ++ r2) = stringOfRunes r1 ++ stringOfRunes r2.
Proof. unfold stringOfRunes. by rewrite map_app, concat_app. Qed.

Lemma itemTexts_snoc (items : list ScriptItem) (it : ScriptItem) :
  itemTexts (items ++ [it]) = itemTexts items ++ ScriptItem_Text it.
Proof.
  unfold itemTexts. rewrite map_app, concat_app. simpl. by rewrite app_nil_r.
Qed.

Section ItemizerProofs.
Variable LookupScript : rune -> Script.

Lemma itemizerStep_inv (runes : list rune) (levels : list Z) (j : Z) (r : rune)
    (st : Z * list ScriptItem * list Script) :
  levelsOk runes levels -> (0 <= j < len runes)%Z ->
  itemizerInv runes j st ->
  exists st', itemizerStep LookupScript runes levels j r st = Ok st'
              /\ itemizerInv runes (j + 1) st'.
Proof.
  intros [Hlen Hpos] Hj Hinv. destruct st as [[i items] scripts].
  destruct Hinv as (Hi & Hs & Ht). unfold itemizerStep.
  destruct (idx_Ok scripts (len scripts - 1)) as (cur & -> & _); [lia|]. simpl.
  destruct (idx_Ok levels j) as (level & -> & Hlv); [unfold len in *; lia|]. simpl.
  assert (0 <= level)%Z as Hlevel.
  { rewrite Forall_forall in Hpos. apply Hpos.
    by eapply list_elem_of_lookup_2. }
  (* the script stack after the level change *)
  set (upd := if (len scripts <=? level)%Z then _ else _).
  assert (exists script' scripts', upd = Ok (script', scripts')
                                   /\ (1 <= len scripts')%Z) as (s' & sc' & -> & Hsc').
  { subst upd. destruct (Z.leb_spec (len scripts) level).
    - eexists _, _. split; [done|]. rewrite !len_app. unfold len. simpl. lia.
    - destruct (concreteScript (LookupScript r)).
      + rewrite setidx_Ok by lia. simpl.
        rewrite slice_Ok; [|lia|unfold len; rewrite length_insert; unfold len in *; lia].
        simpl. eexists _, _. split; [done|].
        unfold len. rewrite length_take, length_drop, length_insert.
        unfold len in *. lia.
      + destruct (idx_Ok scripts level) as (s1 & -> & _); [lia|]. simpl.
        rewrite slice_Ok by lia. simpl. eexists _, _. split; [done|].
        unfold len. rewrite length_take, length_drop. unfold len in *. lia. }
  simpl.
  destruct (negb (j =? 0)%Z && _).
  - rewrite slice_Ok by lia. simpl. eexists. split; [done|].
    repeat split; try lia.
    rewrite itemTexts_snoc, Ht. simpl. rewrite <- stringOfRunes_app.
    rewrite take_take_drop. f_equal. f_equal. lia.
  - eexists. split; [done|]. repeat split; try lia. done.
Qed.

Lemma itemizerLoop_inv (runes : list rune) (levels : list Z) (rest : list rune) :
  levelsOk runes levels ->
  forall (j : Z) (st : Z * list ScriptItem * list Script),
    (0 <= j)%Z -> (j + len rest = len runes)%Z ->
    itemizerInv runes j st ->
    exists st', itemizerLoop LookupScript runes levels rest j st = Ok st'
                /\ itemizerInv runes (len runes) st'.
Proof.
  intros Hok. induction rest as [|r rest IH]; intros j st Hj Hlen Hinv; simpl.
  - exists st. split; [done|]. unfold len in Hlen at 1. simpl in Hlen.
    replace (len runes) with j by lia. done.
  - unfold len in Hlen at 1. simpl in Hlen.
    destruct (itemizerStep_inv runes levels j r st Hok) as (st' & -> & Hinv');
      [unfold len in *; lia|done|].
    simpl. apply IH; [lia|unfold len in *; lia|done].
Qed.

Lemma ScriptItemizer_texts (runes : list rune) (levels : list Z) :
  levelsOk runes levels ->
  exists items, ScriptItemizer LookupScript runes levels = Ok items
                /\ itemTexts items = stringOfRunes runes.
Proof.
  intros Hok. unfold ScriptItemizer. destruct (Z.eqb_spec (len runes) 0) as [H0|H0].
  - exists []. split; [done|]. destruct runes; [done|]. unfold len in H0. simpl in H0. lia.
  - destruct (itemizerLoop_inv runes levels runes Hok 0 (0, [], [ScriptInherited])%Z)
      as ([[i items] scripts] & -> & Hi & Hs & Ht); [lia|lia| |].
    { repeat split; try lia. unfold len. simpl. lia. }
    simpl. destruct (idx_Ok scripts (len scripts - 1)) as (last & -> & _); [lia|].
    simpl. rewrite slice_Ok by lia. simpl. eexists. split; [done|].
    rewrite itemTexts_snoc, Ht. simpl. rewrite <- stringOfRunes_app.
    rewrite (take_ge (drop _ _)); [by rewrite take_drop|].
    rewrite length_drop. unfold len. lia.
Qed.
End ItemizerProofs.

(** ** Rich text *)



Lemma encodeRune_len (r : rune) : (1 <= len (encodeRune r))%Z.
Proof.
  unfold encodeRune, len. cbv zeta.
  repeat match goal with |- context [if ?c then _ else _] => destruct c end;
    cbn [length]; lia.
Qed.

Lemma encodeRune_nonzero (n : Z) :
  (0 < n < 2 ^ 31)%Z -> encodeRune (int32 n) <> encodeRune 0%Z.
Proof.
  intros Hn. assert (int32 n = n) as ->.
  { unfold int32. rewrite Z.mod_small; lia. }
  change (encodeRune 0%Z) with [0%Z].
  unfold encodeRune. assert (uint32 n = n) as ->.
  { unfold uint32. rewrite Z.mod_small; lia. }
  cbv zeta.
  repeat match goal with |- context [if ?c then _ else _] => destruct c end;
    try discriminate.
  intros [= ->]. lia.
Qed.

Lemma nonempty_len {A : Type} (l : list A) : l <> [] -> (1 <= len l)%Z.
Proof. unfold len. destruct l; simpl; [done|lia]. Qed.

Lemma setFace_Ok (face : FontFacePtr) (rt : RichText) :
  locs rt <> [] -> faces rt <> [] ->
  exists rt', setFace face rt = Ok rt'
    /\ locs rt' <> [] /\ faces rt' <> []
    /\ Builder rt' = Builder rt /\ objects rt' = objects rt
    /\ mode rt' = mode rt /\ orient rt' = orient rt
    /\ defaultFace rt' = defaultFace rt.
Proof.
  intros Hl%nonempty_len Hf%nonempty_len. unfold setFace.
  destruct (idx_Ok (faces rt) (len (faces rt) - 1)) as (cur & -> & _); [lia|]. simpl.
  destruct (bool_decide (face = cur)).
  { eexists. split; [done|]. repeat split; try done; intros E; rewrite E in *; done. }
  destruct (idx_Ok (locs rt) (len (locs rt) - 1)) as (prev & -> & _); [lia|]. simpl.
  destruct (Len rt - prev =? 0)%Z.
  - rewrite !slice_Ok by lia. simpl. eexists. split; [done|]. simpl.
    repeat split; try done; by intros [_ ?]%app_eq_nil.
  - simpl. eexists. split; [done|]. simpl.
    repeat split; try done; by intros [_ ?]%app_eq_nil.
Qed.

(** What [setFace] does to the two lists, case by case. *)
Lemma setFace_cases (face : FontFacePtr) (rt rt' : RichText) :
  setFace face rt = Ok rt' ->
  (last (faces rt) = Some face /\ rt' = rt)
  \/ (last (faces rt) <> Some face
      /\ exists prevLoc keep,
           last (locs rt) = Some prevLoc
           /\ keep = (if (Len rt - prevLoc =? 0)%Z then 1%nat else 0%nat)
           /\ locs rt' = take (length (locs rt) - keep) (locs rt)
                           ++ [len (runesOfString (Builder rt))]
           /\ faces rt' = take (length (faces rt) - keep) (faces rt) ++ [face]).
Proof.
  unfold setFace. intros H.
  apply rbind_Ok in H as (cur & Hcur & H). apply idx_inv in Hcur as [Hr Hcur].
  assert (last (faces rt) = Some cur) as Hlast.
  { rewrite last_lookup, <- Hcur. f_equal. unfold len. lia. }
  revert H. destruct (bool_decide_reflect (face = cur)) as [->|Hne]; intros H.
  { left. simpl in H. inversion H; subst. by split. }
  right. split; [rewrite Hlast; congruence|].
  apply rbind_Ok in H as (prevLoc & Hp & H). apply idx_inv in Hp as [Hpr Hp].
  exists prevLoc. eexists. split.
  { rewrite last_lookup, <- Hp. f_equal. unfold len. lia. }
  split; [done|].
  destruct (Len rt - prevLoc =? 0)%Z.
  - apply rbind_Ok in H as ([l f] & Hlf & H).
    apply rbind_Ok in Hlf as (l' & Hl & Hlf). apply rbind_Ok in Hlf as (f' & Hf & Hlf).
    apply slice_inv in Hl as (_ & _ & ->). apply slice_inv in Hf as (_ & _ & ->).
    inversion Hlf; subst. inversion H; subst. simpl. unfold len.
    split; do 2 f_equal; lia.
  - simpl in H. inversion H; subst. simpl. rewrite !Nat.sub_0_r, !firstn_all. done.
Qed.

Local Open Scope Z_scope.

Lemma faceSpanLoop_range (rest : indexer) (start end_ : Z) :
  forall k i j : Z,
    0 <= i < k -> 0 <= j < k + len rest ->
    0 <= fst (faceSpanLoop rest k start end_ i j) < k + len rest
    /\ 0 <= snd (faceSpanLoop rest k start end_ i j) < k + len rest.
Proof.
  induction rest as [|loc rest IH]; intros k i j Hi Hj; cbn [faceSpanLoop].
  - unfold len in *. simpl in *. lia.
  - unfold len in *. cbn [length] in *.
    destruct (end_ <=? loc).
    + destruct (loc <? start); simpl; lia.
    + replace (k + Z.of_nat (S (length rest))) with (k + 1 + Z.of_nat (length rest)) by lia.
      destruct (loc <? start); apply IH; lia.
Qed.

(** [SetFaceSpan] on a rich text with as many faces as offsets, the first
    offset being 0. *)
Lemma SetFaceSpan_Ok (face : FontFacePtr) (start end_ : Z) (rt : RichText) :
  length (locs rt) = length (faces rt) -> head (locs rt) = Some 0 ->
  0 <= start ->
  exists rt',
    SetFaceSpan face start end_ rt = Ok rt'
    /\ length (locs rt') = length (faces rt')
    /\ Builder rt' = Builder rt /\ objects rt' = objects rt
    /\ mode rt' = mode rt /\ orient rt' = orient rt
    /\ defaultFace rt' = defaultFace rt
    /\ (rt' = rt \/ face ∈ faces rt').
Proof.
  intros Hlen Hhd Hs. unfold SetFaceSpan.
  destruct ((end_ <=? start) || (Len rt <=? start)) eqn:Hc.
  { exists rt. repeat split; try done. by left. }
  apply orb_false_iff in Hc as [Hc1 Hc2].
  apply Z.leb_gt in Hc1. apply Z.leb_gt in Hc2.
  set (e := if Len rt <? end_ then Len rt else end_).
  assert (start < e <= Len rt) as He by (subst e; destruct (Z.ltb_spec (Len rt) end_); lia).
  destruct (locs rt) as [|l0 ls] eqn:El; [done|]. simpl in Hhd. inversion Hhd; subst l0.
  cbn [faceSpanLoop]. replace (0 <? start) with (0 <? start) by done.
  destruct (Z.leb_spec e 0); [lia|].
  replace (if 0 <? start then 0 else 0) with 0 by (by destruct (0 <? start)).
  pose proof (faceSpanLoop_range ls start e (0 + 1) 0 (len (0 :: ls) - 1)) as Hr.
  destruct (faceSpanLoop ls (0 + 1) start e 0 (len (0 :: ls) - 1)) as [i j].
  cbn [fst snd] in Hr.
  assert (len (0 :: ls) = 1 + len ls) as Hlen1 by (unfold len; cbn [length]; lia).
  pose proof (len_nonneg ls) as Hls.
  destruct Hr as [Hi Hj]; [lia|lia|].
  assert (len (faces rt) = 1 + len ls) as Hlenf
    by (unfold len in *; rewrite <- Hlen; cbn [length]; lia).
  unfold Len in *. rewrite slice_Ok by lia. cbn [rbind].
  rewrite setidx_Ok by lia. cbn [rbind]. rewrite (slice_Ok (Builder rt)) by lia.
  cbn [rbind].
  set (locs1 := <[Z.to_nat j := _]> (0 :: ls)).
  assert (len locs1 = 1 + len ls) as Hlen2
    by (subst locs1; unfold len; rewrite length_insert; cbn [length]; lia).
  rewrite (slice_Ok locs1 j) by lia. cbn [rbind]. rewrite (slice_Ok locs1 0) by lia.
  cbn [rbind]. rewrite (slice_Ok (faces rt) j) by lia. cbn [rbind].
  rewrite (slice_Ok (faces rt) 0) by lia. cbn [rbind].
  eexists. split; [done|]. simpl. repeat split.
  - subst locs1. cbn [app]. rewrite !length_app. cbn [length].
    rewrite !length_take, !length_drop, !length_insert.
    unfold len in *. rewrite <- Hlen. cbn [length]. lia.
  - right. apply elem_of_app. right. by left.
Qed.

Lemma SetFaceSpan_negative (face : FontFacePtr) (start end_ : Z) (rt : RichText) :
  start < 0 -> start < end_ -> SetFaceSpan face start end_ rt = Panic.
Proof.
  intros Hs He. unfold SetFaceSpan.
  replace ((end_ <=? start) || (Len rt <=? start)) with false
    by (pose proof (len_nonneg (Builder rt)); unfold Len; lia).
  destruct (faceSpanLoop _ _ _ _ _ _) as [i j].
  destruct (slice (Builder rt) 0 _); [|done]. cbn [rbind].
  destruct (setidx _ _ _); [|done]. cbn [rbind].
  unfold slice at 1. replace (0 <=? start) with false by lia. done.
Qed.






Local Open Scope float_scope.

Lemma AddCanvas_Ok (CanvasSize : nat -> float * float) (c : nat)
    (valign : VerticalAlign) (rt : RichText) :
  locs rt <> [] -> faces rt <> [] ->
  exists rt2,
    AddCanvas CanvasSize (Some c) valign rt = Ok rt2
    /\ Builder rt2 = Builder rt ++ encodeRune (int32 (len (objects rt)))
    /\ objects rt2 =
         objects rt ++ [mkTextSpanObject (Some c) 0 0 (fst (CanvasSize c))
                          (snd (CanvasSize c)) valign].
Proof.
  intros Hl Hf. unfold AddCanvas. destruct (CanvasSize c) as [w h]. cbn [fst snd].
  destruct (idx_Ok (faces rt) (len (faces rt) - 1)) as (cur & -> & _).
  { apply nonempty_len in Hf. lia. }
  cbn [rbind].
  destruct (setFace_Ok None rt Hl Hf) as (rt2 & -> & Hl2 & Hf2 & HB & HO & _).
  cbn [rbind]. set (rt3 := setObjects _ _).
  destruct (setFace_Ok cur rt3) as (rt4 & -> & _ & _ & HB4 & HO4 & _); [done|done|].
  exists rt4. split; [done|]. rewrite HB4, HO4. simpl. rewrite HB, HO. done.
Qed.

(** C10.  [Reset] empties the buffer and cuts the offsets and the faces down
    to their first entry; the table of embedded objects is left as it was.
    So the objects added before the reset are still there, and the first
    [AddCanvas] after it writes as placeholder the rune whose value is the
    number of objects held before the reset, which is not the rune 0 when
    there were any. *)
Theorem Reset_keeps_objects (CanvasSize : nat -> float * float) (rt : RichText) :
  locs rt <> [] -> faces rt <> [] ->
  exists rt1,
    Reset rt = Ok rt1
    /\ Builder rt1 = []
    /\ locs rt1 = take 1 (locs rt) /\ faces rt1 = take 1 (faces rt)
    /\ objects rt1 = objects rt
    /\ forall c valign,
         exists rt2,
           AddCanvas CanvasSize (Some c) valign rt1 = Ok rt2
           /\ Builder rt2 = encodeRune (int32 (len (objects rt)))
           /\ objects rt2 =
                objects rt ++ [mkTextSpanObject (Some c) 0 0 (fst (CanvasSize c))
                                 (snd (CanvasSize c)) valign]
           /\ ((0 < len (objects rt) < 2 ^ 31)%Z -> Builder rt2 <> encodeRune 0%Z).
Proof.
  intros Hl Hf. unfold Reset.
  pose proof (nonempty_len _ Hl). pose proof (nonempty_len _ Hf).
  rewrite !slice_Ok by lia. cbn [rbind].
  change (Z.to_nat (1 - 0)) with 1%nat. change (Z.to_nat 0) with 0%nat.
  rewrite !drop_0.
  set (rt1 := mkRichText _ _ _ _ _ _ _). exists rt1.
  do 5 (split; [done|]).
  intros c valign.
  destruct (AddCanvas_Ok CanvasSize c valign rt1) as (rt2 & -> & HB & HO).
  { destruct (locs rt); done. }
  { destruct (faces rt); done. }
  exists rt2. split; [done|]. rewrite HB, HO. simpl.
  split; [done|]. split; [done|]. apply encodeRune_nonzero.
Qed.

Lemma Reset_keeps_objects_witness :
  exists rt1,
    Reset (mkRichText [97%Z] [0%Z; 1%Z] [None; Some 0%nat] HorizontalTB Natural
             (Some 0%nat) [mkTextSpanObject (Some 7%nat) 0 0 20 10 Baseline]) = Ok rt1
    /\ Builder rt1 = []
    /\ locs rt1 = [0%Z] /\ faces rt1 = [None]
    /\ objects rt1 = [mkTextSpanObject (Some 7%nat) 0 0 20 10 Baseline]
    /\ forall c valign,
         exists rt2,
           AddCanvas sampleCanvasSize (Some c) valign rt1 = Ok rt2
           /\ Builder rt2 = [1%Z]
           /\ objects rt2 =
                [mkTextSpanObject (Some 7%nat) 0 0 20 10 Baseline;
                 mkTextSpanObject (Some c) 0 0 20 10 valign]
           /\ ((0 < 1 < 2 ^ 31)%Z -> Builder rt2 <> [0%Z]).
Proof.
  apply (Reset_keeps_objects sampleCanvasSize
           (mkRichText [97%Z] [0%Z; 1%Z] [None; Some 0%nat] HorizontalTB Natural
              (Some 0%nat) [mkTextSpanObject (Some 7%nat) 0 0 20 10 Baseline]));
    simpl; discriminate.
Defined.

(** C3, at the input where the code breaks it.  After [WriteString("é")],
    [SetFace(face 1)], [SetFace(face 2)] the offsets are 0, 1, 1: the run of
    face 1 is empty, yet it is kept, because [setFace] compares the length of
    the buffer in bytes (2) with the last offset, which counts runes (1).
    The offsets do not increase strictly. *)
Theorem face_offsets_repeat :
  NewRichText (Some 0%nat) = Ok (mkRichText [] [0%Z] [Some 0%nat] HorizontalTB Natural
                                   (Some 0%nat) [])
  /\ exists rt,
       runOps sampleCanvasSize
         [OpWriteString [195; 169]%Z; OpSetFace (Some 1%nat); OpSetFace (Some 2%nat)]
         (mkRichText [] [0%Z] [Some 0%nat] HorizontalTB Natural (Some 0%nat) []) = Ok rt
       /\ locs rt = [0; 1; 1]%Z
       /\ faces rt = [Some 0%nat; Some 1%nat; Some 2%nat]
       /\ ~ faceRunsOk rt.
Proof.
  split; [reflexivity|]. eexists. split; [vm_compute; reflexivity|].
  split; [reflexivity|]. split; [reflexivity|].
  intros (_ & _ & H). vm_compute in H. discriminate.
Qed.

(** [SetFaceSpan] breaks the invariant too, without any multi-byte rune: on
    "abcdef" in one face, setting face 1 on the bytes 2 to 4 cuts the lists
    at [rt.locs[:i]] and so drops the entry at [i]; the offsets start at 2. *)
Lemma SetFaceSpan_drops_entry :
  SetFaceSpan (Some 1%nat) 2 4
    (mkRichText [97; 98; 99; 100; 101; 102]%Z [0%Z] [Some 0%nat] HorizontalTB
       Natural (Some 0%nat) [])
  = Ok (mkRichText [97; 98; 99; 100; 101; 102]%Z [2; 4]%Z [Some 1%nat; Some 0%nat]
          HorizontalTB Natural (Some 0%nat) []).
Proof. vm_compute. reflexivity. Qed.

(** C7, at the input where the code breaks it.  The buffer holds "é" and the
    run of face 1 starts at rune 1, the end of the buffer: it has no content.
    [SetFace(face 2)] should replace its entry and give the offsets 0, 1 with
    the faces 0, 2.  The code keeps the empty run and appends: offsets
    0, 1, 1 and faces 0, 1, 2.  The other two cases of the claim hold here:
    setting the active face changes nothing, and the appended offset is the
    length of the buffer in runes. *)
Theorem SetFace_keeps_empty_run :
  let rt := mkRichText [195; 169]%Z [0; 1]%Z [Some 0%nat; Some 1%nat]
              HorizontalTB Natural (Some 0%nat) [] in
  len (runesOfString (Builder rt)) = 1%Z
  /\ SetFace (Some 1%nat) richE = Ok rt
  /\ SetFace (Some 1%nat) rt = Ok rt
  /\ SetFace (Some 2%nat) rt =
       Ok (mkRichText [195; 169]%Z [0; 1; 1]%Z [Some 0%nat; Some 1%nat; Some 2%nat]
             HorizontalTB Natural (Some 0%nat) [])
  /\ SetFace (Some 2%nat) rt <>
       Ok (mkRichText [195; 169]%Z [0; 1]%Z [Some 0%nat; Some 2%nat]
             HorizontalTB Natural (Some 0%nat) []).
Proof.
  cbv zeta. repeat split; try (vm_compute; reflexivity).
  vm_compute. discriminate.
Qed.

(** ** Breakpoints for a zero width *)

Section ForcedBreaks.
Variable E : Env.

Lemma sinceBreak_snoc (pre : list Item) (it : Item) :
  sinceBreak E (pre ++ [it]) =
    if forcedPenalty E it then [] else sinceBreak E pre ++ [it].
Proof. unfold sinceBreak. by rewrite fold_left_app. Qed.

Lemma accumulatedWidth_snoc (its : list Item) (it : Item) :
  accumulatedWidth (its ++ [it]) =
    if bool_decide (Item_Type it = PenaltyType) then accumulatedWidth its
    else accumulatedWidth its + Item_Width it.
Proof.
  unfold accumulatedWidth. rewrite filter_app, filter_cons, filter_nil.
  destruct (decide (Item_Type it <> PenaltyType)) as [Hn|Hn].
  - rewrite bool_decide_false by done. by rewrite fold_left_app.
  - rewrite bool_decide_true by (by destruct (decide (Item_Type it = PenaltyType))).
    by rewrite app_nil_r.
Qed.

Lemma forcedBreaks_spec (full : list Item) (rest : list Item) :
  forall (pre : list Item) (breaks : list Breakpoint),
    full = pre ++ rest ->
    forcedBreaks E rest (len pre) (accumulatedWidth (sinceBreak E pre)) breaks =
      breaks ++ map (fun p => mkBreakpoint p 0
                         (accumulatedWidth (sinceBreak E (take (Z.to_nat p) full))))
                  (forcedPositions E rest (len pre)).
Proof.
  induction rest as [|it rest IH]; intros pre breaks Hfull; simpl.
  { by rewrite app_nil_r. }
  assert (full = (pre ++ [it]) ++ rest) as Hfull' by (by rewrite <- app_assoc).
  specialize (IH (pre ++ [it])). rewrite len_app in IH. change (len [it]) with 1%Z in IH.
  rewrite sinceBreak_snoc in IH. unfold forcedPenalty in *. unfold isType in *.
  destruct (bool_decide (Item_Type it = PenaltyType)) eqn:Hty; simpl in *.
  - destruct (Item_Penalty it <=? - Infinity E) eqn:Hf.
    + rewrite (IH _ Hfull'). simpl. rewrite <- app_assoc. simpl. do 3 f_equal.
      rewrite Hfull. unfold len. rewrite Nat2Z.id, take_app_length. done.
    + rewrite accumulatedWidth_snoc, Hty in IH. by apply IH.
  - rewrite accumulatedWidth_snoc, Hty in IH. by apply IH.
Qed.

Lemma forcedPositions_length (items : list Item) (i : Z) :
  length (forcedPositions E items i) = length (filter (fun it => forcedPenalty E it = true) items).
Proof.
  revert i. induction items as [|it items IH]; intros i; simpl; [done|].
  rewrite filter_cons. destruct (forcedPenalty E it) eqn:Hf;
    case_decide; try congruence; simpl; by rewrite IH.
Qed.
End ForcedBreaks.

(** C6.  With a target width of zero the paragraph breaker is not used: the
    breakpoints are the same whatever breaker is supplied.  For a list of
    items that is not empty there is one breakpoint per forced penalty (a
    penalty of cost at most minus infinity), at its position, with the
    accumulated width of the items that are no penalties since the previous
    break; for the empty list there is the one breakpoint at position 0 of
    width 0. *)
Theorem zero_width_breaks (E : Env) (items : list Item) (width : float) :
  (width =? 0) = true ->
  (forall lb, breakLines (withLinebreak E lb) items width = breakLines E items width)
  /\ (items = [] -> fst (breakLines E items width) = [mkBreakpoint 0 0 0])
  /\ (items <> [] ->
        fst (breakLines E items width) = forcedBreaksSpec E items
        /\ length (fst (breakLines E items width)) =
             length (filter (fun it => forcedPenalty E it = true) items)).
Proof.
  intros Hw. unfold breakLines, fneq. rewrite Hw. simpl. split; [done|]. split.
  - intros ->. done.
  - intros Hne. destruct (Z.eqb_spec (len items) 0) as [H0|H0].
    { destruct items; [done|]. unfold len in H0. simpl in H0. lia. }
    simpl. pose proof (forcedBreaks_spec E items items [] [] eq_refl) as H.
    simpl in H. change (accumulatedWidth (sinceBreak E [])) with 0 in H.
    change (len []) with 0%Z in H. rewrite H. split; [done|].
    unfold forcedBreaksSpec. by rewrite length_map, forcedPositions_length.
Qed.

Lemma zero_width_breaks_witness :
  let items := [mkItem BoxType 10 0 0 0 1; mkItem GlueType 4 1 1 0 1;
                mkItem PenaltyType 7 0 0 50 1; mkItem BoxType 10 0 0 0 1;
                mkItem PenaltyType 0 0 0 (-1000) 1; mkItem BoxType 5 0 0 0 1;
                mkItem PenaltyType 0 0 0 (-1000) 0] in
  (forall lb, breakLines (withLinebreak sampleEnv lb) items 0 = breakLines sampleEnv items 0)
  /\ (items = [] -> fst (breakLines sampleEnv items 0) = [mkBreakpoint 0 0 0])
  /\ (items <> [] ->
        fst (breakLines sampleEnv items 0) = [mkBreakpoint 4 0 24; mkBreakpoint 6 0 5]
        /\ length (fst (breakLines sampleEnv items 0)) = 2%nat).
Proof.
  cbv zeta. apply (zero_width_breaks sampleEnv). reflexivity.
Defined.

(** ** Cleaning up the items *)

Local Open Scope Z_scope.

Lemma list_split2 {A : Type} (l : list A) (n : nat) (x y : A) :
  l !! n = Some x -> l !! S n = Some y ->
  l = take n l ++ x :: y :: drop (S (S n)) l.
Proof.
  intros Hx Hy. rewrite <- (take_drop_middle l n x Hx) at 1.
  do 2 f_equal. by apply drop_S.
Qed.

Lemma removeAt_middle {A : Type} (l1 l2 : list A) (x : A) (k : Z) :
  len l1 = k -> removeAt k (l1 ++ x :: l2) = l1 ++ l2.
Proof.
  intros <-. unfold removeAt, len.
  rewrite Nat2Z.id, take_app_length.
  replace (Z.to_nat (Z.of_nat (length l1) + 1)) with (length l1 + 1)%nat by lia.
  by rewrite drop_app_add.
Qed.

Lemma removeAt_insert_prev {A : Type} (l1 l2 : list A) (p it z : A) (k : Z) :
  len l1 = k - 1 ->
  removeAt k (<[Z.to_nat (k - 1) := z]> (l1 ++ p :: it :: l2)) = l1 ++ z :: l2.
Proof.
  intros Hl. unfold len in Hl.
  replace (Z.to_nat (k - 1)) with (length l1 + 0)%nat by lia.
  rewrite insert_app_r. simpl.
  change (l1 ++ z :: it :: l2) with (l1 ++ [z] ++ it :: l2). rewrite app_assoc.
  rewrite removeAt_middle; [by rewrite <- app_assoc|].
  rewrite len_app. unfold len. simpl. lia.
Qed.

Lemma removeAt_insert_next {A : Type} (l1 l2 : list A) (p it z : A) (k : Z) :
  len l1 = k ->
  removeAt k (<[Z.to_nat (k + 1) := z]> (l1 ++ it :: p :: l2)) = l1 ++ z :: l2.
Proof.
  intros Hl. unfold len in Hl.
  replace (Z.to_nat (k + 1)) with (length l1 + 1)%nat by lia.
  rewrite insert_app_r. simpl. by apply removeAt_middle.
Qed.

Lemma idx_split {A : Type} (l : list A) (k : Z) (x : A) :
  idx l k = Ok x -> exists l1 l2, l = l1 ++ x :: l2 /\ len l1 = k.
Proof.
  intros [Hr Hx]%idx_inv. exists (take (Z.to_nat k) l), (drop (S (Z.to_nat k)) l).
  split; [by rewrite take_drop_middle|].
  unfold len in *. rewrite length_take. lia.
Qed.

Lemma foldInto_prev (f : Item -> Item -> Item) (items items' : list Item) (k : Z) :
  (0 < k)%Z -> foldInto f items k (k - 1) = Ok items' ->
  exists l1 p it l2,
    items = l1 ++ p :: it :: l2 /\ items' = l1 ++ f p it :: l2 /\ len l1 = k - 1.
Proof.
  intros Hk H. unfold foldInto in H.
  apply rbind_Ok in H as (it & Hit & H). apply idx_inv in Hit as [Hr Hit].
  apply rbind_Ok in H as (p & Hp & H). apply idx_inv in Hp as [Hr' Hp].
  apply rbind_Ok in H as (its & Hs & H). apply setidx_inv in Hs as [_ ->].
  inversion H; subst items'; clear H.
  replace (Z.to_nat k) with (S (Z.to_nat (k - 1))) in Hit by lia.
  pose proof (list_split2 items _ p it Hp Hit) as Hsplit.
  set (l1 := take (Z.to_nat (k - 1)) items) in *.
  set (l2 := drop (S (S (Z.to_nat (k - 1)))) items) in *.
  assert (len l1 = k - 1) as Hl1.
  { subst l1. unfold len in *. rewrite length_take. lia. }
  exists l1, p, it, l2. split; [done|]. split; [|done].
  rewrite Hsplit. by apply removeAt_insert_prev.
Qed.

Lemma foldInto_next (f : Item -> Item -> Item) (items items' : list Item) (k : Z) :
  (0 <= k)%Z -> foldInto f items k (k + 1) = Ok items' ->
  exists l1 p it l2,
    items = l1 ++ it :: p :: l2 /\ items' = l1 ++ f p it :: l2 /\ len l1 = k.
Proof.
  intros Hk H. unfold foldInto in H.
  apply rbind_Ok in H as (it & Hit & H). apply idx_inv in Hit as [Hr Hit].
  apply rbind_Ok in H as (p & Hp & H). apply idx_inv in Hp as [Hr' Hp].
  apply rbind_Ok in H as (its & Hs & H). apply setidx_inv in Hs as [_ ->].
  inversion H; subst items'; clear H.
  replace (Z.to_nat (k + 1)) with (S (Z.to_nat k)) in Hp by lia.
  pose proof (list_split2 items _ it p Hit Hp) as Hsplit.
  set (l1 := take (Z.to_nat k) items) in *.
  set (l2 := drop (S (S (Z.to_nat k))) items) in *.
  assert (len l1 = k) as Hl1.
  { subst l1. unfold len in *. rewrite length_take. lia. }
  exists l1, p, it, l2. split; [done|]. split; [|done].
  rewrite Hsplit. by apply removeAt_insert_next.
Qed.

Lemma prevIs_pos (ty : ItemType) (items : list Item) (k : Z) :
  prevIs ty items k = true -> (0 < k)%Z.
Proof. unfold prevIs. intros [H _]%andb_prop. lia. Qed.

(** The three shapes an iteration can take: the index moves on; two
    neighbours are merged into one item that carries both sizes; an item of
    size 0 is dropped. *)
Lemma coalesceStep_shape (st st' : Coalesce) :
  (0 <= c_k st)%Z ->
  coalesceStep st = Ok st' ->
  (c_items st' = c_items st /\ c_k st' = (c_k st + 1)%Z)
  \/ (exists l1 x y z l2,
        c_items st = l1 ++ x :: y :: l2 /\ c_items st' = l1 ++ z :: l2
        /\ Item_Size z = int64 (Item_Size x + Item_Size y)
        /\ (c_k st' = c_k st \/ (c_k st' = c_k st - 1 /\ 0 < c_k st))%Z)
  \/ (exists l1 x l2,
        c_items st = l1 ++ x :: l2 /\ c_items st' = l1 ++ l2
        /\ Item_Size x = 0%Z /\ c_k st' = c_k st).
Proof.
  intros Hk H. unfold coalesceStep in H.
  apply rbind_Ok in H as (it & Hit & H). apply rbind_Ok in H as (br & Hbr & H).
  destruct (c_k st =? int64 (Break_Position br - c_shift st))%Z.
  { apply rbind_Ok in H as (bs & _ & H). inversion H; subst. left. done. }
  destruct (_ && _ && _ && _) eqn:C2 in H.
  { apply rbind_Ok in H as (its & Hf & H). inversion H; subst; clear H. simpl.
    apply foldInto_prev in Hf as (l1 & p & it' & l2 & -> & -> & _).
    - right. left. eexists l1, p, it', _, l2. do 2 (split; [done|]). split; [done|]. by left.
    - apply andb_prop in C2 as [C2 _]. apply andb_prop in C2 as [C2 _].
      apply andb_prop in C2 as [C2 _]. lia. }
  destruct (_ && _ && _) eqn:C3 in H.
  { apply rbind_Ok in H as (its & Hf & H). inversion H; subst; clear H. simpl.
    apply foldInto_next in Hf as (l1 & p & it' & l2 & -> & -> & _); [|done].
    right. left. eexists l1, it', p, _, l2. do 2 (split; [done|]).
    split; [simpl; f_equal; lia|]. by left. }
  destruct (isType PenaltyType it && _) eqn:C4 in H.
  { inversion H; subst; clear H. simpl.
    destruct (idx_split _ _ _ Hit) as (l1 & l2 & Hs & Hl). rewrite Hs.
    right. right. exists l1, it, l2. split; [done|]. rewrite removeAt_middle by done.
    split; [done|]. split; [|done]. apply andb_prop in C4 as [_ C4]. lia. }
  destruct (isType GlueType it && (Item_Size it =? 0)%Z && _) eqn:C5 in H.
  { inversion H; subst; clear H. simpl.
    destruct (idx_split _ _ _ Hit) as (l1 & l2 & Hs & Hl). rewrite Hs.
    right. right. exists l1, it, l2. split; [done|]. rewrite removeAt_middle by done.
    split; [done|]. split; [|done].
    apply andb_prop in C5 as [C5 _]. apply andb_prop in C5 as [_ C5]. lia. }
  destruct (isType GlueType it && prevIs GlueType _ _) eqn:C6 in H.
  { apply rbind_Ok in H as (its & Hf & H). inversion H; subst; clear H. simpl.
    apply andb_prop in C6 as [_ C6%prevIs_pos].
    apply foldInto_prev in Hf as (l1 & p & it' & l2 & -> & -> & _); [|done].
    right. left. eexists l1, p, it', _, l2. do 2 (split; [done|]). split; [done|]. by right. }
  destruct (isType BoxType it && prevIs BoxType _ _) eqn:C7 in H.
  { apply rbind_Ok in H as (its & Hf & H). inversion H; subst; clear H. simpl.
    apply andb_prop in C7 as [_ C7%prevIs_pos].
    apply foldInto_prev in Hf as (l1 & p & it' & l2 & -> & -> & _); [|done].
    right. left. eexists l1, p, it', _, l2. do 2 (split; [done|]). split; [done|]. by left. }
  destruct (isType GlueType it && _ && prevIs BoxType _ _) eqn:C8 in H.
  { apply rbind_Ok in H as (its & Hf & H). inversion H; subst; clear H. simpl.
    apply andb_prop in C8 as [_ C8%prevIs_pos].
    apply foldInto_prev in Hf as (l1 & p & it' & l2 & -> & -> & _); [|done].
    right. left. eexists l1, p, it', _, l2. do 2 (split; [done|]). split; [done|]. by left. }
  inversion H; subst. left. done.
Qed.

Lemma sumSizes_app (l1 l2 : list Item) :
  sumSizes (l1 ++ l2) = (sumSizes l1 + sumSizes l2)%Z.
Proof. unfold sumSizes. induction l1; simpl; lia. Qed.

Lemma sumSizes_nonneg (l : list Item) :
  Forall (fun it => 0 <= Item_Size it)%Z l -> (0 <= sumSizes l)%Z.
Proof. unfold sumSizes. induction 1; simpl; lia. Qed.

Lemma int64_small (z : Z) : (- 2 ^ 63 <= z < 2 ^ 63)%Z -> int64 z = z.
Proof. intros Hz. unfold int64. rewrite Z.mod_small; lia. Qed.

(** An iteration keeps the index within the items and lowers
    [2 * len(items) - k]. *)
Lemma coalesceStep_measure (st st' : Coalesce) :
  (0 <= c_k st < len (c_items st))%Z ->
  coalesceStep st = Ok st' ->
  (0 <= c_k st' <= len (c_items st'))%Z
  /\ (2 * len (c_items st') - c_k st' < 2 * len (c_items st) - c_k st)%Z.
Proof.
  intros Hk H. apply coalesceStep_shape in H; [|lia].
  destruct H as [[-> ->]|[(l1 & x & y & z & l2 & Hi & -> & _ & Hk')|(l1 & x & l2 & Hi & -> & _ & ->)]];
    [lia| |]; rewrite Hi in *; rewrite !len_app in *; unfold len in *; simpl in *; lia.
Qed.

Lemma coalesceLoop_fuel (fuel : nat) :
  forall st : Coalesce,
    (0 <= c_k st <= len (c_items st))%Z ->
    (2 * len (c_items st) - c_k st < Z.of_nat fuel)%Z ->
    coalesceLoop fuel st <> None.
Proof.
  induction fuel as [|fuel IH]; intros st Hk Hfuel; simpl.
  - destruct (Z.leb_spec (len (c_items st)) (c_k st)); [done|lia].
  - destruct (Z.leb_spec (len (c_items st)) (c_k st)); [done|].
    destruct (coalesceStep st) as [st'|] eqn:Hs; [|done].
    apply coalesceStep_measure in Hs as [Hk' Hm]; [|lia].
    apply IH; lia.
Qed.

(** The pass terminates: the fuel it is given is never used up. *)
Lemma coalesce_fuel (items : list Item) (breaks : list Breakpoint) :
  coalesceRun items breaks <> None.
Proof.
  unfold coalesceRun. apply coalesceLoop_fuel.
  - unfold coalesceInit. destruct items as [|it items]; [simpl; unfold len; simpl; lia|].
    destruct (Item_Width it =? 0)%float; simpl; unfold len; simpl; lia.
  - unfold coalesceFuel, coalesceInit. destruct items as [|it items]; [simpl; unfold len; simpl; lia|].
    destruct (Item_Width it =? 0)%float; simpl; unfold len; simpl; lia.
Qed.


Lemma coalesceStep_sizes (st st' : Coalesce) :
  (0 <= c_k st)%Z -> sizesOk (c_items st) ->
  coalesceStep st = Ok st' ->
  sizesOk (c_items st') /\ sumSizes (c_items st') = sumSizes (c_items st).
Proof.
  intros Hk [Hpos Hsum] H. apply coalesceStep_shape in H; [|done].
  destruct H as [[-> _]|[(l1 & x & y & z & l2 & Hi & -> & Hz & _)|(l1 & x & l2 & Hi & -> & Hx & _)]];
    [done| |]; rewrite Hi in *; clear Hi.
  - apply Forall_app in Hpos as [H1 H2]. apply Forall_cons in H2 as [Hx H2].
    apply Forall_cons in H2 as [Hy H2].
    pose proof (sumSizes_nonneg _ H1). pose proof (sumSizes_nonneg _ H2).
    rewrite sumSizes_app in Hsum. unfold sumSizes in Hsum at 2. simpl in Hsum.
    fold (sumSizes l2) in Hsum.
    rewrite int64_small in Hz by lia.
    assert (sumSizes (l1 ++ z :: l2) = sumSizes (l1 ++ x :: y :: l2)) as Heq.
    { rewrite !sumSizes_app. unfold sumSizes at 2 4. simpl. fold (sumSizes l2). lia. }
    split; [|done]. split.
    + apply Forall_app. split; [done|]. apply Forall_cons. split; [lia|done].
    + rewrite Heq, sumSizes_app. unfold sumSizes at 2. simpl. fold (sumSizes l2). lia.
  - apply Forall_app in Hpos as [H1 H2]. apply Forall_cons in H2 as [_ H2].
    assert (sumSizes (l1 ++ l2) = sumSizes (l1 ++ x :: l2)) as Heq.
    { rewrite !sumSizes_app. unfold sumSizes at 4. simpl. fold (sumSizes l2). lia. }
    split; [|done]. split; [by apply Forall_app|]. by rewrite Heq.
Qed.

Lemma coalesceLoop_sizes (fuel : nat) :
  forall st st' : Coalesce,
    (0 <= c_k st <= len (c_items st))%Z -> sizesOk (c_items st) ->
    coalesceLoop fuel st = Some (Ok st') ->
    sumSizes (c_items st') = sumSizes (c_items st).
Proof.
  induction fuel as [|fuel IH]; intros st st' Hk Hok; simpl.
  - destruct (Z.leb_spec (len (c_items st)) (c_k st)); [|done]. by intros [= ->].
  - destruct (Z.leb_spec (len (c_items st)) (c_k st)); [by intros [= ->]|].
    destruct (coalesceStep st) as [st1|] eqn:Hs; [|done]. intros Hloop.
    assert (0 <= c_k st < len (c_items st))%Z as Hk0 by lia.
    pose proof (coalesceStep_measure _ _ Hk0 Hs) as [Hk1 _].
    apply coalesceStep_sizes in Hs as [Hok1 Heq]; [|lia|done].
    rewrite <- Heq. by apply IH.
Qed.

Local Open Scope float_scope.

(** C4, as amended.  The pass terminates, and when it completes the items
    left stand for as many glyphs as the items it was given: the sum of
    [Size] is unchanged.  This needs the leading item, when its width is
    zero, to be the empty indent box, of size 0 (the pass removes a leading
    item of zero width whatever its size); the sizes are glyph counts, not
    negative and with a total that fits an [int]. *)
Theorem coalesce_keeps_sizes (items : list Item) (breaks : list Breakpoint) :
  sizesOk items ->
  (forall it rest, items = it :: rest -> (Item_Width it =? 0) = true ->
                   Item_Size it = 0%Z) ->
  coalesceRun items breaks <> None
  /\ forall items' breaks',
       coalesce items breaks = Ok (items', breaks') ->
       sumSizes items' = sumSizes items.
Proof.
  intros Hok Hfirst. split; [apply coalesce_fuel|].
  intros items' breaks'. unfold coalesce, coalesceRun.
  destruct (coalesceLoop _ _) as [[st|]|] eqn:Hloop; [|done|done].
  intros [= <- <-].
  apply coalesceLoop_sizes in Hloop.
  - rewrite Hloop. unfold coalesceInit. destruct items as [|it rest]; [done|].
    destruct (Item_Width it =? 0) eqn:Hw; [|done]. simpl.
    unfold sumSizes. simpl. rewrite (Hfirst it rest eq_refl Hw). lia.
  - unfold coalesceInit. destruct items as [|it rest]; [simpl; unfold len; simpl; lia|].
    destruct (Item_Width it =? 0); simpl; unfold len; simpl; lia.
  - unfold coalesceInit. destruct items as [|it rest]; [done|].
    destruct (Item_Width it =? 0); simpl; [|done].
    destruct Hok as [Hpos Hsum]. apply Forall_cons in Hpos as [Hit Hpos].
    split; [done|]. unfold sumSizes in *. simpl in Hsum. lia.
Qed.

Lemma coalesce_keeps_sizes_witness :
  coalesceRun itemsAbcd breaksAbcd <> None
  /\ forall items' breaks',
       coalesce itemsAbcd breaksAbcd = Ok (items', breaks') ->
       sumSizes items' = 6%Z.
Proof.
  change 6%Z with (sumSizes itemsAbcd).
  apply (coalesce_keeps_sizes itemsAbcd breaksAbcd).
  - split; [repeat constructor; simpl; lia|vm_compute; reflexivity].
  - intros it rest [= <- <-] _. reflexivity.
Defined.

(** On these items the pass completes, with the merged boxes and the two
    breaking penalties left. *)
Lemma coalesce_abcd :
  coalesce itemsAbcd breaksAbcd =
    Ok ([mkItem BoxType 40 0 0 0 4; mkItem PenaltyType 0 0 0 (-1000) 1;
         mkItem BoxType 10 0 0 0 1; mkItem PenaltyType 0 0 0 (-1000) 0],
        [mkBreakpoint 1 0 40; mkBreakpoint 3 0 10]).
Proof. vm_compute. reflexivity. Qed.

(** C4 as stated fails: a leading item of zero width is removed with its
    size.  The box of width 0 and size 1 is dropped and the total goes from
    1 to 0. *)
Lemma coalesce_drops_leading_size :
  let items := [mkItem BoxType 0 0 0 0 1; mkItem PenaltyType 0 0 0 (-1000) 0] in
  let breaks := [mkBreakpoint 1 0 0] in
  coalesce items breaks =
    Ok ([mkItem PenaltyType 0 0 0 (-1000) 0], [mkBreakpoint 0 0 0])
  /\ sumSizes items = 1%Z
  /\ sumSizes [mkItem PenaltyType 0 0 0 (-1000) 0] = 0%Z.
Proof. cbv zeta. repeat split; vm_compute; reflexivity. Qed.

(** ** The claim on the script itemizer *)

(** C5, as amended.  For runes with as many embedding levels, none of them
    negative, [ScriptItemizer] returns items whose texts, concatenated in
    order, are the input string; it is a function of its arguments, so two
    calls on the same input agree; and no runes give no items, whatever the
    levels. *)
Theorem ScriptItemizer_concat (lookup : rune -> Script) (runes : list rune)
    (embeddingLevels : list Z) :
  length embeddingLevels = length runes ->
  Forall (fun l => (0 <= l)%Z) embeddingLevels ->
  (exists items,
     ScriptItemizer lookup runes embeddingLevels = Ok items
     /\ concat (map ScriptItem_Text items) = stringOfRunes runes)
  /\ (forall r1 r2,
        ScriptItemizer lookup runes embeddingLevels = r1 ->
        ScriptItemizer lookup runes embeddingLevels = r2 -> r1 = r2)
  /\ (forall levels, ScriptItemizer lookup [] levels = Ok []).
Proof.
  intros Hlen Hpos. split; [|split].
  - apply ScriptItemizer_texts. by split.
  - by intros r1 r2 <- <-.
  - done.
Qed.

Lemma ScriptItemizer_concat_witness :
  (exists items,
     ScriptItemizer (LookupScript sampleEnv) [97; 32; 98]%Z [0; 0; 1]%Z = Ok items
     /\ concat (map ScriptItem_Text items) = [97; 32; 98]%Z)
  /\ (forall r1 r2,
        ScriptItemizer (LookupScript sampleEnv) [97; 32; 98]%Z [0; 0; 1]%Z = r1 ->
        ScriptItemizer (LookupScript sampleEnv) [97; 32; 98]%Z [0; 0; 1]%Z = r2 ->
        r1 = r2)
  /\ (forall levels, ScriptItemizer (LookupScript sampleEnv) [] levels = Ok []).
Proof.
  apply (ScriptItemizer_concat (LookupScript sampleEnv) [97; 32; 98]%Z [0; 0; 1]%Z).
  - reflexivity.
  - repeat constructor; lia.
Defined.

(** C5 as stated fails on a negative level: the level indexes the script
    stack, and the call panics instead of returning items. *)
Lemma ScriptItemizer_negative_level :
  length [(-1)%Z] = length [97%Z]
  /\ ScriptItemizer (LookupScript sampleEnv) [97%Z] [(-1)%Z] = Panic.
Proof. split; reflexivity. Qed.

(** ** A line that does not fit the height of the box *)

Section Overflow.
Variable E : Env.
Variable rt : RichText.
Variable log : gostring.
Variable fs : list FontFacePtr.
Variable gix : indexer.
Variable items : list Item.
Variable breaks : list Breakpoint.
Variables width height : float.
Variable halign : TextAlign.
Variable lineSpacing : float.

End Overflow.

(** ** The lines before the first break *)

Lemma setSpansAt_length (ls ls' : list line) (j : Z) (spans : list TextSpan) :
  setSpansAt ls j spans = Ok ls' -> length ls' = length ls.
Proof.
  unfold setSpansAt. intros H. apply rbind_Ok in H as (l & _ & H).
  apply setidx_inv in H as [_ ->]. by rewrite length_insert.
Qed.

Lemma appendGlyphText_length (ls ls' : list line) (j : Z) (gs : list Glyph) :
  appendGlyphText ls j gs = Ok ls' -> length ls' = length ls.
Proof.
  unfold appendGlyphText. intros H. apply rbind_Ok in H as (spans & _ & H).
  apply rbind_Ok in H as (sp & _ & H). apply rbind_Ok in H as (spans' & _ & H).
  by eapply setSpansAt_length.
Qed.



Section Frame.
Variable E : Env.
Variable rt : RichText.
Variable log : gostring.
Variable fs : list FontFacePtr.
Variable gix : indexer.
Variable dirs : list Direction.
Variable rots : list Rotation.
Variable items : list Item.
Variable breaks : list Breakpoint.
Variables width height : float.
Variable halign : TextAlign.
Variable lineSpacing : float.

Lemma spanStep_lines (j : Z) (x : float) (b nextK : Z) (st st' : BoxSt) :
  spanStep E rt log fs dirs rots j x b nextK st = Ok st' ->
  length (b_lines st') = length (b_lines st).
Proof.
  unfold spanStep. intros H.
  apply rbind_Ok in H as (face & _ & H).
  apply rbind_Ok in H as (ga & _ & H). apply rbind_Ok in H as (gb & _ & H).
  apply rbind_Ok in H as (gsab & _ & H).
  apply rbind_Ok in H as ([[[face' w] objs] fonts] & _ & H).
  apply rbind_Ok in H as (dk & _ & H).
  apply rbind_Ok in H as (s & _ & H). apply rbind_Ok in H as (rk & _ & H).
  apply rbind_Ok in H as (gsab' & _ & H).
  apply rbind_Ok in H as (spans & _ & H).
  apply rbind_Ok in H as (spans1 & _ & H).
  apply rbind_Ok in H as (ls & Hls & H). inversion H; subst; clear H. simpl.
  by eapply setSpansAt_length.
Qed.

Lemma boxLoop_lines (n : nat) :
  forall (j : Z) (x : float) (iend b : Z) (st st' : BoxSt),
    boxLoop E rt log fs gix dirs rots n j x iend b st = Ok st' ->
    length (b_lines st') = length (b_lines st).
Proof.
  induction n as [|n IH]; intros j x iend b st st'; simpl; [by intros [= <-]|].
  intros H. apply rbind_Ok in H as (st1 & Hstep & H).
  apply IH in H. rewrite H.
  destruct (negb (index gix b =? b_k st)%Z || (b =? iend)%Z).
  - by eapply spanStep_lines.
  - by inversion Hstep.
Qed.

Lemma boxStep_frame (item : Item) (st st' : Asm) :
  boxStep E rt log fs gix dirs rots item st = Ok st' -> sameFrame st st'.
Proof.
  unfold boxStep. intros H. apply rbind_Ok in H as (bst & Hloop & H).
  inversion H; subst; clear H. apply boxLoop_lines in Hloop.
  by repeat split.
Qed.

Lemma glueStep_frame (item : Item) (st st' : Asm) :
  glueStep breaks item st = Ok st' -> sameFrame st st'.
Proof.
  unfold glueStep. intros H. apply rbind_Ok in H as (br & _ & H).
  apply rbind_Ok in H as (spans & _ & H). simpl in H.
  destruct (0 <? len spans)%Z.
  - apply rbind_Ok in H as (gs & _ & H). apply rbind_Ok in H as (ls & Hls & H).
    inversion H; subst; clear H. apply appendGlyphText_length in Hls.
    by repeat split.
  - inversion H; subst. by repeat split.
Qed.

Lemma hyphenate_frame (st st' : Asm) :
  hyphenate E st = Ok st' -> sameFrame st st' /\ a_i st' = a_i st.
Proof.
  unfold hyphenate. intros H. apply rbind_Ok in H as (spans & _ & H).
  apply rbind_Ok in H as (sp & _ & H). destruct (Span_Face sp) as [f|]; [|done].
  apply rbind_Ok in H as (gl & _ & H). apply rbind_Ok in H as (spans' & _ & H).
  apply rbind_Ok in H as (ls & Hls & H). inversion H; subst; clear H.
  apply setSpansAt_length in Hls. by repeat split.
Qed.

Lemma breakPrepare_frame (item : Item) (st st' : Asm) :
  breakPrepare E item st = Ok st' -> sameFrame st st' /\ a_i st' = a_i st.
Proof.
  unfold breakPrepare. intros H. apply rbind_Ok in H as (spans & _ & H).
  destruct (0 <? len spans)%Z; [|inversion H; subst; by repeat split].
  apply rbind_Ok in H as (gs & _ & H). apply rbind_Ok in H as (ls & Hls & H).
  apply rbind_Ok in H as (soft & _ & H). apply appendGlyphText_length in Hls.
  destruct soft.
  - apply hyphenate_frame in H as [(H1 & H2 & H3 & H4) H5]. simpl in *.
    repeat split; congruence.
  - inversion H; subst. by repeat split.
Qed.

End Frame.





(** ** The receiver of ToText *)

(** Every function of the computation on the store returns what the
    function of the same name reads off the rich text, and leaves the store
    as it was. *)
Section ReceiverKept.
Variable E : Env.

Ltac rx := unfold Receiver.faceAt, Receiver.objectAt;
           unfold Receiver.bind, Receiver.lift, Receiver.get, Receiver.ret.

Lemma appendItems_pure (curFace : Z) (items : list ScriptItem) :
  forall (texts : list gostring) (scripts : list Script) (fs : list FontFacePtr)
         (rt : RichText) (face : FontFacePtr),
    idx (faces rt) curFace = Ok face ->
    Receiver.appendItems curFace items (texts, scripts, fs) rt
    = Ok ((texts ++ map ScriptItem_Text items,
           scripts ++ map ScriptItem_Script items,
           fs ++ map (fun _ => face) items), rt).
Proof.
  induction items as [|item items IH]; intros texts scripts fs rt face Hf;
    cbn [Receiver.appendItems map].
  - rx. by rewrite !app_nil_r.
  - rx. rewrite Hf. rewrite (IH _ _ _ _ face Hf). by rewrite <- !app_assoc.
Qed.

Lemma appendRuns_pure (logRunes : list rune) (embeddingLevels : list Z)
    (curFace i j : Z) (runs : Runs) (rt : RichText) :
  Receiver.appendRuns E logRunes embeddingLevels curFace i j runs rt
  = Receiver.lift (appendRuns E rt logRunes embeddingLevels curFace i j runs) rt.
Proof.
  destruct runs as [[texts scripts] fs]. unfold Receiver.appendRuns, appendRuns. rx.
  destruct (idx (faces rt) curFace) as [face|] eqn:Hf; [|done]. cbn [rbind].
  destruct face as [f|].
  - destruct (slice logRunes i j) as [rs|]; [|done]. cbn [rbind].
    destruct (slice embeddingLevels i j) as [ls|]; [|done]. cbn [rbind].
    destruct (ScriptItemizer _ rs ls) as [items|]; [|done]. cbn [rbind].
    by rewrite (appendItems_pure _ _ _ _ _ _ _ Hf).
  - destruct (slice logRunes i j) as [rs|]; done.
Qed.

Lemma faceLoop_pure (logRunes : list rune) (embeddingLevels : list Z) (n : nat) :
  forall (j i curFace : Z) (runs : Runs) (rt : RichText),
    Receiver.faceLoop E logRunes embeddingLevels n j i curFace runs rt
    = Receiver.lift (faceLoop E rt logRunes embeddingLevels n j i curFace runs) rt.
Proof.
  induction n as [|n IH]; intros j i curFace runs rt;
    cbn [Receiver.faceLoop faceLoop]; [done|].
  unfold Receiver.bind at 1. unfold Receiver.get at 1.
  destruct (negb (index (locs rt) j =? curFace)%Z).
  - unfold Receiver.bind. rewrite appendRuns_pure. unfold Receiver.lift at 1.
    destruct (appendRuns E rt logRunes embeddingLevels curFace i j runs) as [runs'|];
      [|done].
    cbn [rbind]. apply IH.
  - apply IH.
Qed.

Lemma itemizeFaces_pure (logRunes : list rune) (embeddingLevels : list Z)
    (rt : RichText) :
  Receiver.itemizeFaces E logRunes embeddingLevels rt
  = Receiver.lift (itemizeFaces E rt logRunes embeddingLevels) rt.
Proof.
  unfold Receiver.itemizeFaces, itemizeFaces. unfold Receiver.bind.
  rewrite faceLoop_pure. unfold Receiver.lift at 1.
  destruct (faceLoop E rt logRunes embeddingLevels _ _ _ _ _) as [[[i curFace] runs]|];
    [|done].
  cbn [rbind]. destruct (i <? len logRunes)%Z; [apply appendRuns_pure|done].
Qed.

Lemma objectGlyph_pure (script : Script) (clusterOffset i : Z) (r : rune)
    (rt : RichText) :
  Receiver.objectGlyph E script clusterOffset i r rt
  = Receiver.lift (objectGlyph E rt script clusterOffset i r) rt.
Proof.
  unfold Receiver.objectGlyph, objectGlyph. rx.
  destruct (idx (objects rt) r) as [obj|]; [|done]. cbn [rbind].
  destruct (defaultFace rt) as [df|]; done.
Qed.

Lemma objectGlyphs_pure (script : Script) (clusterOffset : Z) (rs : list (Z * rune))
    (rt : RichText) :
  Receiver.objectGlyphs E script clusterOffset rs rt
  = Receiver.lift (objectGlyphs E rt script clusterOffset rs) rt.
Proof.
  induction rs as [|[i r] rs IH]; cbn [Receiver.objectGlyphs objectGlyphs]; [done|].
  unfold Receiver.bind. rewrite objectGlyph_pure. unfold Receiver.lift at 1.
  destruct (objectGlyph E rt script clusterOffset i r) as [g|]; [|done]. cbn [rbind].
  rewrite IH. unfold Receiver.lift at 1.
  destruct (objectGlyphs E rt script clusterOffset rs) as [gs|]; done.
Qed.

Lemma tagGlyph_pure (f : nat) (script : Script) (direction : Direction)
    (rotation : Rotation) (clusterOffset : Z) (g : Glyph) (rt : RichText) :
  Receiver.tagGlyph E f script direction rotation clusterOffset g rt
  = Ok (tagGlyph E rt f script direction rotation clusterOffset g, rt).
Proof.
  unfold Receiver.tagGlyph, tagGlyph. rx.
  destruct (negb (bool_decide (mode rt = HorizontalTB))); [|done].
  destruct (bool_decide (script = Mongolian)); [done|].
  destruct (fneq rotation NoRotation); [done|].
  destruct (bool_decide (orient rt = Upright) && (rotation =? NoRotation)
            && negb (IsVerticalScript script)); done.
Qed.

Lemma tagGlyphs_pure (f : nat) (script : Script) (direction : Direction)
    (rotation : Rotation) (clusterOffset : Z) (gs : list Glyph) (rt : RichText) :
  Receiver.tagGlyphs E f script direction rotation clusterOffset gs rt
  = Ok (map (tagGlyph E rt f script direction rotation clusterOffset) gs, rt).
Proof.
  induction gs as [|g gs IH]; cbn [Receiver.tagGlyphs map]; [done|].
  unfold Receiver.bind. rewrite tagGlyph_pure, IH. done.
Qed.

Lemma shapeRun_pure (text : gostring) (face : FontFacePtr) (script : Script)
    (clusterOffset : Z) (rt : RichText) :
  Receiver.shapeRun E text face script clusterOffset rt
  = Receiver.lift (shapeRun E rt text face script clusterOffset) rt.
Proof.
  unfold Receiver.shapeRun, shapeRun. destruct face as [f|].
  - unfold Receiver.bind at 1 2. unfold Receiver.get.
    destruct (scriptDirection _ _ _ _) as [direction rotation].
    destruct (Shape E f text _ direction script) as [glyphsString direction'].
    unfold Receiver.bind. rewrite tagGlyphs_pure. done.
  - unfold Receiver.bind. rewrite objectGlyphs_pure. unfold Receiver.lift at 1.
    destruct (objectGlyphs E rt script clusterOffset (rangeString text)); done.
Qed.

Lemma shapeStep_pure (text : gostring) (face : FontFacePtr) (script : Script)
    (st : Shaped) (rt : RichText) :
  Receiver.shapeStep E text face script st rt
  = Receiver.lift (shapeStep E rt text face script st) rt.
Proof.
  unfold Receiver.shapeStep, shapeStep. unfold Receiver.bind.
  rewrite shapeRun_pure. unfold Receiver.lift at 1.
  destruct (shapeRun E rt text face script _) as [[[gs d] r]|]; done.
Qed.

Lemma shapeLoop_pure (texts : list gostring) :
  forall (scripts : list Script) (fs : list FontFacePtr) (st : Shaped) (rt : RichText),
    Receiver.shapeLoop E texts scripts fs st rt
    = Receiver.lift (shapeLoop E rt texts scripts fs st) rt.
Proof.
  induction texts as [|text texts IH]; intros scripts fs st rt;
    cbn [Receiver.shapeLoop shapeLoop]; [done|].
  destruct scripts as [|script scripts]; [done|]. destruct fs as [|face fs]; [done|].
  unfold Receiver.bind. rewrite shapeStep_pure. unfold Receiver.lift at 1.
  destruct (shapeStep E rt text face script st) as [st'|]; [|done]. cbn [rbind].
  apply IH.
Qed.

Lemma swapAxes_pure (width height : float) (halign valign : TextAlign)
    (rt : RichText) :
  Receiver.swapAxes width height halign valign rt
  = Ok (swapAxes rt width height halign valign, rt).
Proof.
  unfold Receiver.swapAxes, swapAxes. rx.
  destruct (negb (bool_decide (mode rt = HorizontalTB))); done.
Qed.

Section Assemble.
Variable log : gostring.
Variable fs : list FontFacePtr.
Variable gix : indexer.
Variable dirs : list Direction.
Variable rots : list Rotation.
Variable items : list Item.
Variable breaks : list Breakpoint.
Variables width height : float.
Variable halign : TextAlign.
Variable lineSpacing : float.

Lemma breakHeights_pure (st : Asm) (rt : RichText) :
  Receiver.breakHeights E fs gix lineSpacing st rt
  = Receiver.lift (breakHeights E rt fs gix lineSpacing st) rt.
Proof.
  unfold Receiver.breakHeights, breakHeights. rx.
  destruct (spansAt (a_lines st) (a_j st)) as [spans|]; [|done]. cbn [rbind].
  destruct (len spans =? 0)%Z.
  - destruct (idx fs _) as [face|]; [|done]. cbn [rbind].
    destruct (heightsOf E face (mode rt)) as [[[[t a] d] b]|]; done.
  - destruct (idx (a_lines st) (a_j st)) as [l|]; [|done]. cbn [rbind].
    destruct (line_Heights E l (mode rt)) as [[[[t a] d] b]|]; done.
Qed.

Lemma breakStep_pure (position : Z) (item : Item) (st : Asm) (rt : RichText) :
  Receiver.breakStep E log fs gix items breaks width height halign lineSpacing
    position item st rt
  = Receiver.lift
      (breakStep E rt log fs gix items breaks width height halign lineSpacing
         position item st) rt.
Proof.
  unfold Receiver.breakStep, breakStep. unfold Receiver.bind at 1.
  unfold Receiver.lift at 1.
  destruct (breakPrepare E item st) as [st1|]; [|done]. cbn [rbind].
  unfold Receiver.bind at 1. rewrite breakHeights_pure. unfold Receiver.lift at 1.
  destruct (breakHeights E rt fs gix lineSpacing st1) as [[[ascent descent] bottom]|];
    [|done].
  cbn [rbind]. rx.
  destruct (lineOverflows height st1 ascent descent).
  - destruct (slice (a_lines st1) 0 _) as [ls|]; [|done]. cbn [rbind].
    destruct (0 <? a_j st1)%Z; [|done].
    destruct (idx (a_glyphs st1) (a_i st1)) as [g|]; [|done]. cbn [rbind].
    destruct (slice log 0 (Glyph_Cluster g)); done.
  - destruct (idx (a_lines st1) (a_j st1)) as [l|]; [|done]. cbn [rbind].
    destruct (setidx _ _ _) as [ls|]; [|done]. cbn [rbind].
    destruct (position =? len items - 1)%Z; [done|].
    destruct (lineStart _ _ _ _ _); done.
Qed.

Lemma spanObjects_pure (gs : list Glyph) :
  forall (w : float) (objs : list TextSpanObject) (rt : RichText),
    Receiver.spanObjects gs w objs rt = Receiver.lift (spanObjects rt gs w objs) rt.
Proof.
  induction gs as [|glyph gs IH]; intros w objs rt;
    cbn [Receiver.spanObjects spanObjects]; [done|].
  unfold Receiver.bind at 1. unfold Receiver.objectAt, Receiver.bind at 1.
  unfold Receiver.get at 1. unfold Receiver.lift at 1.
  destruct (idx (objects rt) (Glyph_ID glyph)) as [obj|]; [|done]. cbn [rbind].
  unfold Receiver.bind at 1. unfold Receiver.get at 1.
  destruct (bool_decide (mode rt = HorizontalTB)); apply IH.
Qed.

Lemma spanStep_pure (j : Z) (x : float) (b nextK : Z) (st : BoxSt) (rt : RichText) :
  Receiver.spanStep E log fs dirs rots j x b nextK st rt
  = Receiver.lift (spanStep E rt log fs dirs rots j x b nextK st) rt.
Proof.
  unfold Receiver.spanStep, spanStep.
  unfold Receiver.bind at 1. unfold Receiver.lift at 1.
  destruct (idx fs (b_k st)) as [face|]; [|done]. cbn [rbind].
  unfold Receiver.bind at 1. unfold Receiver.lift at 1.
  destruct (idx (b_glyphs st) (b_a st)) as [ga|]; [|done]. cbn [rbind].
  unfold Receiver.bind at 1. unfold Receiver.lift at 1.
  destruct (idx (b_glyphs st) b) as [gb|]; [|done]. cbn [rbind].
  unfold Receiver.bind at 1. unfold Receiver.lift at 1.
  destruct (slice (b_glyphs st) (b_a st) b) as [gsab|]; [|done]. cbn [rbind].
  unfold Receiver.bind at 1.
  assert (forall (r : result (FontFacePtr * float * list TextSpanObject * gset nat))
                 (m : Receiver.M (FontFacePtr * float * list TextSpanObject * gset nat)),
            m rt = Receiver.lift r rt ->
            forall (k : _ -> Receiver.M BoxSt) (k' : _ -> result BoxSt),
              (forall a, k a rt = Receiver.lift (k' a) rt) ->
              match m rt with
              | Ok (a, rt') => k a rt'
              | Panic => Panic
              end = Receiver.lift (rbind r k') rt) as Hbind.
  { intros r m Hm k k' Hk. rewrite Hm. unfold Receiver.lift at 1.
    destruct r as [a|]; [|done]. cbn [rbind]. apply Hk. }
  apply Hbind.
  - destruct face as [f|]; [done|].
    unfold Receiver.bind at 1. unfold Receiver.lift at 1.
    destruct (spansAt (b_lines st) j) as [spans|]; [|done]. cbn [rbind].
    unfold Receiver.bind at 1.
    destruct (0 <? len spans)%Z.
    + unfold Receiver.bind at 1. unfold Receiver.lift at 1.
      destruct (idx spans (len spans - 1)) as [sp|]; [|done]. cbn [rbind].
      unfold Receiver.ret at 1. unfold Receiver.bind. rewrite spanObjects_pure.
      unfold Receiver.lift at 1.
      destruct (spanObjects rt gsab 0 []) as [[w objs]|]; done.
    + unfold Receiver.get at 1. unfold Receiver.bind. rewrite spanObjects_pure.
      unfold Receiver.lift at 1. cbn [rbind].
      destruct (spanObjects rt gsab 0 []) as [[w objs]|]; done.
  - intros [[[face' w] objs] fonts]. rx.
    destruct (idx dirs (b_k st)) as [dk|]; [|done]. cbn [rbind].
    destruct (slice log _ _) as [s|]; [|done]. cbn [rbind].
    destruct (idx rots (b_k st)) as [rk|]; [|done]. cbn [rbind].
    destruct (slice _ (b_a st) b) as [gsab'|]; [|done]. cbn [rbind].
    destruct (spansAt (b_lines st) j) as [spans|]; [|done]. cbn [rbind].
    destruct (if isRTL dk then _ else _) as [spans'|]; [|done]. cbn [rbind].
    destruct (setSpansAt _ _ _); done.
Qed.

Lemma boxLoop_pure (n : nat) :
  forall (j : Z) (x : float) (iend b : Z) (st : BoxSt) (rt : RichText),
    Receiver.boxLoop E log fs gix dirs rots n j x iend b st rt
    = Receiver.lift (boxLoop E rt log fs gix dirs rots n j x iend b st) rt.
Proof.
  induction n as [|n IH]; intros j x iend b st rt;
    cbn [Receiver.boxLoop boxLoop]; [done|].
  unfold Receiver.bind.
  destruct (negb (index gix b =? b_k st)%Z || (b =? iend)%Z).
  - rewrite spanStep_pure. unfold Receiver.lift at 1.
    destruct (spanStep E rt log fs dirs rots j x b _ st) as [st'|]; [|done].
    cbn [rbind]. apply IH.
  - unfold Receiver.ret. cbn [rbind]. apply IH.
Qed.

Lemma boxStep_pure (item : Item) (st : Asm) (rt : RichText) :
  Receiver.boxStep E log fs gix dirs rots item st rt
  = Receiver.lift (boxStep E rt log fs gix dirs rots item st) rt.
Proof.
  unfold Receiver.boxStep, boxStep. unfold Receiver.bind. rewrite boxLoop_pure.
  unfold Receiver.lift at 1.
  destruct (boxLoop E rt log fs gix dirs rots _ _ _ _ _ _) as [bst|]; done.
Qed.

Lemma asmLoop_pure (its : list Item) :
  forall (position : Z) (st : Asm) (rt : RichText),
    Receiver.asmLoop E log fs gix dirs rots items breaks width height halign
      lineSpacing its position st rt
    = Receiver.lift
        (asmLoop E rt log fs gix dirs rots items breaks width height halign
           lineSpacing its position st) rt.
Proof.
  induction its as [|item its IH]; intros position st rt;
    cbn [Receiver.asmLoop asmLoop]; [done|].
  unfold Receiver.bind at 1. unfold Receiver.lift at 1.
  destruct (idx breaks (a_j st)) as [br|]; [|done]. cbn [rbind].
  destruct (position =? Break_Position br)%Z.
  { unfold Receiver.bind. rewrite breakStep_pure. unfold Receiver.lift at 1.
    destruct (breakStep E rt log fs gix items breaks width height halign lineSpacing
                position item st) as [[st' c]|]; [|done].
    cbn [rbind]. destruct c; [apply IH|done]. }
  destruct (isType BoxType item).
  { unfold Receiver.bind. rewrite boxStep_pure. unfold Receiver.lift at 1.
    destruct (boxStep E rt log fs gix dirs rots item st) as [st'|]; [|done].
    cbn [rbind]. apply IH. }
  destruct (isType GlueType item).
  { unfold Receiver.bind. unfold Receiver.lift at 1.
    destruct (glueStep breaks item st) as [st'|]; [|done]. cbn [rbind]. apply IH. }
  apply IH.
Qed.
End Assemble.

Lemma alignLines_pure (ls : list line) (height y : float) (valign : TextAlign)
    (rt : RichText) :
  Receiver.alignLines ls height y valign rt
  = Ok (alignLines rt ls height y valign, rt).
Proof.
  unfold Receiver.alignLines, alignLines. rx.
  destruct (bool_decide (mode rt = VerticalRL)); done.
Qed.

Lemma buildLines_pure (log : gostring) (fs : list FontFacePtr) (sh : Shaped)
    (items : list Item) (breaks : list Breakpoint) (width height : float)
    (halign valign : TextAlign) (lineStretch : float) (overflows : bool)
    (rt : RichText) :
  Receiver.buildLines E log fs sh items breaks width height halign valign
    lineStretch overflows rt
  = Receiver.lift
      (buildLines E rt log fs sh items breaks width height halign valign
         lineStretch overflows) rt.
Proof.
  unfold Receiver.buildLines, buildLines.
  unfold Receiver.bind at 1 2 3. unfold Receiver.get at 1 2. unfold Receiver.lift at 1.
  destruct (lineStart breaks width halign 0 0) as [x|]; [|done]. cbn [rbind].
  unfold Receiver.bind at 1. rewrite asmLoop_pure. unfold Receiver.lift at 1.
  destruct (asmLoop E rt log fs _ _ _ items breaks width height halign _ items 0 _)
    as [st|]; [|done].
  cbn [rbind]. unfold Receiver.bind at 1.
  destruct (0 <? a_j st)%Z.
  - unfold Receiver.bind at 1. unfold Receiver.lift at 1.
    destruct (idx (a_lines st) (a_j st - 1)) as [l|]; [|done]. cbn [rbind].
    unfold Receiver.bind at 1 2. unfold Receiver.get at 1. unfold Receiver.lift at 1.
    destruct (line_Heights E l (mode rt)) as [[[[t a] d] b]|]; [|done]. cbn [rbind].
    unfold Receiver.ret at 1. unfold Receiver.bind. rewrite alignLines_pure. done.
  - unfold Receiver.ret at 1. unfold Receiver.bind. rewrite alignLines_pure. done.
Qed.
End ReceiverKept.

Lemma bind_Ok {A B : Type} (m : Receiver.M A) (k : A -> Receiver.M B)
    (rt rt2 : RichText) (b : B) :
  Receiver.bind m k rt = Ok (b, rt2) ->
  exists a rt1, m rt = Ok (a, rt1) /\ k a rt1 = Ok (b, rt2).
Proof.
  unfold Receiver.bind. destruct (m rt) as [[a rt1]|]; [|done]. intros H. by exists a, rt1.
Qed.

Lemma lift_Ok {A : Type} (r : result A) (rt rt1 : RichText) (a : A) :
  Receiver.lift r rt = Ok (a, rt1) -> r = Ok a /\ rt1 = rt.
Proof. unfold Receiver.lift. destruct r; [|done]. intros [= -> ->]. done. Qed.

(** A method that writes leaves another state: the computations on the
    store are not bound to return the state they were given. *)
Lemma SetWritingMode_writes :
  exists rt',
    Receiver.SetWritingMode VerticalRL richAbcd = Ok (tt, rt')
    /\ mode rt' = VerticalRL /\ mode richAbcd = HorizontalTB.
Proof. eexists. repeat split. Qed.

(** The computation on the store returns what [ToText] reads off the rich
    text, and panics when it does. *)
Lemma ToText_receiver (E : Env) (width height : float) (halign valign : TextAlign)
    (indent lineStretch : float) (rt : RichText) :
  Receiver.ToText E width height halign valign indent lineStretch rt
  = ToText E width height halign valign indent lineStretch rt.
Proof.
  unfold Receiver.ToText, ToText.
  unfold Receiver.bind at 1. unfold Receiver.get at 1.
  unfold Receiver.bind at 1. rewrite itemizeFaces_pure. unfold Receiver.lift at 1.
  destruct (itemizeFaces E rt _ _) as [[[texts scripts] fs]|]; [|done]. cbn [rbind].
  unfold Receiver.bind at 1. rewrite shapeLoop_pure. unfold Receiver.lift at 1.
  destruct (shapeLoop E rt texts scripts fs _) as [sh|]; [|done]. cbn [rbind].
  unfold Receiver.bind at 1. rewrite swapAxes_pure.
  destruct (swapAxes rt width height halign valign) as [[[w h] ha] va].
  destruct (breakLines E _ w) as [breaks overflows].
  unfold Receiver.bind at 1. unfold Receiver.lift at 1.
  destruct (coalesce _ breaks) as [[items breaks']|]; [|done]. cbn [rbind].
  rewrite buildLines_pure. unfold Receiver.lift.
  destruct (buildLines E rt _ fs sh items breaks' w h ha va lineStretch overflows); done.
Qed.

(** C9.  [ToText] leaves its receiver as it found it: when the call returns,
    the buffer, the offsets, the faces, the objects, the default face, the
    writing mode and the text orientation of the rich text are what they
    were before the call, whatever the arguments. *)
Theorem ToText_keeps_receiver (E : Env) (width height : float)
    (halign valign : TextAlign) (indent lineStretch : float)
    (rt rt' : RichText) (t : Text) :
  Receiver.ToText E width height halign valign indent lineStretch rt = Ok (t, rt') ->
  Builder rt' = Builder rt /\ locs rt' = locs rt /\ faces rt' = faces rt
  /\ objects rt' = objects rt /\ defaultFace rt' = defaultFace rt
  /\ mode rt' = mode rt /\ orient rt' = orient rt.
Proof.
  unfold Receiver.ToText. intros H.
  apply bind_Ok in H as (log & rt1 & Hlog & H). injection Hlog as Hlog <-.
  apply bind_Ok in H as ([[texts scripts] fs] & rt2 & Hi & H).
  rewrite itemizeFaces_pure in Hi. apply lift_Ok in Hi as [_ ->].
  apply bind_Ok in H as (sh & rt3 & Hs & H).
  rewrite shapeLoop_pure in Hs. apply lift_Ok in Hs as [_ ->].
  apply bind_Ok in H as ([[[w h] ha] va] & rt4 & Hw & H).
  rewrite swapAxes_pure in Hw. injection Hw as _ <-.
  destruct (breakLines E _ w) as [breaks overflows].
  apply bind_Ok in H as ([items breaks'] & rt5 & Hc & H).
  apply lift_Ok in Hc as [_ ->].
  rewrite buildLines_pure in H. apply lift_Ok in H as [_ ->]. done.
Qed.

(** The theorem at work on the rich text of "ab c", a line break, "d" and
    an embedded object. *)
Lemma ToText_keeps_receiver_witness :
  exists t rt',
    Receiver.ToText sampleEnv 100 0 Right Top 0 0 richAbcd = Ok (t, rt')
    /\ Builder rt' = [97; 98; 32; 99; 10; 100; 0]%Z
    /\ locs rt' = [0; 3; 6; 7]%Z
    /\ faces rt' = [Some 0%nat; Some 2%nat; None; Some 2%nat]
    /\ objects rt' = [mkTextSpanObject (Some 7%nat) 0 0 20 10 Baseline]
    /\ defaultFace rt' = Some 0%nat
    /\ mode rt' = HorizontalTB /\ orient rt' = Natural.
Proof.
  eexists _, _. split; [vm_compute; reflexivity|].
  eapply (ToText_keeps_receiver sampleEnv 100 0 Right Top 0 0 richAbcd).
  vm_compute. reflexivity.
Defined.

(** ** Reversal of a range *)

Lemma swap_ends {A : Type} (pre mid post : list A) (x y : A) :
  swap (length pre) (length pre + S (length mid)) (pre ++ x :: mid ++ y :: post)
  = pre ++ y :: mid ++ x :: post.
Proof.
  unfold swap.
  assert ((pre ++ x :: mid ++ y :: post) !! length pre = Some x) as ->.
  { rewrite lookup_app_r by lia. by rewrite Nat.sub_diag. }
  assert ((pre ++ x :: mid ++ y :: post) !! (length pre + S (length mid))%nat = Some y) as ->.
  { rewrite lookup_app_r by lia.
    replace (length pre + S (length mid) - length pre)%nat with (S (length mid)) by lia.
    simpl. rewrite lookup_app_r by lia. by rewrite Nat.sub_diag. }
  rewrite insert_app_r. simpl.
  replace (length mid) with (length mid + 0)%nat at 1 by lia.
  rewrite insert_app_r. simpl.
  replace (length pre) with (length pre + 0)%nat at 1 by lia.
  by rewrite insert_app_r.
Qed.

Lemma list_ends {A : Type} (l : list A) :
  (2 <= length l)%nat -> exists x mid y, l = x :: mid ++ [y].
Proof.
  destruct l as [|x l]; simpl; [lia|]. intros Hl.
  destruct (decide (l = [])) as [->|Hne]; [simpl in Hl; lia|].
  destruct (exists_last Hne) as (mid & y & ->). by exists x, mid, y.
Qed.

Lemma swapLoop_reverse {A : Type} (n : nat) :
  forall pre mid post : list A,
    n = (length mid / 2)%nat ->
    swapLoop n (length pre) (Nat.pred (length pre + length mid)) (pre ++ mid ++ post)
    = pre ++ reverse mid ++ post.
Proof.
  induction n as [|n IH]; intros pre mid post Hn; simpl.
  - destruct mid as [|x [|y mid]]; [done|done|].
    replace (length (x :: y :: mid)) with (length mid + 1 * 2)%nat in Hn
      by (cbn [length]; lia).
    rewrite Nat.div_add in Hn by lia.
    set (q := (length mid / 2)%nat) in *. lia.
  - destruct (list_ends mid) as (x & mid' & y & ->).
    { destruct mid as [|x [|y mid]]; [discriminate|discriminate|cbn [length]; lia]. }
    cbn [app length]. rewrite length_app. cbn [length].
    replace (Nat.pred (length pre + S (length mid' + 1)))
      with (length pre + S (length mid'))%nat by lia.
    rewrite <- app_assoc. simpl. rewrite swap_ends.
    specialize (IH (pre ++ [y]) mid' (x :: post)).
    rewrite length_app in IH. cbn [app length] in IH.
    replace (S (length pre)) with (length pre + 1)%nat by lia.
    replace (Nat.pred (length pre + S (length mid')))
      with (Nat.pred (length pre + 1 + length mid')) by lia.
    rewrite <- !app_assoc in IH. cbn [app length] in IH. rewrite IH.
    + rewrite reverse_cons, reverse_app. simpl. by rewrite <- !app_assoc.
    + replace (length (x :: mid' ++ [y])) with (length mid' + 1 * 2)%nat in Hn
        by (cbn [length]; rewrite length_app; cbn [length]; lia).
      rewrite Nat.div_add in Hn by lia.
      set (q := (length mid' / 2)%nat) in *. lia.
Qed.

(** The swap loop reverses the range and leaves the rest alone. *)
Lemma reverseRange_reverse {A : Type} (pre mid post : list A) :
  reverseRange (length pre) (length pre + length mid) (pre ++ mid ++ post)
  = pre ++ reverse mid ++ post.
Proof.
  unfold reverseRange. apply swapLoop_reverse. f_equal. lia.
Qed.


(** ** The spans of a box *)




Section Box.
Variable E : Env.
Variable rt : RichText.
Variable log : gostring.
Variable fs : list FontFacePtr.
Variable gix : indexer.
Variable dirs : list Direction.
Variable rots : list Rotation.

End Box.

Lemma reverseRange_slices {A : Type} (a b : nat) (l : list A) :
  (a <= b <= length l)%nat ->
  reverseRange a b l = take a l ++ reverse (take (b - a) (drop a l)) ++ drop b l.
Proof.
  intros Hab.
  assert (l = take a l ++ take (b - a) (drop a l) ++ drop b l) as Hl.
  { rewrite <- (take_drop a l) at 1. f_equal.
    rewrite <- (take_drop (b - a) (drop a l)) at 1. f_equal.
    rewrite drop_drop. f_equal. lia. }
  rewrite Hl at 1.
  replace a with (length (take a l)) at 1 by (rewrite length_take; lia).
  replace b with (length (take a l) + length (take (b - a) (drop a l)))%nat at 1
    by (rewrite !length_take, length_drop; lia).
  apply reverseRange_reverse.
Qed.

(** Reversing a range leaves what follows it in place. *)
Lemma reverseRange_drop {A : Type} (a b n : nat) (l : list A) :
  (a <= b <= length l)%nat -> (b <= n)%nat ->
  drop n (reverseRange a b l) = drop n l.
Proof.
  intros Hab Hn. rewrite reverseRange_slices by done.
  rewrite app_assoc, drop_app_ge;
    rewrite length_app, length_reverse, !length_take, length_drop; [|lia].
  rewrite drop_drop. f_equal. lia.
Qed.

Lemma reverseRange_length {A : Type} (a b : nat) (l : list A) :
  (a <= b <= length l)%nat -> length (reverseRange a b l) = length l.
Proof.
  intros Hab. rewrite reverseRange_slices by done.
  rewrite !length_app, length_reverse, !length_take, !length_drop. lia.
Qed.

(** Reversing a range reverses the slice on that range. *)
Lemma reverseRange_slice {A : Type} (a b : nat) (l : list A) :
  (a <= b <= length l)%nat ->
  take (b - a) (drop a (reverseRange a b l)) = reverse (take (b - a) (drop a l)).
Proof.
  intros Hab. rewrite reverseRange_slices by done.
  rewrite drop_app_length' by (rewrite length_take; lia).
  rewrite take_app_length'; [done|].
  rewrite length_reverse, length_take, length_drop. lia.
Qed.

Section Run.
Variable E : Env.
Variable rt : RichText.
Variable log : gostring.
Variable fs : list FontFacePtr.
Variable gix : indexer.
Variable dirs : list Direction.
Variable rots : list Rotation.
Variable j : Z.
Variable x : float.
Variables i iend : Z.
(* the run: its index, its glyph range, its direction, its glyphs as shaped *)
Variable k : Z.
Variables s e : Z.
Variable d : Direction.
Variable shaped : list Glyph.

Hypothesis Hd : idx dirs k = Ok d.
Hypothesis Hrange : (0 <= i <= s)%Z /\ (s < e <= iend)%Z.
Hypothesis Hin : forall b, (s <= b < e)%Z -> index gix b = k.
Hypothesis Hbefore : forall b, (i <= b < s)%Z -> index gix b <> k.
Hypothesis Hend : e = iend \/ index gix e <> k.



End Run.






(** * Further properties of the code *)

(** X1.  Every script that [ScriptRotation] rotates (Mongolian and Phags-pa
    clockwise, Ogham and Old Turkic counter-clockwise) is one that
    [IsVerticalScript] accepts: a rotation other than [NoRotation] is only
    given to a vertical script. *)
Theorem rotated_scripts_are_vertical (script : Script) :
  fneq (ScriptRotation script) NoRotation = true -> IsVerticalScript script = true.
Proof.
  destruct script; try (vm_compute; congruence).
Qed.

Lemma rotated_scripts_are_vertical_witness :
  fneq (ScriptRotation Ogham) NoRotation = true /\ IsVerticalScript Ogham = true.
Proof.
  split; [reflexivity|]. apply rotated_scripts_are_vertical. reflexivity.
Defined.

(** X2.  [Glyph.Rotation] is [NoRotation] exactly for a vertical glyph.  A
    glyph that is not vertical is rotated counter-clockwise when its script
    is Ogham or Old Turkic, and clockwise for every other script. *)
Theorem Glyph_Rotation_vertical (g : Glyph) :
  (Glyph_Rotation g =? NoRotation) = Glyph_Vertical g
  /\ Glyph_Rotation g =
     (if Glyph_Vertical g then NoRotation
      else if bool_decide (Glyph_Script g = Ogham)
              || bool_decide (Glyph_Script g = OldTurkic)
           then CCW else CW).
Proof.
  unfold Glyph_Rotation, ScriptRotation.
  destruct (Glyph_Vertical g); simpl; [split; reflexivity|].
  destruct (Glyph_Script g); split; reflexivity.
Qed.

(** X4.  The result of [scriptDirection], case by case.  In horizontal mode
    it never rotates: top-to-bottom and bottom-to-top become left-to-right,
    and any other direction is kept.  In a vertical mode a script that is
    not a vertical script is laid left-to-right and rotated clockwise when
    the orientation is [Natural]; otherwise Mongolian and Phags-pa are laid
    left-to-right rotated clockwise, Ogham and Old Turkic left-to-right
    rotated counter-clockwise, and every other script top-to-bottom without
    rotation, whatever the direction asked for. *)
Theorem scriptDirection_cases (mode : WritingMode) (orient : TextOrientation)
    (script : Script) (direction : Direction) :
  scriptDirection mode orient script direction =
  match mode with
  | HorizontalTB =>
    (match direction with
     | TopToBottom | BottomToTop => LeftToRight
     | _ => direction
     end, NoRotation)
  | _ =>
    if negb (IsVerticalScript script) && bool_decide (orient = Natural)
    then (LeftToRight, CW)
    else if bool_decide (script = Mongolian) || bool_decide (script = PhagsPa)
    then (LeftToRight, CW)
    else if bool_decide (script = Ogham) || bool_decide (script = OldTurkic)
    then (LeftToRight, CCW)
    else (TopToBottom, NoRotation)
  end.
Proof.
  assert (forall m : WritingMode, m <> HorizontalTB ->
            scriptDirection m orient script direction =
            if negb (IsVerticalScript script) && bool_decide (orient = Natural)
            then (LeftToRight, CW)
            else if bool_decide (script = Mongolian) || bool_decide (script = PhagsPa)
            then (LeftToRight, CW)
            else if bool_decide (script = Ogham) || bool_decide (script = OldTurkic)
            then (LeftToRight, CCW)
            else (TopToBottom, NoRotation)) as Hvert.
  { intros m Hm. unfold scriptDirection.
    rewrite (bool_decide_eq_false_2 (m = HorizontalTB)) by done. cbn [negb]. cbv iota.
    destruct (negb (IsVerticalScript script) && bool_decide (orient = Natural));
      [reflexivity|].
    unfold ScriptRotation.
    destruct (bool_decide (script = Mongolian) || bool_decide (script = PhagsPa));
      [reflexivity|].
    destruct (bool_decide (script = Ogham) || bool_decide (script = OldTurkic));
      [reflexivity|].
    change (fneq NoRotation NoRotation) with false. cbv iota.
    destruct (bool_decide (direction = TopToBottom)
              || bool_decide (direction = BottomToTop)); reflexivity. }
  destruct mode.
  - unfold scriptDirection.
    rewrite (bool_decide_eq_true_2 (HorizontalTB = HorizontalTB)) by done.
    cbn [negb]. cbv iota. destruct direction; reflexivity.
  - apply Hvert. discriminate.
  - apply Hvert. discriminate.
Qed.

Local Open Scope Z_scope.

Lemma indexFrom_spec (ix : indexer) (loc : Z) :
  forall i : Z,
    let k := indexFrom ix i loc in
    i - 1 <= k < i + len ix
    /\ (forall (m : nat) (a : Z), i + Z.of_nat m <= k -> ix !! m = Some a -> a <= loc)
    /\ (forall b : Z, ix !! Z.to_nat (k + 1 - i) = Some b -> loc < b).
Proof.
  induction ix as [|start ix IH]; intros i; cbn [indexFrom].
  - unfold len. simpl. split; [lia|]. split; [intros m a _ H; done|intros b H; done].
  - destruct (Z.ltb_spec loc start) as [Hlt|Hge].
    + unfold len. cbn [length]. split; [lia|]. split.
      * intros m a Hm _. lia.
      * intros b. replace (i - 1 + 1 - i) with 0 by lia. simpl. intros [= <-]. done.
    + destruct (IH (i + 1)) as (Hr & Hle & Hgt). cbv zeta.
      unfold len in *. cbn [length]. split; [lia|]. split.
      * intros [|m] a Hm Hl; simpl in Hl.
        -- by inversion Hl; subst.
        -- apply (Hle m); [lia|done].
      * intros b Hb. apply Hgt.
        replace (Z.to_nat (indexFrom ix (i + 1) loc + 1 - i))
          with (S (Z.to_nat (indexFrom ix (i + 1) loc + 1 - (i + 1)))) in Hb by lia.
        done.
Qed.

(** X5.  [indexer.index] returns the position before the first entry that
    is above [loc]: the result is between -1 and the last position, every
    entry up to it is at most [loc], and the entry after it, when there is
    one, is above [loc].  So the result is -1 on an empty indexer and when
    [loc] is below the first entry. *)
Theorem index_spec (ix : indexer) (loc : Z) :
  let k := index ix loc in
  -1 <= k < len ix
  /\ (forall (m : nat) (a : Z), Z.of_nat m <= k -> ix !! m = Some a -> a <= loc)
  /\ (forall b : Z, ix !! Z.to_nat (k + 1) = Some b -> loc < b).
Proof.
  destruct (indexFrom_spec ix loc 0) as (Hr & Hle & Hgt). unfold index. cbv zeta.
  split; [lia|]. split.
  - intros m a Hm. apply Hle. lia.
  - intros b Hb. apply Hgt. by rewrite Z.sub_0_r.
Qed.

Lemma setFace_active (face : FontFacePtr) (rt rt' : RichText) :
  setFace face rt = Ok rt' -> last (faces rt') = Some face.
Proof.
  intros H. apply setFace_cases in H as [[H ->]|(_ & p & k & _ & _ & _ & ->)]; [done|].
  by rewrite last_snoc.
Qed.

Lemma setFace_same (face : FontFacePtr) (rt : RichText) :
  last (faces rt) = Some face -> setFace face rt = Ok rt.
Proof.
  intros H. unfold setFace.
  assert (faces rt <> []) as Hne by (intros E; rewrite E in H; done).
  destruct (idx_Ok (faces rt) (len (faces rt) - 1)) as (cur & -> & Hc).
  { apply nonempty_len in Hne. lia. }
  simpl. rewrite last_lookup in H.
  replace (Z.to_nat (len (faces rt) - 1)) with (pred (length (faces rt))) in Hc
    by (unfold len; lia).
  rewrite H in Hc. inversion Hc; subst. by rewrite bool_decide_eq_true_2.
Qed.

(** X6.  Adding two strings with the same face, one after the other, is
    adding their concatenation: the second [Add] finds its face active and
    only writes.  The two sides panic together (nil face, no faces). *)
Theorem Add_Add (face : FontFacePtr) (s1 s2 : gostring) (rt : RichText) :
  (let* rt1 := Add face s1 rt in Add face s2 rt1) = Add face (s1 ++ s2) rt.
Proof.
  unfold Add, SetFace. destruct face as [f|]; [|done].
  destruct (setFace (Some f) rt) as [rt1|] eqn:H; [|done]. simpl.
  rewrite (setFace_same (Some f) (WriteString s1 rt1)).
  - simpl. unfold WriteString, setBuilder. simpl. by rewrite app_assoc.
  - simpl. by eapply setFace_active.
Qed.

Local Open Scope float_scope.

Lemma justifyLines_spans (ls : list line) :
  forall dy ddy : float, map line_spans (justifyLines ls dy ddy) = map line_spans ls.
Proof. induction ls as [|l ls IH]; intros dy ddy; simpl; [done|]. by rewrite IH. Qed.

Lemma alignLines_spans (rt : RichText) (ls : list line) (height y : float)
    (valign : TextAlign) :
  map line_spans (alignLines rt ls height y valign) = map line_spans ls.
Proof.
  unfold alignLines.
  repeat match goal with
         | |- context [if ?c then _ else _] => destruct c
         end;
    rewrite ?map_map; simpl; rewrite ?justifyLines_spans, ?map_map; done.
Qed.

(** X15.  The vertical alignment at the end of [ToText] only moves lines:
    the spans of every line and the number of lines are what they were. *)
Theorem alignLines_keeps_spans (rt : RichText) (ls : list line) (height y : float)
    (valign : TextAlign) :
  map line_spans (alignLines rt ls height y valign) = map line_spans ls
  /\ length (alignLines rt ls height y valign) = length ls.
Proof.
  pose proof (alignLines_spans rt ls height y valign) as H. split; [done|].
  apply (f_equal length) in H. by rewrite !length_map in H.
Qed.

(** X13.  The in-place reversal of a range of a slice, which [ToText] runs
    on the glyphs of a right-to-left run after shaping and again when the
    span is built: done twice it gives the slice back, it permutes the slice,
    and it leaves what is before and what is after the range in place. *)
Theorem reverseRange_involutive {A : Type} (a b : nat) (l : list A) :
  (a <= b <= length l)%nat ->
  reverseRange a b (reverseRange a b l) = l
  /\ reverseRange a b l ≡ₚ l
  /\ take a (reverseRange a b l) = take a l
  /\ drop b (reverseRange a b l) = drop b l.
Proof.
  intros Hab.
  assert (l = take a l ++ take (b - a) (drop a l) ++ drop b l) as Hl.
  { rewrite <- (take_drop a l) at 1. f_equal.
    rewrite <- (take_drop (b - a) (drop a l)) at 1. f_equal.
    rewrite drop_drop. f_equal. lia. }
  split; [|split; [|split]].
  - rewrite (reverseRange_slices a b (reverseRange a b l))
      by (rewrite reverseRange_length; done).
    rewrite reverseRange_slice, reverseRange_drop by (done || lia).
    rewrite reverse_involutive.
    rewrite (reverseRange_slices a b l) by done.
    rewrite take_app_length' by (rewrite length_take; lia). by rewrite <- Hl.
  - rewrite reverseRange_slices by done. rewrite Hl at 4.
    by rewrite reverse_Permutation.
  - rewrite reverseRange_slices by done.
    by rewrite take_app_length' by (rewrite length_take; lia).
  - by apply reverseRange_drop.
Qed.

Lemma reverseRange_involutive_witness :
  reverseRange 1 4 (reverseRange 1 4 [1; 2; 3; 4; 5]%Z) = [1; 2; 3; 4; 5]%Z
  /\ reverseRange 1 4 [1; 2; 3; 4; 5]%Z ≡ₚ [1; 2; 3; 4; 5]%Z
  /\ take 1 (reverseRange 1 4 [1; 2; 3; 4; 5]%Z) = take 1 [1; 2; 3; 4; 5]%Z
  /\ drop 4 (reverseRange 1 4 [1; 2; 3; 4; 5]%Z) = drop 4 [1; 2; 3; 4; 5]%Z.
Proof. apply (reverseRange_involutive 1 4 [1; 2; 3; 4; 5]%Z). simpl. lia. Defined.

Local Open Scope Z_scope.

Lemma coalesceStep_breaks (st st' : Coalesce) :
  coalesceStep st = Ok st' -> length (c_breaks st') = length (c_breaks st).
Proof.
  unfold coalesceStep. intros H.
  apply rbind_Ok in H as (it & _ & H). apply rbind_Ok in H as (br & _ & H).
  repeat match type of H with
         | (if ?c then _ else _) = _ => destruct c
         end;
    try (apply rbind_Ok in H as (? & Hs & H));
    inversion H; subst; simpl; try done.
  apply setidx_inv in Hs as [_ ->]. by rewrite length_insert.
Qed.

Lemma coalesceStep_length (st st' : Coalesce) :
  (0 <= c_k st)%Z -> coalesceStep st = Ok st' ->
  (length (c_items st') <= length (c_items st))%nat.
Proof.
  intros Hk H. apply coalesceStep_shape in H; [|done].
  destruct H as [[-> _]|[(l1 & x & y & z & l2 & -> & -> & _)|(l1 & x & l2 & -> & -> & _)]];
    rewrite ?length_app; simpl; lia.
Qed.

Lemma coalesceLoop_lengths (fuel : nat) :
  forall st st' : Coalesce,
    (0 <= c_k st <= len (c_items st))%Z ->
    coalesceLoop fuel st = Some (Ok st') ->
    (length (c_items st') <= length (c_items st))%nat
    /\ length (c_breaks st') = length (c_breaks st).
Proof.
  induction fuel as [|fuel IH]; intros st st' Hk; simpl.
  - destruct (Z.leb_spec (len (c_items st)) (c_k st)); [|done].
    intros [= <-]. done.
  - destruct (Z.leb_spec (len (c_items st)) (c_k st)); [intros [= <-]; done|].
    destruct (coalesceStep st) as [st1|] eqn:Hs; [|done]. intros Hloop.
    pose proof (coalesceStep_breaks _ _ Hs) as Hb.
    assert (length (c_items st1) <= length (c_items st))%nat as Hl
      by (apply coalesceStep_length; [lia|done]).
    apply coalesceStep_measure in Hs as [Hk' _]; [|lia].
    apply IH in Hloop as [H1 H2]; [|done]. split; [lia|congruence].
Qed.

(** X14.  When the clean-up pass after line breaking completes, it has not
    added an item, and there are as many breakpoints as before. *)
Theorem coalesce_lengths (items items' : list Item) (breaks breaks' : list Breakpoint) :
  coalesce items breaks = Ok (items', breaks') ->
  (length items' <= length items)%nat /\ length breaks' = length breaks.
Proof.
  unfold coalesce, coalesceRun.
  destruct (coalesceLoop _ _) as [[st|]|] eqn:H; [|done|done]. intros [= <- <-].
  apply coalesceLoop_lengths in H.
  - unfold coalesceInit in H. destruct items as [|it items]; [done|].
    destruct (Item_Width it =? 0)%float; simpl in *; lia.
  - unfold coalesceInit. destruct items as [|it items]; [simpl; unfold len; simpl; lia|].
    destruct (Item_Width it =? 0)%float; simpl; unfold len; simpl; lia.
Qed.

Lemma coalesce_lengths_witness :
  exists items' breaks',
    coalesce itemsAbcd breaksAbcd = Ok (items', breaks')
    /\ (length items' <= length itemsAbcd)%nat /\ length breaks' = length breaksAbcd.
Proof.
  eexists _, _. split; [vm_compute; reflexivity|].
  eapply coalesce_lengths. vm_compute. reflexivity.
Defined.

Lemma land_disjoint (a b n : Z) :
  0 <= n -> 0 <= b < 2 ^ n -> a mod 2 ^ n = 0 -> Z.land a b = 0.
Proof.
  intros Hn Hb Ha. apply Z.bits_inj'. intros k Hk.
  rewrite Z.land_spec, Z.bits_0. destruct (Z.lt_ge_cases k n).
  - rewrite <- (Z.mod_pow2_bits_low a n k) by lia. by rewrite Ha, Z.bits_0.
  - rewrite <- (Z.mod_small b (2 ^ n)) by lia.
    rewrite (Z.mod_pow2_bits_high b n k) by lia. apply andb_false_r.
Qed.

Lemma lor_disjoint (a b n : Z) :
  0 <= n -> 0 <= b < 2 ^ n -> a mod 2 ^ n = 0 -> Z.lor a b = a + b.
Proof.
  intros Hn Hb Ha. pose proof (land_disjoint a b n Hn Hb Ha) as H.
  rewrite <- Z.lxor_lor by done. symmetry. by apply Z.add_nocarry_lxor.
Qed.

Lemma land_low (a n : Z) : 0 <= n -> Z.land a (2 ^ n - 1) = a mod 2 ^ n.
Proof.
  intros Hn. replace (2 ^ n - 1) with (Z.ones n) by (rewrite Z.ones_equiv; lia).
  by apply Z.land_ones.
Qed.


Lemma shiftr_div (a n : Z) : 0 <= n -> Z.shiftr a n = a / 2 ^ n.
Proof. intros. by apply Z.shiftr_div_pow2. Qed.

Lemma shiftl_mul (a n : Z) : 0 <= n -> Z.shiftl a n = a * 2 ^ n.
Proof. intros. by apply Z.shiftl_mul_pow2. Qed.

(** The bytes of a rune, in arithmetic. *)
Lemma encodeRune_bytes (r : rune) :
  ValidRune r = true ->
  encodeRune r =
    if r <=? 127 then [r]
    else if r <=? 2047 then [192 + r / 64; 128 + r mod 64]
    else if r <=? 65535 then [224 + r / 4096; 128 + r / 64 mod 64; 128 + r mod 64]
    else [240 + r / 262144; 128 + r / 4096 mod 64; 128 + r / 64 mod 64; 128 + r mod 64].
Proof.
  unfold ValidRune, MaxRune. intros Hv.
  assert (0 <= r <= 1114111 /\ ~ (55296 <= r <= 57343)) as [Hr Hs] by lia.
  unfold encodeRune. replace (uint32 r) with r by (unfold uint32; rewrite Z.mod_small; lia).
  cbv zeta. unfold MaxRune.
  destruct (Z.leb_spec r 127); [done|].
  change 63 with (2 ^ 6 - 1). rewrite !land_low by lia.
  rewrite !shiftr_div by lia. change (2 ^ 6) with 64. change (2 ^ 12) with 4096.
  change (2 ^ 18) with 262144.
  destruct (Z.leb_spec r 2047).
  { rewrite (lor_disjoint 192 (r / 64) 5) by (try done; Z.div_mod_to_equations; lia).
    rewrite (lor_disjoint 128 (r mod 64) 6) by (try done; Z.div_mod_to_equations; lia).
    done. }
  replace ((1114111 <? r) || (55296 <=? r) && (r <=? 57343)) with false by lia.
  destruct (Z.leb_spec r 65535).
  { rewrite (lor_disjoint 224 (r / 4096) 4) by (try done; Z.div_mod_to_equations; lia).
    rewrite (lor_disjoint 128 (r / 64 mod 64) 6) by (try done; Z.div_mod_to_equations; lia).
    rewrite (lor_disjoint 128 (r mod 64) 6) by (try done; Z.div_mod_to_equations; lia).
    done. }
  rewrite (lor_disjoint 240 (r / 262144) 3) by (try done; Z.div_mod_to_equations; lia).
  rewrite (lor_disjoint 128 (r / 4096 mod 64) 6) by (try done; Z.div_mod_to_equations; lia).
  rewrite (lor_disjoint 128 (r / 64 mod 64) 6) by (try done; Z.div_mod_to_equations; lia).
  rewrite (lor_disjoint 128 (r mod 64) 6) by (try done; Z.div_mod_to_equations; lia).
  done.
Qed.

Ltac cmp_lia :=
  repeat match goal with
         | |- context [(?a <? ?b)] => destruct (Z.ltb_spec a b); try (exfalso; lia)
         | |- context [(?a <=? ?b)] => destruct (Z.leb_spec a b); try (exfalso; lia)
         | |- context [(?a =? ?b)] => destruct (Z.eqb_spec a b); try (exfalso; lia)
         end.

Lemma decodeRune_1 (s0 : Z) (s : gostring) :
  s0 < 128 -> decodeRune (s0 :: s) = (s0, 1%nat).
Proof. intros H. unfold decodeRune. by cmp_lia. Qed.

Lemma decodeRune_2 (s0 s1 : Z) (s : gostring) :
  194 <= s0 <= 223 -> 128 <= s1 <= 191 ->
  decodeRune (s0 :: s1 :: s) = (s0 mod 32 * 64 + s1 mod 64, 2%nat).
Proof.
  intros H0 H1. unfold decodeRune, len. cbn [length].
  destruct (Z.ltb_spec s0 128); [lia|].
  replace ((s0 <? 194) || (244 <? s0)) with false by lia.
  destruct (Z.ltb_spec s0 224); [|lia].
  destruct (Z.eqb_spec s0 224); [lia|]. destruct (Z.eqb_spec s0 240); [lia|].
  destruct (Z.eqb_spec s0 237); [lia|]. destruct (Z.eqb_spec s0 244); [lia|].
  destruct (Z.ltb_spec (Z.of_nat (S (S (length s)))) 2); [lia|].
  replace ((s1 <? 128) || (191 <? s1)) with false by lia. cbn [Z.leb Z.compare Pos.compare Pos.compare_cont].
  f_equal. change 31 with (2 ^ 5 - 1). change 63 with (2 ^ 6 - 1).
  rewrite !land_low, shiftl_mul by lia.
  rewrite (lor_disjoint _ _ 6); [done|lia|Z.div_mod_to_equations; lia|].
  apply Z.mod_mul. lia.
Qed.

Lemma decodeRune_3 (s0 s1 s2 : Z) (s : gostring) :
  224 <= s0 <= 239 ->
  (if s0 =? 224 then 160 else 128) <= s1 <= (if s0 =? 237 then 159 else 191) ->
  128 <= s2 <= 191 ->
  decodeRune (s0 :: s1 :: s2 :: s)
  = (s0 mod 16 * 4096 + s1 mod 64 * 64 + s2 mod 64, 3%nat).
Proof.
  intros H0 H1 H2. unfold decodeRune, len, contb. cbn [length].
  destruct (Z.ltb_spec s0 128); [lia|].
  replace ((s0 <? 194) || (244 <? s0)) with false by lia.
  destruct (Z.ltb_spec s0 224); [lia|]. destruct (Z.ltb_spec s0 240); [|lia].
  destruct (Z.eqb_spec s0 240); [lia|]. destruct (Z.eqb_spec s0 244); [lia|].
  destruct (Z.ltb_spec (Z.of_nat (S (S (S (length s))))) 3); [lia|].
  replace ((s1 <? (if s0 =? 224 then 160 else 128))
           || ((if s0 =? 237 then 159 else 191) <? s1)) with false
    by (destruct (s0 =? 224), (s0 =? 237); lia).
  replace ((128 <=? s2) && (s2 <=? 191)) with true by lia.
  cbn [Z.leb Z.compare Pos.compare Pos.compare_cont negb].
  f_equal. change 15 with (2 ^ 4 - 1). change 63 with (2 ^ 6 - 1).
  rewrite !land_low, !shiftl_mul by lia.
  rewrite (lor_disjoint (s0 mod 2 ^ 4 * 2 ^ 12) _ 12);
    [|lia|Z.div_mod_to_equations; lia|apply Z.mod_mul; lia].
  rewrite (lor_disjoint _ _ 6); [done|lia|Z.div_mod_to_equations; lia|].
  Z.div_mod_to_equations; lia.
Qed.

Lemma decodeRune_4 (s0 s1 s2 s3 : Z) (s : gostring) :
  240 <= s0 <= 244 ->
  (if s0 =? 240 then 144 else 128) <= s1 <= (if s0 =? 244 then 143 else 191) ->
  128 <= s2 <= 191 -> 128 <= s3 <= 191 ->
  decodeRune (s0 :: s1 :: s2 :: s3 :: s)
  = (s0 mod 8 * 262144 + s1 mod 64 * 4096 + s2 mod 64 * 64 + s3 mod 64, 4%nat).
Proof.
  intros H0 H1 H2 H3. unfold decodeRune, len, contb. cbn [length].
  destruct (Z.ltb_spec s0 128); [lia|].
  replace ((s0 <? 194) || (244 <? s0)) with false by lia.
  destruct (Z.ltb_spec s0 224); [lia|]. destruct (Z.ltb_spec s0 240); [lia|].
  destruct (Z.eqb_spec s0 224); [lia|]. destruct (Z.eqb_spec s0 237); [lia|].
  destruct (Z.ltb_spec (Z.of_nat (S (S (S (S (length s)))))) 4); [lia|].
  replace ((s1 <? (if s0 =? 240 then 144 else 128))
           || ((if s0 =? 244 then 143 else 191) <? s1)) with false
    by (destruct (s0 =? 240), (s0 =? 244); lia).
  replace ((128 <=? s2) && (s2 <=? 191)) with true by lia.
  replace ((128 <=? s3) && (s3 <=? 191)) with true by lia.
  cbn [Z.leb Z.compare Pos.compare Pos.compare_cont negb].
  f_equal. change 7 with (2 ^ 3 - 1). change 63 with (2 ^ 6 - 1).
  rewrite !land_low, !shiftl_mul by lia.
  rewrite (lor_disjoint (s0 mod 2 ^ 3 * 2 ^ 18) _ 18);
    [|lia|Z.div_mod_to_equations; lia|apply Z.mod_mul; lia].
  rewrite (lor_disjoint _ (s2 mod 2 ^ 6 * 2 ^ 6) 12);
    [|lia|Z.div_mod_to_equations; lia|Z.div_mod_to_equations; lia].
  rewrite (lor_disjoint _ _ 6); [done|lia|Z.div_mod_to_equations; lia|].
  Z.div_mod_to_equations; lia.
Qed.

(** Decoding the encoding of a valid rune gives the rune back, and its
    width, whatever follows. *)
Lemma decodeRune_encodeRune (r : rune) (s : gostring) :
  ValidRune r = true ->
  decodeRune (encodeRune r ++ s) = (r, length (encodeRune r)).
Proof.
  intros Hv. rewrite (encodeRune_bytes r Hv). unfold ValidRune, MaxRune in Hv.
  assert (0 <= r <= 1114111 /\ ~ (55296 <= r <= 57343)) as [Hr Hs] by lia.
  destruct (Z.leb_spec r 127); [by apply decodeRune_1; lia|].
  destruct (Z.leb_spec r 2047).
  { cbn [app length]. rewrite decodeRune_2 by (Z.div_mod_to_equations; lia).
    f_equal. Z.div_mod_to_equations; lia. }
  destruct (Z.leb_spec r 65535).
  { cbn [app length]. rewrite decodeRune_3.
    - f_equal. Z.div_mod_to_equations; lia.
    - Z.div_mod_to_equations; lia.
    - destruct (Z.eqb_spec (224 + r / 4096) 224), (Z.eqb_spec (224 + r / 4096) 237);
        Z.div_mod_to_equations; lia.
    - Z.div_mod_to_equations; lia. }
  cbn [app length]. rewrite decodeRune_4.
  - f_equal. Z.div_mod_to_equations; lia.
  - Z.div_mod_to_equations; lia.
  - destruct (Z.eqb_spec (240 + r / 262144) 240), (Z.eqb_spec (240 + r / 262144) 244);
      Z.div_mod_to_equations; lia.
  - Z.div_mod_to_equations; lia.
  - Z.div_mod_to_equations; lia.
Qed.

Lemma rangeStringFrom_skip (pre s : gostring) :
  forall off : Z,
    rangeStringFrom (length pre) off (pre ++ s)
    = rangeStringFrom 0 (off + len pre) s.
Proof.
  induction pre as [|b pre IH]; intros off.
  - unfold len. simpl. by rewrite Z.add_0_r.
  - cbn [app length rangeStringFrom]. rewrite IH. f_equal. unfold len. cbn [length]. lia.
Qed.

Lemma rangeStringFrom_encodeRune (r : rune) (s : gostring) (off : Z) :
  ValidRune r = true ->
  rangeStringFrom 0 off (encodeRune r ++ s)
  = (off, r) :: rangeStringFrom 0 (off + len (encodeRune r)) s.
Proof.
  intros Hv. pose proof (decodeRune_encodeRune r s Hv) as Hd.
  pose proof (encodeRune_len r) as Hl.
  destruct (encodeRune r) as [|b e]; [unfold len in Hl; simpl in Hl; lia|].
  cbn [app rangeStringFrom]. cbn [app] in Hd. rewrite Hd. cbn [length Nat.pred].
  rewrite rangeStringFrom_skip. do 2 f_equal. unfold len. cbn [length]. lia.
Qed.

Lemma rangeStringFrom_runes (s : gostring) :
  forall (k : nat) (off off' : Z),
    map snd (rangeStringFrom k off s) = map snd (rangeStringFrom k off' s).
Proof.
  induction s as [|b s IH]; intros k off off'; [done|].
  cbn [rangeStringFrom]. destruct k as [|k]; [|apply IH].
  destruct (decodeRune (b :: s)) as [r w]. cbn [map snd]. f_equal. apply IH.
Qed.

(** The runes of a string that starts with the encoding of valid runes. *)
Lemma runesOfString_app (rs : list rune) (s : gostring) :
  Forall (fun r => ValidRune r = true) rs ->
  runesOfString (stringOfRunes rs ++ s) = rs ++ runesOfString s.
Proof.
  unfold runesOfString, rangeString. intros Hv.
  induction Hv as [|r rs Hr Hrs IH]; [done|].
  unfold stringOfRunes in *. cbn [map concat]. rewrite <- app_assoc.
  rewrite rangeStringFrom_encodeRune by done. cbn [map snd app]. f_equal.
  rewrite <- IH. apply rangeStringFrom_runes.
Qed.

Lemma runesOfString_stringOfRunes (rs : list rune) :
  Forall (fun r => ValidRune r = true) rs ->
  runesOfString (stringOfRunes rs) = rs.
Proof.
  intros Hv. pose proof (runesOfString_app rs [] Hv) as H.
  by rewrite !app_nil_r in H.
Qed.

Lemma validUTF8_intro (rs : list rune) :
  Forall (fun r => ValidRune r = true) rs -> validUTF8 (stringOfRunes rs) = true.
Proof.
  intros Hv. unfold validUTF8. rewrite runesOfString_stringOfRunes by done.
  rewrite bool_decide_eq_true_2 by done. simpl.
  apply forallb_forall. intros r Hr. rewrite Forall_forall in Hv. apply Hv.
  by apply list_elem_of_In.
Qed.

Lemma validUTF8_elim (s : gostring) :
  validUTF8 s = true ->
  s = stringOfRunes (runesOfString s)
  /\ Forall (fun r => ValidRune r = true) (runesOfString s).
Proof.
  unfold validUTF8. intros [H1 H2]%andb_true_iff.
  apply bool_decide_eq_true_1 in H1. split; [done|].
  rewrite Forall_forall. intros r Hr. rewrite forallb_forall in H2. apply H2.
  by apply list_elem_of_In.
Qed.

Lemma runesOfString_valid_app (a s : gostring) :
  validUTF8 a = true ->
  runesOfString (a ++ s) = runesOfString a ++ runesOfString s.
Proof.
  intros [Ha Hv]%validUTF8_elim. rewrite Ha at 1. by apply runesOfString_app.
Qed.

Lemma validUTF8_app (a b : gostring) :
  validUTF8 a = true -> validUTF8 b = true -> validUTF8 (a ++ b) = true.
Proof.
  intros [Ha Hva]%validUTF8_elim [Hb Hvb]%validUTF8_elim.
  rewrite Ha, Hb, <- stringOfRunes_app. apply validUTF8_intro.
  by apply Forall_app.
Qed.

Lemma encodeRune_invalid (r : rune) :
  - 2 ^ 31 <= r < 2 ^ 31 -> ValidRune r = false -> encodeRune r = [239; 191; 189].
Proof.
  unfold ValidRune, MaxRune, encodeRune. intros Hr Hv. cbv zeta. unfold MaxRune.
  destruct (Z.ltb_spec r 0).
  - replace (uint32 r) with (r + 2 ^ 32)
      by (unfold uint32; rewrite <- (Z.mod_small (r + 2 ^ 32) (2 ^ 32)) by lia;
          rewrite <- Z.add_mod_idemp_r, Z.mod_same, Z.add_0_r by lia; done).
    destruct (Z.leb_spec (r + 2 ^ 32) 127); [lia|].
    destruct (Z.leb_spec (r + 2 ^ 32) 2047); [lia|].
    destruct (Z.ltb_spec 1114111 (r + 2 ^ 32)); [done|lia].
  - replace (uint32 r) with r by (unfold uint32; rewrite Z.mod_small; lia).
    destruct (Z.leb_spec r 127); [lia|]. destruct (Z.leb_spec r 2047); [lia|].
    replace ((1114111 <? r) || (55296 <=? r) && (r <=? 57343)) with true by lia.
    done.
Qed.

Lemma validUTF8_encodeRune (r : rune) :
  - 2 ^ 31 <= r < 2 ^ 31 -> validUTF8 (encodeRune r) = true.
Proof.
  intros Hr. destruct (ValidRune r) eqn:Hv.
  - pose proof (validUTF8_intro [r]) as H. unfold stringOfRunes in H. simpl in H.
    rewrite app_nil_r in H. apply H. by constructor.
  - rewrite encodeRune_invalid by done. reflexivity.
Qed.

Lemma nondecreasing_snoc (l : list Z) (x : Z) :
  nondecreasing l = true -> Forall (fun a => a <= x) l ->
  nondecreasing (l ++ [x]) = true.
Proof.
  induction l as [|a l IH]; intros Hs Hb; [done|].
  apply Forall_cons in Hb as [Ha Hb]. destruct l as [|b l].
  - simpl. lia.
  - cbn [nondecreasing app] in *. apply andb_true_iff in Hs as [Hab Hs].
    apply andb_true_iff. split; [done|]. by apply IH.
Qed.

Lemma nondecreasing_take (l : list Z) (n : nat) :
  nondecreasing l = true -> nondecreasing (take n l) = true.
Proof.
  revert n. induction l as [|a l IH]; intros n Hs; [by destruct n|].
  destruct n as [|n]; [done|]. destruct l as [|b l]; [by destruct n|].
  cbn [nondecreasing] in Hs. apply andb_true_iff in Hs as [Hab Hs].
  destruct n as [|n]; [done|]. specialize (IH (S n) Hs).
  cbn [take nondecreasing] in *. by rewrite Hab, IH.
Qed.

Lemma Builder_setLocsFaces (rt : RichText) (l : indexer) (f : list FontFacePtr) :
  Builder (setLocsFaces rt l f) = Builder rt.
Proof. done. Qed.

(** [setFace] keeps the buffer and the other fields. *)
Lemma setFace_Builder (face : FontFacePtr) (rt rt' : RichText) :
  setFace face rt = Ok rt' ->
  Builder rt' = Builder rt /\ objects rt' = objects rt /\ mode rt' = mode rt
  /\ orient rt' = orient rt /\ defaultFace rt' = defaultFace rt.
Proof.
  unfold setFace. intros H. apply rbind_Ok in H as (cur & _ & H).
  destruct (bool_decide (face = cur)); [by inversion H|].
  apply rbind_Ok in H as (p & _ & H). apply rbind_Ok in H as ([l f] & _ & H).
  by inversion H.
Qed.

Lemma setFace_sorted (face : FontFacePtr) (rt rt' : RichText) :
  faceRunsSorted rt -> setFace face rt = Ok rt' -> faceRunsSorted rt'.
Proof.
  intros (Hlen & Hhd & Hs & Hb & Hv) H.
  pose proof (setFace_Builder _ _ _ H) as (HB & _).
  apply setFace_cases in H as [[_ ->]|(_ & p & keep & Hp & Hk & Hl & Hf)]; [done|].
  unfold faceRunsSorted. rewrite HB, Hl, Hf. repeat split.
  - rewrite !length_app, !length_take. simpl. lia.
  - destruct (locs rt) as [|a [|b l]] eqn:El; [done| |].
    + simpl in Hhd, Hp. inversion Hhd; inversion Hp; subst a p.
      destruct (Z.eqb_spec (Len rt - 0) 0) as [E|E]; subst keep; [|done].
      simpl. unfold Len, len in E. destruct (Builder rt); [done|simpl in E; lia].
    + destruct (Len rt - p =? 0); subst keep; simpl in *; done.
  - apply nondecreasing_snoc; [by apply nondecreasing_take|by apply Forall_take].
  - apply Forall_app. split; [by apply Forall_take|]. by constructor.
  - done.
Qed.

Lemma WriteString_sorted (s : gostring) (rt : RichText) :
  faceRunsSorted rt -> validUTF8 s = true -> faceRunsSorted (WriteString s rt).
Proof.
  intros (Hlen & Hhd & Hs & Hb & Hv) Hvs. unfold faceRunsSorted. simpl.
  repeat split; try done.
  - rewrite runesOfString_valid_app by done. rewrite len_app.
    eapply Forall_impl; [exact Hb|]. intros l Hl. simpl in Hl.
    pose proof (len_nonneg (runesOfString s)). lia.
  - by apply validUTF8_app.
Qed.

Lemma len_int32 {A : Type} (l : list A) : - 2 ^ 31 <= int32 (len l) < 2 ^ 31.
Proof. unfold int32. pose proof (Z.mod_pos_bound (len l + 2 ^ 31) (2 ^ 32)). lia. Qed.

Lemma AddCanvas_sorted (CanvasSize : nat -> float * float) (c : CanvasPtr)
    (valign : VerticalAlign) (rt rt' : RichText) :
  faceRunsSorted rt -> AddCanvas CanvasSize c valign rt = Ok rt' ->
  faceRunsSorted rt'.
Proof.
  intros Hinv H. unfold AddCanvas in H. destruct c as [a|]; [|done].
  destruct (CanvasSize a) as [w h]. apply rbind_Ok in H as (face & _ & H).
  apply rbind_Ok in H as (rt1 & H1 & H). apply setFace_sorted in H1; [|done].
  eapply setFace_sorted; [|exact H].
  pose proof (WriteString_sorted (encodeRune (int32 (len (objects rt1)))) rt1 H1
                (validUTF8_encodeRune _ (len_int32 _))) as Hw.
  exact Hw.
Qed.

Lemma runOps_sorted (CanvasSize : nat -> float * float) (ops : list Op) :
  forall rt rt' : RichText,
    faceRunsSorted rt -> Forall (fun op => plainOp op = true) ops ->
    runOps CanvasSize ops rt = Ok rt' -> faceRunsSorted rt'.
Proof.
  induction ops as [|op ops IH]; intros rt rt' Hinv Hops H; simpl in H.
  - by inversion H; subst.
  - apply Forall_cons in Hops as [Hop Hops].
    apply rbind_Ok in H as (rt1 & H1 & H). apply (IH rt1 rt'); [|done|done].
    destruct op as [s|face|face start end_|c valign]; simpl in *.
    + inversion H1; subst. by apply WriteString_sorted.
    + destruct face; [|done]. by eapply setFace_sorted.
    + done.
    + by eapply AddCanvas_sorted.
Qed.

Lemma forallb_Forall {A : Type} (f : A -> bool) (l : list A) :
  forallb f l = true -> Forall (fun x => f x = true) l.
Proof.
  intros H. rewrite Forall_forall. intros x Hx. rewrite forallb_forall in H.
  apply H. by apply list_elem_of_In.
Qed.

(** X7.  After [NewRichText] and any sequence of [WriteString] of valid
    UTF-8, [SetFace] and [AddCanvas] that does not panic, the rich text has as
    many faces as offsets, the first offset is 0, the offsets never decrease,
    none is beyond the number of runes of the buffer, and the buffer is valid
    UTF-8.  (An offset can repeat, as C3 shows; [SetFaceSpan] is not among
    the operations.) *)
Theorem face_offsets_sorted (CanvasSize : nat -> float * float) (face : FontFacePtr)
    (ops : list Op) (rt0 rt : RichText) :
  NewRichText face = Ok rt0 -> forallb plainOp ops = true ->
  runOps CanvasSize ops rt0 = Ok rt -> faceRunsSorted rt.
Proof.
  intros H0 Hops H. eapply runOps_sorted; [|by apply forallb_Forall|exact H].
  destruct face; [|done]. inversion H0; subst. repeat split; try done.
  simpl. constructor; [|done]. unfold len. simpl. lia.
Qed.

Lemma face_offsets_sorted_witness :
  exists rt,
    runOps sampleCanvasSize
      [OpWriteString [195; 169]; OpSetFace (Some 1%nat); OpSetFace (Some 2%nat);
       OpAddCanvas (Some 7%nat) Baseline]
      (mkRichText [] [0] [Some 0%nat] HorizontalTB Natural (Some 0%nat) []) = Ok rt
    /\ locs rt = [0; 1; 1; 1; 2] /\ faceRunsSorted rt.
Proof.
  eexists. split; [vm_compute; reflexivity|]. split; [reflexivity|].
  eapply (face_offsets_sorted sampleCanvasSize (Some 0%nat)
            [OpWriteString [195; 169]; OpSetFace (Some 1%nat); OpSetFace (Some 2%nat);
             OpAddCanvas (Some 7%nat) Baseline]).
  - reflexivity.
  - vm_compute. reflexivity.
  - vm_compute. reflexivity.
Defined.

(** ** One-byte text: the offsets increase strictly *)

Lemma runesOfString_ascii (s : gostring) :
  asciiString s = true -> runesOfString s = s.
Proof.
  unfold runesOfString, rangeString. generalize 0 at 1. induction s as [|b s IH]; intros off Ha; [done|].
  simpl in Ha. apply andb_true_iff in Ha as [Hb Ha].
  cbn [rangeStringFrom]. rewrite decodeRune_1 by lia. cbn [map snd Nat.pred].
  f_equal. by apply IH.
Qed.

Lemma strictlyIncreasing_adjacent (l : list Z) :
  strictlyIncreasing l = true
  <-> forall (i : nat) (a b : Z), l !! i = Some a -> l !! S i = Some b -> a < b.
Proof.
  induction l as [|x l IH]; [split; [intros _ i a b H; done|done]|].
  destruct l as [|y l].
  - split; [intros _ [|i] a b H1 H2; done|done].
  - cbn [strictlyIncreasing]. rewrite andb_true_iff, IH. split.
    + intros [Hxy H] [|i] a b Ha Hb; simpl in *.
      * inversion Ha; inversion Hb; subst. lia.
      * by eapply H.
    + intros H. split.
      * apply Z.ltb_lt. by apply (H 0%nat).
      * intros i a b Ha Hb. by apply (H (S i)).
Qed.

Lemma strictlyIncreasing_snoc (l : list Z) (x : Z) :
  strictlyIncreasing l = true -> (forall p, last l = Some p -> p < x) ->
  strictlyIncreasing (l ++ [x]) = true.
Proof.
  rewrite !strictlyIncreasing_adjacent. intros Hl Hx i a b Ha Hb.
  destruct (decide (S i < length l)%nat) as [Hi|Hi].
  - rewrite lookup_app_l in Ha, Hb by lia. by eapply Hl.
  - assert (S i = length l) as Hi'.
    { apply lookup_lt_Some in Hb. rewrite length_app in Hb. simpl in Hb. lia. }
    rewrite lookup_app_l in Ha by lia. rewrite Hi', lookup_app_r in Hb by lia.
    rewrite Nat.sub_diag in Hb. inversion Hb; subst. apply Hx.
    rewrite last_lookup. rewrite <- Hi'. done.
Qed.

Lemma strictlyIncreasing_take (l : list Z) (n : nat) :
  strictlyIncreasing l = true -> strictlyIncreasing (take n l) = true.
Proof.
  rewrite !strictlyIncreasing_adjacent. intros Hl i a b Ha Hb.
  apply lookup_take_Some in Ha as [Ha _]. apply lookup_take_Some in Hb as [Hb _].
  by eapply Hl.
Qed.

Lemma strictlyIncreasing_butlast (l : list Z) (p q : Z) :
  strictlyIncreasing l = true -> last l = Some p ->
  last (take (length l - 1) l) = Some q -> q < p.
Proof.
  rewrite strictlyIncreasing_adjacent, !last_lookup. intros Hl Hp Hq.
  rewrite length_take in Hq. apply lookup_take_Some in Hq as [Hq Hlt].
  apply (Hl (pred ((length l - 1) `min` length l)) q p); [done|].
  rewrite <- Hp. f_equal. lia.
Qed.

Lemma setFace_strict (face : FontFacePtr) (rt rt' : RichText) :
  faceRunsStrict rt -> setFace face rt = Ok rt' -> faceRunsStrict rt'.
Proof.
  intros ((Hlen & Hhd & Hs) & Hb & Ha) H.
  pose proof (setFace_Builder _ _ _ H) as (HB & _).
  apply setFace_cases in H as [[_ ->]|(_ & p & keep & Hp & Hk & Hl & Hf)]; [done|].
  rewrite (runesOfString_ascii _ Ha) in Hl. unfold rune in Hl.
  assert (p <= Len rt) as Hple.
  { rewrite Forall_forall in Hb. apply Hb. rewrite last_lookup in Hp.
    by eapply list_elem_of_lookup_2. }
  unfold faceRunsStrict, faceRunsOk, Len. rewrite HB, Hl, Hf. repeat split.
  - rewrite !length_app, !length_take, Hlen. done.
  - destruct (locs rt) as [|a [|b l]] eqn:El; [done| |].
    + simpl in Hhd, Hp. inversion Hhd; inversion Hp; subst a p.
      destruct (Z.eqb_spec (Len rt - 0) 0) as [E|E]; subst keep; [|done].
      simpl. f_equal. rewrite Z.sub_0_r in E. exact E.
    + destruct (Len rt - p =? 0); subst keep; simpl in *; done.
  - apply strictlyIncreasing_snoc; [by apply strictlyIncreasing_take|].
    intros q Hq. destruct (Z.eqb_spec (Len rt - p) 0) as [E|E]; subst keep.
    + pose proof (strictlyIncreasing_butlast _ _ _ Hs Hp Hq). unfold Len in *. lia.
    + rewrite Nat.sub_0_r, firstn_all in Hq. rewrite Hp in Hq. inversion Hq; subst.
      unfold Len in *. lia.
  - apply Forall_app. split; [by apply Forall_take|]. by constructor.
  - done.
Qed.

Lemma WriteString_strict (s : gostring) (rt : RichText) :
  faceRunsStrict rt -> asciiString s = true -> faceRunsStrict (WriteString s rt).
Proof.
  intros (Hok & Hb & Ha) Hs. unfold faceRunsStrict, faceRunsOk, Len in *. simpl.
  split; [done|]. split.
  - eapply Forall_impl; [exact Hb|]. intros l Hl. simpl in Hl. rewrite len_app.
    pose proof (len_nonneg s). lia.
  - unfold asciiString in *. by rewrite forallb_app, Ha, Hs.
Qed.

Lemma encodeRune_ascii (n : Z) : 0 <= n < 128 -> encodeRune (int32 n) = [n].
Proof.
  intros Hn. unfold int32. rewrite Z.mod_small by lia.
  replace (n + 2 ^ 31 - 2 ^ 31) with n by lia.
  unfold encodeRune, uint32. rewrite Z.mod_small by lia. cbv zeta.
  destruct (Z.leb_spec n 127); [done|lia].
Qed.

Lemma AddCanvas_strict (CanvasSize : nat -> float * float) (c : CanvasPtr)
    (valign : VerticalAlign) (rt rt' : RichText) :
  faceRunsStrict rt -> len (objects rt) < 128 ->
  AddCanvas CanvasSize c valign rt = Ok rt' ->
  faceRunsStrict rt' /\ len (objects rt') = len (objects rt) + 1.
Proof.
  intros Hinv Hn H. unfold AddCanvas in H. destruct c as [a|]; [|done].
  destruct (CanvasSize a) as [w h]. apply rbind_Ok in H as (face & _ & H).
  apply rbind_Ok in H as (rt1 & H1 & H).
  pose proof (setFace_Builder _ _ _ H1) as (_ & HO1 & _).
  apply setFace_strict in H1; [|done].
  pose proof (setFace_Builder _ _ _ H) as (_ & HO & _).
  split.
  - eapply setFace_strict; [|exact H].
    assert (asciiString [len (objects rt)] = true) as Ha
      by (pose proof (len_nonneg (objects rt)); simpl; lia).
    pose proof (WriteString_strict [len (objects rt)] rt1 H1 Ha) as Hw.
    unfold faceRunsStrict, faceRunsOk, Len in *. simpl in *.
    rewrite HO1, encodeRune_ascii by (pose proof (len_nonneg (objects rt)); lia).
    exact Hw.
  - rewrite HO. simpl. rewrite len_app, HO1. done.
Qed.

Lemma runOps_strict (CanvasSize : nat -> float * float) (ops : list Op) :
  forall rt rt' : RichText,
    faceRunsStrict rt -> Forall (fun op => asciiOp op = true) ops ->
    len (objects rt) + len ops <= 128 ->
    runOps CanvasSize ops rt = Ok rt' -> faceRunsStrict rt'.
Proof.
  induction ops as [|op ops IH]; intros rt rt' Hinv Hops Hn H; simpl in H.
  - by inversion H; subst.
  - apply Forall_cons in Hops as [Hop Hops].
    apply rbind_Ok in H as (rt1 & H1 & H).
    unfold len in Hn at 2. cbn [length] in Hn.
    assert (faceRunsStrict rt1 /\ len (objects rt1) <= len (objects rt) + 1) as [Hinv1 Hn1].
    { destruct op as [s|face|face start end_|c valign]; simpl in *.
      - inversion H1; subst. split; [by apply WriteString_strict|simpl; lia].
      - destruct face; [|done].
        pose proof (setFace_Builder _ _ _ H1) as (_ & HO & _). rewrite HO.
        split; [by eapply setFace_strict|lia].
      - done.
      - eapply AddCanvas_strict in H1 as [? ->]; [split; [done|lia]|done|].
        unfold len in *. lia. }
    apply (IH rt1 rt'); [done|done| |done]. unfold len in *. lia.
Qed.

(** X8.  While the buffer holds one-byte runes only, the offsets increase
    strictly: after [NewRichText] and at most 128 operations among
    [WriteString] of ASCII strings, [SetFace] and [AddCanvas], there are as
    many faces as offsets, the first offset is 0 and the offsets increase
    strictly.  (With at most 128 operations every object placeholder is a
    one-byte rune.) *)
Theorem face_offsets_strict_on_ascii (CanvasSize : nat -> float * float)
    (face : FontFacePtr) (ops : list Op) (rt0 rt : RichText) :
  NewRichText face = Ok rt0 -> forallb asciiOp ops = true -> len ops <= 128 ->
  runOps CanvasSize ops rt0 = Ok rt -> faceRunsOk rt.
Proof.
  intros H0 Hops Hn H.
  eapply runOps_strict in H as [Hok _]; [done| |by apply forallb_Forall|].
  - destruct face; [|done]. inversion H0; subst. repeat split; try done.
    simpl. constructor; [|done]. unfold Len, len. simpl. lia.
  - destruct face; [|done]. inversion H0; subst. simpl. unfold len at 1. simpl. lia.
Qed.

Lemma face_offsets_strict_on_ascii_witness :
  exists rt,
    runOps sampleCanvasSize
      [OpWriteString [97; 98]; OpSetFace (Some 1%nat); OpSetFace (Some 2%nat);
       OpAddCanvas (Some 7%nat) Baseline; OpWriteString [99]]
      (mkRichText [] [0] [Some 0%nat] HorizontalTB Natural (Some 0%nat) []) = Ok rt
    /\ locs rt = [0; 2; 3] /\ faceRunsOk rt.
Proof.
  eexists. split; [vm_compute; reflexivity|]. split; [reflexivity|].
  eapply (face_offsets_strict_on_ascii sampleCanvasSize (Some 0%nat)
            [OpWriteString [97; 98]; OpSetFace (Some 1%nat); OpSetFace (Some 2%nat);
             OpAddCanvas (Some 7%nat) Baseline; OpWriteString [99]]).
  - reflexivity.
  - vm_compute. reflexivity.
  - vm_compute. discriminate.
  - vm_compute. reflexivity.
Defined.

Lemma int32_small (z : Z) : - 2 ^ 31 <= z < 2 ^ 31 -> int32 z = z.
Proof. intros H. unfold int32. rewrite Z.mod_small; lia. Qed.

(** X9.  [AddCanvas] on a rich text with valid UTF-8 in its buffer adds one
    object to the table and one rune to the text, and leaves the active face
    as it was.  The rune is the index of the new object in the table as long
    as that index is a valid rune; for an index among the surrogates (55296
    to 57343) or above the last rune it is U+FFFD instead. *)
Theorem AddCanvas_placeholder (CanvasSize : nat -> float * float) (c : nat)
    (valign : VerticalAlign) (rt : RichText) :
  locs rt <> [] -> faces rt <> [] -> validUTF8 (Builder rt) = true ->
  len (objects rt) < 2 ^ 31 ->
  exists rt',
    AddCanvas CanvasSize (Some c) valign rt = Ok rt'
    /\ runesOfString (Builder rt')
       = runesOfString (Builder rt)
           ++ [if ValidRune (len (objects rt)) then len (objects rt) else RuneError]
    /\ idx (objects rt') (len (objects rt))
       = Ok (mkTextSpanObject (Some c) 0 0 (fst (CanvasSize c)) (snd (CanvasSize c))
               valign)
    /\ len (objects rt') = len (objects rt) + 1
    /\ last (faces rt') = last (faces rt).
Proof.
  intros Hl Hf Hv Hn. pose proof (len_nonneg (objects rt)) as Hn0.
  unfold AddCanvas. destruct (CanvasSize c) as [w h]. cbn [fst snd].
  destruct (idx_Ok (faces rt) (len (faces rt) - 1)) as (cur & -> & Hcur).
  { apply nonempty_len in Hf. lia. }
  cbn [rbind].
  destruct (setFace_Ok None rt Hl Hf) as (rt2 & -> & Hl2 & Hf2 & HB & HO & _).
  cbn [rbind]. set (rt3 := setObjects _ _).
  destruct (setFace_Ok cur rt3) as (rt4 & H4 & _ & _ & HB4 & HO4 & _); [done|done|].
  rewrite H4. exists rt4. split; [done|]. rewrite HB4, HO4. simpl. rewrite HB, HO.
  rewrite int32_small by lia. repeat split.
  - rewrite runesOfString_valid_app by done. f_equal.
    destruct (ValidRune (len (objects rt))) eqn:Hr.
    + pose proof (runesOfString_stringOfRunes [len (objects rt)]) as H.
      unfold stringOfRunes in H. simpl in H. rewrite app_nil_r in H. apply H.
      by constructor.
    + rewrite encodeRune_invalid by (done || lia). reflexivity.
  - unfold idx. destruct (Z.ltb_spec (len (objects rt)) 0); [lia|].
    unfold len. rewrite Nat2Z.id, lookup_app_r by lia. by rewrite Nat.sub_diag.
  - by rewrite len_app.
  - apply setFace_active in H4. rewrite H4, last_lookup, <- Hcur. f_equal.
    unfold len. lia.
Qed.

Lemma AddCanvas_placeholder_witness :
  exists rt',
    AddCanvas sampleCanvasSize (Some 7%nat) Baseline richE = Ok rt'
    /\ runesOfString (Builder rt') = [233; 0]
    /\ idx (objects rt') 0 = Ok (mkTextSpanObject (Some 7%nat) 0 0 20 10 Baseline)
    /\ len (objects rt') = 1
    /\ last (faces rt') = Some (Some 0%nat).
Proof.
  apply (AddCanvas_placeholder sampleCanvasSize 7 Baseline richE).
  - discriminate.
  - discriminate.
  - vm_compute. reflexivity.
  - vm_compute. reflexivity.
Defined.

(** X10.  On a rich text with as many faces as offsets and a first offset
    of 0, [SetFaceSpan] panics when [start] is negative and below [end].
    With a [start] that is not negative it returns: the buffer, the objects,
    the mode, the orientation and the default face are left alone, there are
    still as many faces as offsets, and the face is among the faces unless
    the call changed nothing. *)
Theorem SetFaceSpan_bounds (face : FontFacePtr) (start end_ : Z) (rt : RichText) :
  length (locs rt) = length (faces rt) -> head (locs rt) = Some 0 ->
  (start < 0 -> start < end_ -> SetFaceSpan face start end_ rt = Panic)
  /\ (0 <= start ->
      exists rt',
        SetFaceSpan face start end_ rt = Ok rt'
        /\ length (locs rt') = length (faces rt')
        /\ Builder rt' = Builder rt /\ objects rt' = objects rt
        /\ mode rt' = mode rt /\ orient rt' = orient rt
        /\ defaultFace rt' = defaultFace rt
        /\ (rt' = rt \/ face ∈ faces rt')).
Proof.
  intros Hlen Hhd. split.
  - apply SetFaceSpan_negative.
  - by apply SetFaceSpan_Ok.
Qed.

Lemma index_range (ix : indexer) (loc : Z) :
  head ix = Some 0 -> 0 <= loc -> 0 <= index ix loc < len ix.
Proof.
  intros Hhd Hloc. destruct (indexFrom_spec ix loc 0) as (Hr & _ & Hgt).
  unfold index. split; [|lia].
  destruct (Z.eq_dec (indexFrom ix 0 loc) (-1)) as [E|E]; [|lia].
  rewrite E in Hgt. destruct ix as [|a ix]; [done|]. simpl in Hhd. inversion Hhd; subst.
  specialize (Hgt 0 eq_refl). lia.
Qed.

Lemma levelsOk_slice (runes : list rune) (levels : list Z) (n m : nat) :
  levelsOk runes levels -> levelsOk (take n (drop m runes)) (take n (drop m levels)).
Proof.
  intros [Hlen Hpos]. split.
  - rewrite !length_take, !length_drop. lia.
  - by apply Forall_take, Forall_drop.
Qed.

Section ItemizeFaces.
Variable E : Env.
Variable rt : RichText.
Variable logRunes : list rune.
Variable embeddingLevels : list Z.
Hypothesis Hlevels : levelsOk logRunes embeddingLevels.

Lemma appendRuns_inv (curFace i j : Z)
    (runs : list gostring * list Script * list FontFacePtr) :
  0 <= i <= j -> j <= len logRunes -> 0 <= curFace < len (faces rt) ->
  runsInv rt logRunes i runs ->
  exists runs', appendRuns E rt logRunes embeddingLevels curFace i j runs = Ok runs'
                /\ runsInv rt logRunes j runs'.
Proof.
  intros Hi Hj Hc Hinv. destruct runs as [[texts scripts] fs].
  destruct Hinv as (Ht & Hs & Hf & Hin). unfold appendRuns.
  destruct (idx_Ok (faces rt) curFace Hc) as (face & -> & Hface). cbn [rbind].
  assert (stringOfRunes (take (Z.to_nat i) logRunes)
          ++ stringOfRunes (take (Z.to_nat (j - i)) (drop (Z.to_nat i) logRunes))
          = stringOfRunes (take (Z.to_nat j) logRunes)) as Hcat.
  { rewrite <- stringOfRunes_app, take_take_drop. do 2 f_equal. lia. }
  assert (face ∈ faces rt) as Hmem by (by eapply list_elem_of_lookup_2).
  destruct face as [f|].
  - rewrite slice_Ok by lia. cbn [rbind].
    rewrite slice_Ok by (destruct Hlevels as [Hl _]; unfold len in *; lia). cbn [rbind].
    destruct (ScriptItemizer_texts (LookupScript E)
                (take (Z.to_nat (j - i)) (drop (Z.to_nat i) logRunes))
                (take (Z.to_nat (j - i)) (drop (Z.to_nat i) embeddingLevels)))
      as (items & -> & Hitems); [by apply levelsOk_slice|].
    cbn [rbind]. eexists. split; [done|]. unfold runsInv. repeat split.
    + rewrite concat_app, Ht. unfold itemTexts in Hitems. by rewrite Hitems.
    + rewrite !length_app, !length_map. lia.
    + rewrite !length_app, !length_map. lia.
    + apply Forall_app. split; [done|]. apply Forall_forall. intros x Hx.
      apply list_elem_of_fmap in Hx as (y & -> & _). done.
  - rewrite slice_Ok by lia. cbn [rbind]. eexists. split; [done|].
    unfold runsInv. repeat split.
    + rewrite concat_app, Ht. simpl. by rewrite app_nil_r.
    + rewrite !length_app. simpl. lia.
    + rewrite !length_app. simpl. lia.
    + apply Forall_app. split; [done|]. by constructor.
Qed.

Hypothesis Hlen : length (locs rt) = length (faces rt).
Hypothesis Hhd : head (locs rt) = Some 0.

Lemma faceLoop_inv (n : nat) :
  forall (j i curFace : Z) (runs : list gostring * list Script * list FontFacePtr),
    j + Z.of_nat n = len logRunes -> 0 <= i <= j -> 0 <= curFace < len (faces rt) ->
    runsInv rt logRunes i runs ->
    exists i' curFace' runs',
      faceLoop E rt logRunes embeddingLevels n j i curFace runs = Ok (i', curFace', runs')
      /\ 0 <= i' <= len logRunes /\ 0 <= curFace' < len (faces rt)
      /\ runsInv rt logRunes i' runs'.
Proof.
  induction n as [|n IH]; intros j i curFace runs Hj Hi Hc Hinv; cbn [faceLoop].
  - eexists _, _, _. split; [done|]. repeat split; try done; lia.
  - pose proof (index_range (locs rt) j Hhd ltac:(lia)) as Hnext.
    destruct (negb (index (locs rt) j =? curFace)).
    + destruct (appendRuns_inv curFace i j runs) as (runs' & -> & Hinv');
        [lia|lia|done|done|].
      cbn [rbind]. apply IH; [lia|lia|unfold len in *; lia|done].
    + apply IH; [lia|lia|done|done].
Qed.
End ItemizeFaces.

(** X11.  The itemization by face and script at the start of [ToText] loses
    no text.  On a rich text with as many faces as offsets and a first offset
    of 0, and with bidi levels as many as runes and none negative, it
    returns; the texts of the runs, concatenated, are the string of the
    runes; there is one script and one face per text; and every face is a
    face of the rich text. *)
Theorem itemizeFaces_partition (E : Env) (rt : RichText) (logRunes : list rune)
    (embeddingLevels : list Z) :
  levelsOk logRunes embeddingLevels ->
  length (locs rt) = length (faces rt) -> head (locs rt) = Some 0 ->
  exists texts scripts fs,
    itemizeFaces E rt logRunes embeddingLevels = Ok (texts, scripts, fs)
    /\ concat texts = stringOfRunes logRunes
    /\ length scripts = length texts /\ length fs = length texts
    /\ Forall (fun f => f ∈ faces rt) fs.
Proof.
  intros Hlevels Hlen Hhd. unfold itemizeFaces.
  assert (faces rt <> []) as Hne.
  { intros Ef. rewrite Ef in Hlen. destruct (locs rt); done. }
  destruct (faceLoop_inv E rt logRunes embeddingLevels Hlevels Hlen Hhd
              (length logRunes) 0 0 0 ([], [], []))
    as (i & curFace & runs & -> & Hi & Hc & Hinv).
  { unfold len. lia. }
  { lia. }
  { apply nonempty_len in Hne. lia. }
  { repeat split; done. }
  cbn [rbind]. destruct (Z.ltb_spec i (len logRunes)).
  - destruct (appendRuns_inv E rt logRunes embeddingLevels Hlevels curFace i
                (len logRunes) runs) as ([[texts scripts] fs] & -> & Ht & Hs & Hf & Hin);
      [lia|lia|done|done|].
    eexists _, _, _. split; [done|]. repeat split; try done.
    rewrite Ht. f_equal. apply take_ge. unfold len. lia.
  - destruct runs as [[texts scripts] fs]. destruct Hinv as (Ht & Hs & Hf & Hin).
    eexists _, _, _. split; [done|]. repeat split; try done.
    rewrite Ht. f_equal. apply take_ge. unfold len in *. lia.
Qed.

Lemma uint32_add (a b : Z) : uint32 (uint32 a + uint32 b) = uint32 (a + b).
Proof. unfold uint32. by rewrite <- Z.add_mod by lia. Qed.

Lemma shapeStep_inv (E : Env) (rt : RichText) (text : gostring) (face : FontFacePtr)
    (script : Script) (done : list gostring) (st st' : Shaped) :
  shapedInv done st -> shapeStep E rt text face script st = Ok st' ->
  shapedInv (done ++ [text]) st'.
Proof.
  intros (Hg & Hd & Hr & Hc & Hs & Hb & He & Hh) H. unfold shapeStep in H.
  apply rbind_Ok in H as ([[gs d] r] & _ & H). inversion H; subst; clear H.
  unfold shapedInv. cbn [glyphIndices directions rotations clusterOffset glyphs].
  repeat split.
  - rewrite !length_app. simpl. lia.
  - rewrite !length_app. simpl. lia.
  - rewrite !length_app. simpl. lia.
  - rewrite Hc, concat_app, len_app. simpl. rewrite app_nil_r.
    apply uint32_add.
  - apply nondecreasing_snoc; [done|].
    eapply Forall_impl; [exact Hb|]. simpl. intros; lia.
  - apply Forall_app. split.
    + eapply Forall_impl; [exact Hb|]. simpl. intros g Hgl. rewrite len_app.
      pose proof (len_nonneg (if isRTL d then reverseRange 0 (length gs) gs else gs)). lia.
    + constructor; [|done]. rewrite len_app.
      pose proof (len_nonneg (glyphs st)).
      pose proof (len_nonneg (if isRTL d then reverseRange 0 (length gs) gs else gs)). lia.
  - intros Hnil. by destruct done.
  - intros _. destruct done as [|t done].
    + destruct (glyphIndices st); [|done]. simpl. rewrite He; done.
    + destruct (glyphIndices st) as [|g gix]; [done|]. simpl. apply Hh. done.
Qed.

Lemma shapeLoop_inv (E : Env) (rt : RichText) (texts : list gostring) :
  forall (scripts : list Script) (fs : list FontFacePtr) (done : list gostring)
         (st sh : Shaped),
    shapedInv done st -> shapeLoop E rt texts scripts fs st = Ok sh ->
    shapedInv (done ++ texts) sh.
Proof.
  induction texts as [|text texts IH]; intros scripts fs done st sh Hinv H.
  - simpl in H. inversion H; subst. by rewrite app_nil_r.
  - simpl in H. destruct scripts as [|script scripts]; [done|].
    destruct fs as [|face fs]; [done|].
    apply rbind_Ok in H as (st1 & H1 & H).
    replace (done ++ text :: texts) with ((done ++ [text]) ++ texts)
      by (by rewrite <- app_assoc).
    eapply IH; [|exact H]. by eapply shapeStep_inv.
Qed.

(** X12.  When the shaping loop of [ToText] returns, there is one glyph
    index, one direction and one rotation per run; the cluster offset is the
    byte length of all the texts, modulo 2^32; the glyph indices start at 0,
    never decrease and stay within the glyphs. *)
Theorem shapeLoop_indices (E : Env) (rt : RichText) (texts : list gostring)
    (scripts : list Script) (fs : list FontFacePtr) (sh : Shaped) :
  shapeLoop E rt texts scripts fs (mkShaped 0 [] [] [] []) = Ok sh ->
  length (glyphIndices sh) = length texts
  /\ length (directions sh) = length texts
  /\ length (rotations sh) = length texts
  /\ clusterOffset sh = uint32 (len (concat texts))
  /\ nondecreasing (glyphIndices sh) = true
  /\ Forall (fun g => 0 <= g <= len (glyphs sh)) (glyphIndices sh)
  /\ (texts = [] -> glyphs sh = [])
  /\ (texts <> [] -> head (glyphIndices sh) = Some 0).
Proof.
  intros H. apply (shapeLoop_inv E rt texts scripts fs [] _ sh) in H; [done|].
  repeat split; try done.
Qed.

Lemma stringOfRunes_nonempty (rs : list rune) : rs <> [] -> stringOfRunes rs <> [].
Proof.
  destruct rs as [|r rs]; [done|]. intros _. unfold stringOfRunes. simpl.
  pose proof (encodeRune_len r) as H. destruct (encodeRune r); [|done].
  unfold len in H. simpl in H. lia.
Qed.

Section ItemizerRuns.
Variable LookupScript : rune -> Script.

Lemma itemizerStep_runs (runes : list rune) (levels : list Z) (j : Z) (r : rune)
    (st st' : Z * list ScriptItem * list Script) :
  0 <= j -> itemizerRuns j st ->
  itemizerStep LookupScript runes levels j r st = Ok st' ->
  itemizerRuns (j + 1) st'.
Proof.
  intros Hj Hinv H. destruct st as [[i items] scripts].
  destruct Hinv as (Hi0 & Hi & Hne & Hcount). unfold itemizerStep in H.
  apply rbind_Ok in H as (cur & _ & H). apply rbind_Ok in H as (level & _ & H).
  apply rbind_Ok in H as ([script scripts'] & _ & H).
  destruct (Z.eqb_spec j 0) as [Hj0|Hj0]; simpl in H.
  - inversion H; subst; clear H. repeat split; try done; lia.
  - destruct (_ || _).
    + apply rbind_Ok in H as (text & Ht & H). inversion H; subst; clear H.
      apply slice_inv in Ht as (_ & Hhi & ->). repeat split; try lia.
      * apply Forall_app. split; [done|]. constructor; [|done]. simpl.
        apply stringOfRunes_nonempty. intros Hnil.
        apply (f_equal length) in Hnil. rewrite length_take, length_drop in Hnil.
        simpl in Hnil. unfold len in *. lia.
      * rewrite len_app. unfold len at 2. simpl. lia.
    + inversion H; subst; clear H. repeat split; try done; lia.
Qed.

Lemma itemizerLoop_runs (runes : list rune) (levels : list Z) (rest : list rune) :
  forall (j : Z) (st st' : Z * list ScriptItem * list Script),
    0 <= j -> itemizerRuns j st ->
    itemizerLoop LookupScript runes levels rest j st = Ok st' ->
    itemizerRuns (j + len rest) st'.
Proof.
  induction rest as [|r rest IH]; intros j st st' Hj Hinv H; simpl in H.
  - inversion H; subst. unfold len. simpl. by rewrite Z.add_0_r.
  - apply rbind_Ok in H as (st1 & H1 & H).
    apply itemizerStep_runs in H1; [|done|done].
    apply IH in H; [|lia|done].
    replace (j + len (r :: rest)) with (j + 1 + len rest)
      by (unfold len; cbn [length]; lia). done.
Qed.

Lemma ScriptItemizer_runs (runes : list rune) (levels : list Z)
    (items : list ScriptItem) :
  runes <> [] ->
  ScriptItemizer LookupScript runes levels = Ok items ->
  items <> [] /\ Forall (fun it => ScriptItem_Text it <> []) items
  /\ (length items <= length runes)%nat.
Proof.
  intros Hne H. unfold ScriptItemizer in H. apply nonempty_len in Hne as Hlen.
  destruct (Z.eqb_spec (len runes) 0); [lia|].
  apply rbind_Ok in H as ([[i its] scripts] & Hloop & H).
  apply itemizerLoop_runs in Hloop; [|lia|].
  - destruct Hloop as (Hi0 & Hi & Hall & Hcount).
    apply rbind_Ok in H as (last & _ & H). apply rbind_Ok in H as (text & Ht & H).
    inversion H; subst; clear H. apply slice_inv in Ht as (_ & _ & ->).
    split; [by intros [_ ?]%app_eq_nil|]. split.
    + apply Forall_app. split; [done|]. constructor; [|done]. simpl.
      apply stringOfRunes_nonempty. intros Hnil.
      apply (f_equal length) in Hnil. rewrite length_take, length_drop in Hnil.
      simpl in Hnil. unfold len in *. lia.
    + rewrite length_app. simpl. unfold len in *. lia.
  - repeat split; try done; try lia.
Qed.
End ItemizerRuns.

(** X3.  On a rune slice that is not empty, with as many levels as runes and
    none negative, [ScriptItemizer] returns at least one item, no item has an
    empty text, and there are at most as many items as runes. *)
Theorem ScriptItemizer_items_nonempty (lookup : rune -> Script) (runes : list rune)
    (embeddingLevels : list Z) :
  levelsOk runes embeddingLevels -> runes <> [] ->
  exists items,
    ScriptItemizer lookup runes embeddingLevels = Ok items
    /\ items <> []
    /\ Forall (fun it => ScriptItem_Text it <> []) items
    /\ (length items <= length runes)%nat.
Proof.
  intros Hok Hne.
  destruct (ScriptItemizer_texts lookup runes embeddingLevels Hok) as (items & H & _).
  exists items. split; [done|]. by eapply ScriptItemizer_runs.
Qed.

Local Open Scope float_scope.

Section TextKept.
Variable E : Env.
Variable rt : RichText.
Variable log : gostring.
Variable fs : list FontFacePtr.
Variable gix : indexer.
Variable dirs : list Direction.
Variable rots : list Rotation.
Variable items : list Item.
Variable breaks : list Breakpoint.
Variables width height : float.
Variable halign : TextAlign.
Variable lineSpacing : float.

Lemma breakStep_text (position : Z) (item : Item) (st st' : Asm) (c : bool) :
  breakStep E rt log fs gix items breaks width height halign lineSpacing
    position item st = Ok (st', c) ->
  textKept log height st st'.
Proof.
  unfold breakStep. intros H. apply rbind_Ok in H as (st1 & Hp & H).
  apply breakPrepare_frame in Hp as [(_ & _ & _ & Ht) _].
  apply rbind_Ok in H as ([[ascent descent] bottom] & _ & H).
  destruct (lineOverflows height st1 ascent descent) eqn:Hov.
  - right. unfold lineOverflows in Hov. apply andb_true_iff in Hov as [Hh _].
    split; [done|]. apply rbind_Ok in H as (ls & _ & H).
    destruct (0 <? a_j st1)%Z.
    + apply rbind_Ok in H as (g & _ & H). apply rbind_Ok in H as (text & Hs & H).
      apply slice_inv in Hs as (_ & _ & ->). inversion H; subst; clear H. simpl.
      eexists. done.
    + inversion H; subst; clear H. simpl. by exists 0%nat.
  - left. apply rbind_Ok in H as (l & _ & H). apply rbind_Ok in H as (ls & _ & H).
    destruct (position =? len items - 1)%Z.
    + inversion H; subst; clear H. simpl. done.
    + apply rbind_Ok in H as (x & _ & H). inversion H; subst; clear H. simpl. done.
Qed.

Lemma textKept_trans (st1 st2 st3 : Asm) :
  textKept log height st1 st2 -> textKept log height st2 st3 -> textKept log height st1 st3.
Proof.
  intros [H1|H1] [H2|H2]; unfold textKept.
  - left. congruence.
  - by right.
  - right. destruct H1 as [Hh [n Hn]]. split; [done|]. exists n. congruence.
  - by right.
Qed.

Lemma asmLoop_text (its : list Item) :
  forall (position : Z) (st st' : Asm),
    asmLoop E rt log fs gix dirs rots items breaks width height halign lineSpacing
      its position st = Ok st' ->
    textKept log height st st'.
Proof.
  induction its as [|item its IH]; intros position st st' H; cbn [asmLoop] in H.
  - inversion H; subst. by left.
  - apply rbind_Ok in H as (br & _ & H).
    destruct (position =? Break_Position br)%Z.
    { apply rbind_Ok in H as ([st1 c] & Hs & H). apply breakStep_text in Hs.
      destruct c.
      - eapply textKept_trans; [exact Hs|]. by eapply IH.
      - by inversion H; subst. }
    destruct (isType BoxType item).
    { apply rbind_Ok in H as (st1 & Hs & H). apply boxStep_frame in Hs as (_ & _ & _ & Ht).
      apply IH in H. eapply textKept_trans; [|exact H]. left. simpl. done. }
    destruct (isType GlueType item).
    { apply rbind_Ok in H as (st1 & Hs & H). apply glueStep_frame in Hs as (_ & _ & _ & Ht).
      apply IH in H. eapply textKept_trans; [|exact H]. left. simpl. done. }
    apply IH in H. eapply textKept_trans; [|exact H]. left. simpl. done.
Qed.
End TextKept.

Lemma buildLines_text (E : Env) (rt : RichText) (log : gostring)
    (fs : list FontFacePtr) (sh : Shaped) (items : list Item)
    (breaks : list Breakpoint) (width height : float) (halign valign : TextAlign)
    (lineStretch : float) (overflows : bool) (t : Text) :
  buildLines E rt log fs sh items breaks width height halign valign lineStretch
    overflows = Ok t ->
  (exists n : nat, Text_text t = take n log)
  /\ ((height =? 0) = true -> Text_text t = log)
  /\ Text_WritingMode t = mode rt /\ Text_TextOrientation t = orient rt
  /\ Text_width t = width /\ Text_height t = height.
Proof.
  unfold buildLines. intros H.
  apply rbind_Ok in H as (x & _ & H). apply rbind_Ok in H as (st & Hl & H).
  apply rbind_Ok in H as (y & _ & H). inversion H; subst; clear H. simpl.
  apply asmLoop_text in Hl. simpl in Hl. unfold textKept in Hl. simpl in Hl.
  repeat split; try done.
  - destruct Hl as [->|[_ Hn]]; [|done]. exists (length log). by rewrite firstn_all.
  - intros Hh. destruct Hl as [->|[Hne _]]; [done|].
    unfold fneq in Hne. rewrite Hh in Hne. done.
Qed.

Lemma ToText_text (E : Env) (width height : float)
    (halign valign : TextAlign) (indent lineStretch : float) (rt rt' : RichText)
    (t : Text) :
  ToText E width height halign valign indent lineStretch rt = Ok (t, rt') ->
  (exists n : nat, Text_text t = take n (Builder rt))
  /\ (((if bool_decide (mode rt = HorizontalTB) then height else width) =? 0) = true ->
      Text_text t = Builder rt)
  /\ Text_WritingMode t = mode rt /\ Text_TextOrientation t = orient rt
  /\ (Text_width t, Text_height t)
     = (if bool_decide (mode rt = HorizontalTB)
        then (width, height) else (height, width)).
Proof.
  unfold ToText. intros H.
  apply rbind_Ok in H as ([[texts scripts] fs] & _ & H).
  apply rbind_Ok in H as (sh & _ & H).
  assert (fst (fst (swapAxes rt width height halign valign))
          = if bool_decide (mode rt = HorizontalTB)
            then (width, height) else (height, width)) as Hh.
  { unfold swapAxes. by destruct (bool_decide (mode rt = HorizontalTB)). }
  destruct (swapAxes rt width height halign valign) as [[[w h] ha] va].
  simpl in Hh.
  destruct (breakLines E _ w) as [breaks overflows].
  apply rbind_Ok in H as ([items breaks'] & _ & H).
  apply rbind_Ok in H as (t' & Hb & H). injection H as Ht Hrt. subst t'.
  apply buildLines_text in Hb as (Hn & Hz & Hm & Ho & Hw & Hhh).
  rewrite Hw, Hhh, Hh. repeat split; try done.
  intros Hz'. apply Hz. destruct (bool_decide (mode rt = HorizontalTB));
    inversion Hh; subst; done.
Qed.

(** X16.  The text of the result of [ToText] is a prefix of the text of
    the rich text, and it is the whole text when the box has no height (the
    height passed in horizontal mode, the width passed in a vertical mode,
    is zero). *)
Theorem ToText_String_prefix (E : Env) (width height : float)
    (halign valign : TextAlign) (indent lineStretch : float) (rt rt' : RichText)
    (t : Text) :
  ToText E width height halign valign indent lineStretch rt = Ok (t, rt') ->
  (exists n : nat, Text_String t = take n (Builder rt))
  /\ (((if bool_decide (mode rt = HorizontalTB) then height else width) =? 0) = true ->
      Text_String t = Builder rt).
Proof.
  intros H. apply ToText_text in H as (Hn & Hz & _). by split.
Qed.

Lemma ToText_String_prefix_witness :
  exists t rt',
    ToText sampleEnv 100 0 Right Top 0 0 richAbcd = Ok (t, rt')
    /\ Text_String t = [97; 98; 32; 99; 10; 100; 0]%Z.
Proof.
  eexists _, _. split; [vm_compute; reflexivity|].
  refine (proj2 (ToText_String_prefix sampleEnv 100 0 Right Top 0 0 richAbcd _ _ _) _).
  - vm_compute. reflexivity.
  - reflexivity.
Defined.

(** X17.  The result of [ToText] has the writing mode and the text
    orientation of the rich text.  [Size] gives back the width and the height
    passed in horizontal mode, and gives them exchanged in a vertical
    mode. *)
Theorem ToText_Size (E : Env) (width height : float)
    (halign valign : TextAlign) (indent lineStretch : float) (rt rt' : RichText)
    (t : Text) :
  ToText E width height halign valign indent lineStretch rt = Ok (t, rt') ->
  Text_WritingMode t = mode rt /\ Text_TextOrientation t = orient rt
  /\ Text_Size t = (if bool_decide (mode rt = HorizontalTB)
                    then (width, height) else (height, width)).
Proof.
  intros H. apply ToText_text in H as (_ & _ & Hm & Ho & Hs). by repeat split.
Qed.

Lemma ToText_Size_witness :
  exists t rt',
    ToText sampleEnv 100 0 Right Top 0 0 (SetWritingMode VerticalRL richAbcd)
      = Ok (t, rt')
    /\ Text_WritingMode t = VerticalRL /\ Text_TextOrientation t = Natural
    /\ Text_Size t = (0, 100).
Proof.
  eexists _, _. split; [vm_compute; reflexivity|].
  eapply (ToText_Size sampleEnv 100 0 Right Top 0 0 (SetWritingMode VerticalRL richAbcd)).
  vm_compute. reflexivity.
Defined.

Lemma spansAt_ok (ls : list line) (j : Z) (spans : list TextSpan) :
  linesOk ls -> spansAt ls j = Ok spans ->
  Forall (fun sp => Span_Face sp <> None) spans.
Proof.
  unfold spansAt. intros Hok H. apply rbind_Ok in H as (l & Hl & H).
  inversion H; subst. apply idx_inv in Hl as [_ Hl].
  unfold linesOk in Hok. rewrite Forall_forall in Hok. apply Hok.
  by eapply list_elem_of_lookup_2.
Qed.

Lemma setSpansAt_ok (ls ls' : list line) (j : Z) (spans : list TextSpan) :
  linesOk ls -> Forall (fun sp => Span_Face sp <> None) spans ->
  setSpansAt ls j spans = Ok ls' -> linesOk ls'.
Proof.
  unfold setSpansAt. intros Hok Hs H. apply rbind_Ok in H as (l & _ & H).
  apply setidx_inv in H as [_ ->]. by apply Forall_insert.
Qed.

Lemma appendGlyphText_ok (ls ls' : list line) (j : Z) (gs : list Glyph) :
  linesOk ls -> appendGlyphText ls j gs = Ok ls' -> linesOk ls'.
Proof.
  unfold appendGlyphText. intros Hok H. apply rbind_Ok in H as (spans & Hs & H).
  apply rbind_Ok in H as (sp & Hsp & H). apply rbind_Ok in H as (spans' & Hs' & H).
  pose proof (spansAt_ok _ _ _ Hok Hs) as Hall.
  apply setidx_inv in Hs' as [_ ->]. eapply setSpansAt_ok; [done| |exact H].
  apply Forall_insert; [done|]. simpl. apply idx_inv in Hsp as [_ Hsp].
  rewrite Forall_forall in Hall. apply Hall. by eapply list_elem_of_lookup_2.
Qed.

Section FacesKept.
Variable E : Env.
Variable rt : RichText.
Variable log : gostring.
Variable fs : list FontFacePtr.
Variable gix : indexer.
Variable dirs : list Direction.
Variable rots : list Rotation.
Variable items : list Item.
Variable breaks : list Breakpoint.
Variables width height : float.
Variable halign : TextAlign.
Variable lineSpacing : float.
Hypothesis Hdefault : defaultFace rt <> None.

Lemma hyphenate_ok (st st' : Asm) :
  linesOk (a_lines st) -> hyphenate E st = Ok st' ->
  linesOk (a_lines st') /\ a_fonts st' = a_fonts st.
Proof.
  unfold hyphenate. intros Hok H. apply rbind_Ok in H as (spans & Hs & H).
  apply rbind_Ok in H as (sp & Hsp & H). destruct (Span_Face sp) as [f|] eqn:Hf; [|done].
  apply rbind_Ok in H as (gl & _ & H). apply rbind_Ok in H as (spans' & Hs' & H).
  apply rbind_Ok in H as (ls & Hls & H). inversion H; subst; clear H. simpl.
  split; [|done]. pose proof (spansAt_ok _ _ _ Hok Hs) as Hall.
  apply setidx_inv in Hs' as [_ ->]. eapply setSpansAt_ok; [done| |exact Hls].
  apply Forall_insert; [done|]. simpl. congruence.
Qed.

Lemma breakPrepare_ok (item : Item) (st st' : Asm) :
  linesOk (a_lines st) -> breakPrepare E item st = Ok st' ->
  linesOk (a_lines st') /\ a_fonts st' = a_fonts st.
Proof.
  unfold breakPrepare. intros Hok H. apply rbind_Ok in H as (spans & _ & H).
  destruct (0 <? len spans)%Z; [|by inversion H; subst].
  apply rbind_Ok in H as (gs & _ & H). apply rbind_Ok in H as (ls & Hls & H).
  apply rbind_Ok in H as (soft & _ & H). apply appendGlyphText_ok in Hls; [|done].
  destruct soft.
  - apply hyphenate_ok in H; [|done]. done.
  - by inversion H; subst.
Qed.

Lemma breakStep_ok (position : Z) (item : Item) (st st' : Asm) (c : bool) :
  linesOk (a_lines st) ->
  breakStep E rt log fs gix items breaks width height halign lineSpacing
    position item st = Ok (st', c) ->
  linesOk (a_lines st') /\ a_fonts st' = a_fonts st.
Proof.
  unfold breakStep. intros Hok H. apply rbind_Ok in H as (st1 & Hp & H).
  apply breakPrepare_ok in Hp as [Hok1 Hf1]; [|done].
  apply rbind_Ok in H as ([[ascent descent] bottom] & _ & H).
  destruct (lineOverflows height st1 ascent descent).
  - apply rbind_Ok in H as (ls & Hls & H). apply slice_inv in Hls as (_ & _ & ->).
    assert (linesOk (take (Z.to_nat (len (a_lines st1) - 1 - 0))
                       (drop (Z.to_nat 0) (a_lines st1)))) as Hok2
      by (by apply Forall_take, Forall_drop).
    destruct (0 <? a_j st1)%Z.
    + apply rbind_Ok in H as (g & _ & H). apply rbind_Ok in H as (text & _ & H).
      by inversion H; subst.
    + by inversion H; subst.
  - apply rbind_Ok in H as (l & Hl & H). apply rbind_Ok in H as (ls & Hls & H).
    apply setidx_inv in Hls as [_ ->]. apply idx_inv in Hl as [_ Hl].
    assert (linesOk (<[Z.to_nat (a_j st1) := mkLine (a_y st1 + ascent) (line_spans l)]>
                       (a_lines st1))) as Hok2.
    { apply Forall_insert; [done|]. simpl. unfold linesOk in Hok1.
      rewrite Forall_forall in Hok1. apply Hok1. by eapply list_elem_of_lookup_2. }
    destruct (position =? len items - 1)%Z.
    + by inversion H; subst.
    + apply rbind_Ok in H as (x & _ & H). inversion H; subst; clear H. simpl.
      split; [|done]. apply Forall_app. split; [done|]. by repeat constructor.
Qed.

Lemma shiftSpans_ok (n : nat) :
  forall (i : nat) (d : float) (spans : list TextSpan),
    Forall (fun sp => Span_Face sp <> None) spans ->
    Forall (fun sp => Span_Face sp <> None) (shiftSpans n i d spans).
Proof.
  induction n as [|n IH]; intros i d spans Hok; simpl; [done|].
  destruct (spans !! i) as [sp|] eqn:Hsp; [|done].
  apply IH. apply Forall_insert; [done|]. simpl.
  rewrite Forall_forall in Hok. apply Hok. by eapply list_elem_of_lookup_2.
Qed.

Lemma reorderSpans_ok (spans spans' : list TextSpan) (xdx w : float) :
  Forall (fun sp => Span_Face sp <> None) spans ->
  reorderSpans spans xdx w = Ok spans' ->
  Forall (fun sp => Span_Face sp <> None) spans'.
Proof.
  unfold reorderSpans. intros Hok H.
  destruct (_ <? _)%nat; [|by inversion H; subst].
  apply rbind_Ok in H as (spFirst & _ & H). apply rbind_Ok in H as (spLast & Hl & H).
  apply rbind_Ok in H as (spPrev & _ & H). inversion H; subst; clear H.
  apply shiftSpans_ok. apply Forall_insert; [done|]. simpl.
  apply idx_inv in Hl as [_ Hl]. rewrite Forall_forall in Hok. apply Hok.
  by eapply list_elem_of_lookup_2.
Qed.

Lemma spanStep_ok (j : Z) (x : float) (b nextK : Z) (st st' : BoxSt) :
  linesOk (b_lines st) -> fontsOk E fs (b_fonts st) ->
  spanStep E rt log fs dirs rots j x b nextK st = Ok st' ->
  linesOk (b_lines st') /\ fontsOk E fs (b_fonts st').
Proof.
  unfold spanStep. intros Hok Hfonts H.
  apply rbind_Ok in H as (face & Hface & H).
  apply rbind_Ok in H as (ga & _ & H). apply rbind_Ok in H as (gb & _ & H).
  apply rbind_Ok in H as (gsab & _ & H).
  apply rbind_Ok in H as ([[[face' w] objs] fonts] & Hcase & H).
  apply rbind_Ok in H as (dk & _ & H).
  apply rbind_Ok in H as (s & _ & H). apply rbind_Ok in H as (rk & _ & H).
  apply rbind_Ok in H as (gsab' & _ & H).
  apply rbind_Ok in H as (spans & Hspans & H).
  apply rbind_Ok in H as (spans1 & Hre & H).
  apply rbind_Ok in H as (ls & Hls & H). inversion H; subst; clear H. simpl.
  pose proof (spansAt_ok _ _ _ Hok Hspans) as Hall.
  assert (face' <> None /\ fontsOk E fs fonts) as [Hne Hfonts'].
  { destruct face as [f|].
    - inversion Hcase; subst; clear Hcase. split; [done|].
      intros y Hy. apply elem_of_union in Hy as [Hy|Hy]; [|by apply Hfonts].
      apply elem_of_singleton in Hy. subst y. exists f. split; [|done].
      apply idx_inv in Hface as [_ Hface]. by eapply list_elem_of_lookup_2.
    - apply rbind_Ok in Hcase as (spans0 & Hs0 & Hcase).
      apply rbind_Ok in Hcase as (face0 & Hf0 & Hcase).
      apply rbind_Ok in Hcase as ([w0 objs0] & _ & Hcase).
      inversion Hcase; subst; clear Hcase. split; [|done].
      destruct (0 <? len spans0)%Z.
      + apply rbind_Ok in Hf0 as (sp & Hsp & Hf0). inversion Hf0; subst.
        pose proof (spansAt_ok _ _ _ Hok Hs0) as Hall0.
        apply idx_inv in Hsp as [_ Hsp]. rewrite Forall_forall in Hall0.
        apply Hall0. by eapply list_elem_of_lookup_2.
      + by inversion Hf0; subst. }
  split; [|done]. eapply setSpansAt_ok; [done| |exact Hls].
  assert (Forall (fun sp => Span_Face sp <> None)
            (spans ++ [mkTextSpan (x + b_dx st) w face' s objs gsab' (b_a st) dk rk]))
    as Hall1 by (apply Forall_app; split; [done|by repeat constructor]).
  destruct (isRTL dk).
  - by eapply reorderSpans_ok.
  - by inversion Hre; subst.
Qed.

Lemma boxLoop_ok (n : nat) :
  forall (j : Z) (x : float) (iend b : Z) (st st' : BoxSt),
    linesOk (b_lines st) -> fontsOk E fs (b_fonts st) ->
    boxLoop E rt log fs gix dirs rots n j x iend b st = Ok st' ->
    linesOk (b_lines st') /\ fontsOk E fs (b_fonts st').
Proof.
  induction n as [|n IH]; intros j x iend b st st' Hok Hfonts; simpl;
    [by intros [= <-]|].
  intros H. apply rbind_Ok in H as (st1 & Hstep & H).
  destruct (negb (index gix b =? b_k st)%Z || (b =? iend)%Z).
  - apply spanStep_ok in Hstep as [Hok1 Hf1]; [|done|done]. by eapply IH.
  - inversion Hstep; subst. by eapply IH.
Qed.

Lemma boxStep_ok (item : Item) (st st' : Asm) :
  linesOk (a_lines st) -> fontsOk E fs (a_fonts st) ->
  boxStep E rt log fs gix dirs rots item st = Ok st' ->
  linesOk (a_lines st') /\ fontsOk E fs (a_fonts st').
Proof.
  unfold boxStep. intros Hok Hfonts H. apply rbind_Ok in H as (bst & Hloop & H).
  inversion H; subst; clear H. simpl. by eapply boxLoop_ok in Hloop.
Qed.

Lemma glueStep_ok (item : Item) (st st' : Asm) :
  linesOk (a_lines st) -> glueStep breaks item st = Ok st' ->
  linesOk (a_lines st') /\ a_fonts st' = a_fonts st.
Proof.
  unfold glueStep. intros Hok H. apply rbind_Ok in H as (br & _ & H).
  apply rbind_Ok in H as (spans & _ & H). simpl in H.
  destruct (0 <? len spans)%Z.
  - apply rbind_Ok in H as (gs & _ & H). apply rbind_Ok in H as (ls & Hls & H).
    inversion H; subst; clear H. simpl. split; [|done].
    by eapply appendGlyphText_ok.
  - by inversion H; subst.
Qed.

Lemma asmLoop_ok (its : list Item) :
  forall (position : Z) (st st' : Asm),
    linesOk (a_lines st) -> fontsOk E fs (a_fonts st) ->
    asmLoop E rt log fs gix dirs rots items breaks width height halign lineSpacing
      its position st = Ok st' ->
    linesOk (a_lines st') /\ fontsOk E fs (a_fonts st').
Proof.
  induction its as [|item its IH]; intros position st st' Hok Hfonts H;
    cbn [asmLoop] in H.
  - by inversion H; subst.
  - apply rbind_Ok in H as (br & _ & H).
    destruct (position =? Break_Position br)%Z.
    { apply rbind_Ok in H as ([st1 c] & Hs & H).
      apply breakStep_ok in Hs as [Hok1 Hf1]; [|done].
      destruct c.
      - eapply IH; [done| |exact H]. by rewrite Hf1.
      - inversion H; subst. split; [done|]. by rewrite Hf1. }
    destruct (isType BoxType item).
    { apply rbind_Ok in H as (st1 & Hs & H).
      apply boxStep_ok in Hs as [Hok1 Hf1]; [|done|done].
      eapply IH; [| |exact H]; done. }
    destruct (isType GlueType item).
    { apply rbind_Ok in H as (st1 & Hs & H).
      apply glueStep_ok in Hs as [Hok1 Hf1]; [|done].
      eapply IH; [| |exact H]; simpl; [done|by rewrite Hf1]. }
    eapply IH; [| |exact H]; done.
Qed.
End FacesKept.

Lemma linesOk_spans (ls : list line) :
  forall ls' : list line,
    map line_spans ls' = map line_spans ls -> linesOk ls -> linesOk ls'.
Proof.
  induction ls as [|l ls IH]; intros [|l' ls'] Hm Hok; try done.
  simpl in Hm. inversion Hm as [[Hl Hls]]. apply Forall_cons in Hok as [Hok1 Hok2].
  constructor; [by rewrite Hl|by apply IH].
Qed.

Lemma appendRuns_faces (E : Env) (rt : RichText) (logRunes : list rune)
    (embeddingLevels : list Z) (curFace i j : Z)
    (runs runs' : list gostring * list Script * list FontFacePtr) :
  appendRuns E rt logRunes embeddingLevels curFace i j runs = Ok runs' ->
  Forall (fun f => f ∈ faces rt) (snd runs) ->
  Forall (fun f => f ∈ faces rt) (snd runs').
Proof.
  unfold appendRuns. destruct runs as [[texts scripts] fs]. intros H Hin.
  apply rbind_Ok in H as (face & Hface & H). apply idx_inv in Hface as [_ Hface].
  assert (face ∈ faces rt) as Hmem by (by eapply list_elem_of_lookup_2).
  destruct face as [f|].
  - apply rbind_Ok in H as (rs & _ & H). apply rbind_Ok in H as (ls & _ & H).
    apply rbind_Ok in H as (its & _ & H). inversion H; subst; clear H. simpl in *.
    apply Forall_app. split; [done|]. apply Forall_forall. intros x Hx.
    apply list_elem_of_fmap in Hx as (y & -> & _). done.
  - apply rbind_Ok in H as (rs & _ & H). inversion H; subst; clear H. simpl in *.
    apply Forall_app. split; [done|]. by constructor.
Qed.

Lemma faceLoop_faces (E : Env) (rt : RichText) (logRunes : list rune)
    (embeddingLevels : list Z) (n : nat) :
  forall (j i curFace : Z) (runs : list gostring * list Script * list FontFacePtr)
         (i' curFace' : Z) (runs' : list gostring * list Script * list FontFacePtr),
    faceLoop E rt logRunes embeddingLevels n j i curFace runs = Ok (i', curFace', runs') ->
    Forall (fun f => f ∈ faces rt) (snd runs) ->
    Forall (fun f => f ∈ faces rt) (snd runs').
Proof.
  induction n as [|n IH]; intros j i curFace runs i' curFace' runs' H Hin;
    cbn [faceLoop] in H.
  - by inversion H; subst.
  - destruct (negb (index (locs rt) j =? curFace)%Z).
    + apply rbind_Ok in H as (runs1 & H1 & H).
      apply appendRuns_faces in H1; [|done]. by eapply IH.
    + by eapply IH.
Qed.

Lemma itemizeFaces_faces (E : Env) (rt : RichText) (logRunes : list rune)
    (embeddingLevels : list Z) (texts : list gostring) (scripts : list Script)
    (fs : list FontFacePtr) :
  itemizeFaces E rt logRunes embeddingLevels = Ok (texts, scripts, fs) ->
  Forall (fun f => f ∈ faces rt) fs.
Proof.
  unfold itemizeFaces. intros H.
  apply rbind_Ok in H as ([[i curFace] runs] & Hloop & H).
  apply faceLoop_faces in Hloop; [|by constructor].
  destruct (i <? len logRunes)%Z.
  - by apply appendRuns_faces in H.
  - by inversion H; subst.
Qed.

Lemma buildLines_ok (E : Env) (rt : RichText) (log : gostring)
    (fs : list FontFacePtr) (sh : Shaped) (items : list Item)
    (breaks : list Breakpoint) (width height : float) (halign valign : TextAlign)
    (lineStretch : float) (overflows : bool) (t : Text) :
  defaultFace rt <> None ->
  buildLines E rt log fs sh items breaks width height halign valign lineStretch
    overflows = Ok t ->
  linesOk (Text_lines t) /\ fontsOk E fs (Text_fonts t).
Proof.
  unfold buildLines. intros Hd H.
  apply rbind_Ok in H as (x & _ & H). apply rbind_Ok in H as (st & Hl & H).
  apply rbind_Ok in H as (y & _ & H). inversion H; subst; clear H. simpl.
  apply asmLoop_ok in Hl as [Hok Hf]; [|done| |].
  - split; [|done]. eapply linesOk_spans; [|exact Hok]. apply alignLines_spans.
  - simpl. by repeat constructor.
  - simpl. intros x0 Hx. by apply elem_of_empty in Hx.
Qed.

Lemma ToText_ok (E : Env) (width height : float)
    (halign valign : TextAlign) (indent lineStretch : float) (rt rt' : RichText)
    (t : Text) :
  defaultFace rt <> None ->
  ToText E width height halign valign indent lineStretch rt = Ok (t, rt') ->
  linesOk (Text_lines t) /\ fontsOk E (faces rt) (Text_fonts t).
Proof.
  unfold ToText. intros Hd H.
  apply rbind_Ok in H as ([[texts scripts] fs] & Hi & H).
  apply itemizeFaces_faces in Hi.
  apply rbind_Ok in H as (sh & _ & H).
  destruct (swapAxes rt width height halign valign) as [[[w h] ha] va].
  destruct (breakLines E _ w) as [breaks overflows].
  apply rbind_Ok in H as ([items breaks'] & _ & H).
  apply rbind_Ok in H as (t' & Hb & H). inversion H; subst; clear H.
  apply buildLines_ok in Hb as [Hok Hf]; [|done]. split; [done|].
  intros x Hx. destruct (Hf x Hx) as (f & Hin & ->). exists f. split; [|done].
  rewrite Forall_forall in Hi. by apply Hi.
Qed.

Lemma forEach_walkSpan (E : Env) (face_XOffset face_YOffset : nat -> Z)
    (m : WritingMode) (y : float) (spans : list TextSpan) :
  Forall (fun sp => Span_Face sp <> None) spans ->
  exists calls,
    forEach (walkSpan E face_XOffset face_YOffset m y) spans = Ok calls
    /\ map snd calls = spans.
Proof.
  induction 1 as [|sp spans Hsp Hall (calls & IH & Hm)]; [by exists []|].
  cbn [forEach]. unfold walkSpan at 1. destruct (Span_Face sp) as [f|]; [|done].
  destruct (bool_decide (m = HorizontalTB)); cbn [rbind]; rewrite IH; cbn [rbind];
    eexists; (split; [done|]); simpl; by rewrite Hm.
Qed.

Lemma WalkSpans_Ok (E : Env) (face_XOffset face_YOffset : nat -> Z) (t : Text) :
  linesOk (Text_lines t) ->
  exists calls,
    WalkSpans E face_XOffset face_YOffset t = Ok calls
    /\ map snd calls = concat (map line_spans (Text_lines t)).
Proof.
  unfold WalkSpans, linesOk. generalize (Text_WritingMode t). intros m Hok.
  assert (exists cs,
            forEach (fun l => forEach (walkSpan E face_XOffset face_YOffset m (line_y l))
                                (line_spans l)) (Text_lines t) = Ok cs
            /\ map snd (concat cs) = concat (map line_spans (Text_lines t)))
    as (cs & -> & Hcs).
  { induction Hok as [|l ls Hl Hls (cs & IH & Hm)]; [by exists []|].
    cbn [forEach].
    destruct (forEach_walkSpan E face_XOffset face_YOffset m (line_y l) _ Hl)
      as (c & -> & Hc).
    cbn [rbind]. rewrite IH. cbn [rbind]. eexists. split; [done|].
    simpl. by rewrite map_app, Hc, Hm. }
  cbn [rbind]. by eexists.
Qed.

(** X18.  Every span of the result of [ToText] on a rich text with a
    default face has a face: an object span takes the face of the span before
    it, or the default face.  So [WalkSpans], which dereferences the face of
    every span, calls the callback for every span, in order, without a
    panic. *)
Theorem ToText_spans_have_faces (E : Env) (face_XOffset face_YOffset : nat -> Z)
    (width height : float) (halign valign : TextAlign) (indent lineStretch : float)
    (rt rt' : RichText) (t : Text) :
  defaultFace rt <> None ->
  ToText E width height halign valign indent lineStretch rt = Ok (t, rt') ->
  Forall (fun l => Forall (fun sp => Span_Face sp <> None) (line_spans l))
    (Text_lines t)
  /\ exists calls,
       WalkSpans E face_XOffset face_YOffset t = Ok calls
       /\ map snd calls = concat (map line_spans (Text_lines t)).
Proof.
  intros Hd H. apply ToText_ok in H as [Hok _]; [|done]. split; [done|].
  by apply WalkSpans_Ok.
Qed.

(** X19.  Every font recorded in the result of [ToText] is the font of a
    face of the rich text. *)
Theorem ToText_fonts (E : Env)
    (width height : float) (halign valign : TextAlign) (indent lineStretch : float)
    (rt rt' : RichText) (t : Text) :
  defaultFace rt <> None ->
  ToText E width height halign valign indent lineStretch rt = Ok (t, rt') ->
  forall x : nat, x ∈ Text_fonts t ->
    exists f : nat, Some f ∈ faces rt /\ x = face_Font E f.
Proof.
  intros Hd H. apply ToText_ok in H as [_ Hf]; done.
Qed.

Section HeightsTotal.
Variable E : Env.

Lemma heightsObjectsH_Ok (f : nat) (objs : list TextSpanObject) :
  forall q : Quad, exists q', heightsObjectsH E (Some f) objs q = Ok q'.
Proof.
  induction objs as [|obj objs IH]; intros q; cbn [heightsObjectsH]; [by eexists|].
  unfold Object_Heights. destruct (Object_VAlign obj); cbn [rbind]; apply IH.
Qed.

Lemma heightsSpansH_Ok (spans : list TextSpan) :
  Forall (fun sp => Span_Face sp <> None) spans ->
  forall q : Quad, exists q', heightsSpansH E spans q = Ok q'.
Proof.
  induction 1 as [|sp spans Hsp Hall IH]; intros q; cbn [heightsSpansH]; [by eexists|].
  destruct (Span_Face sp) as [f|] eqn:Hf; [|done]. destruct (IsText sp).
  - unfold heightsOf. cbn [rbind]. destruct (face_heights E f HorizontalTB) as [[[t a] d] b].
    cbn [rbind]. apply IH.
  - destruct (heightsObjectsH_Ok f (Span_Objects sp) q) as (q1 & ->). cbn [rbind].
    apply IH.
Qed.

Lemma heightsGlyphsV_Ok (m : WritingMode) (f : nat) (gs : list Glyph) :
  forall qw : Quad * float, exists qw', heightsGlyphsV E m (Some f) gs qw = Ok qw'.
Proof.
  induction gs as [|g gs IH]; intros [q w]; cbn [heightsGlyphsV]; [by eexists|].
  destruct (Glyph_Vertical g).
  - cbn [rbind]. apply IH.
  - unfold heightsOf. cbn [rbind]. destruct (face_heights E f m) as [[[t a] d] b].
    cbn [rbind]. apply IH.
Qed.

Lemma heightsSpansV_Ok (m : WritingMode) (spans : list TextSpan) :
  Forall (fun sp => Span_Face sp <> None) spans ->
  forall qw : Quad * float, exists qw', heightsSpansV E m spans qw = Ok qw'.
Proof.
  induction 1 as [|sp spans Hsp Hall IH]; intros qw; cbn [heightsSpansV]; [by eexists|].
  destruct (Span_Face sp) as [f|] eqn:Hf; [|done]. destruct (IsText sp).
  - destruct (heightsGlyphsV_Ok m f (Span_Glyphs sp) qw) as (qw1 & ->). cbn [rbind].
    apply IH.
  - cbn [rbind]. apply IH.
Qed.

Lemma line_Heights_Ok (l : line) (m : WritingMode) :
  Forall (fun sp => Span_Face sp <> None) (line_spans l) ->
  exists q, line_Heights E l m = Ok q.
Proof.
  intros Hok. unfold line_Heights. destruct (bool_decide (m = HorizontalTB)).
  - by apply heightsSpansH_Ok.
  - destruct (heightsSpansV_Ok m _ Hok ((0, 0, 0, 0), 0)) as ([q w] & ->).
    cbn [rbind]. by eexists.
Qed.

Lemma Text_Heights_Ok (t : Text) :
  linesOk (Text_lines t) ->
  exists r, Text_Heights E t = Ok r
            /\ (Text_lines t = [] -> r = (0, 0)).
Proof.
  intros Hok. unfold Text_Heights. destruct (Z.eqb_spec (len (Text_lines t)) 0) as [H0|H0].
  { by eexists. }
  pose proof (len_nonneg (Text_lines t)) as Hn.
  destruct (idx_Ok (Text_lines t) 0) as (l1 & -> & H1); [lia|].
  destruct (idx_Ok (Text_lines t) (len (Text_lines t) - 1)) as (l2 & -> & H2); [lia|].
  cbn [rbind]. unfold linesOk in Hok. rewrite Forall_forall in Hok.
  destruct (line_Heights_Ok l1 (Text_WritingMode t)) as ([[[t1 a1] d1] b1] & ->).
  { apply Hok. by eapply list_elem_of_lookup_2. }
  cbn [rbind].
  destruct (line_Heights_Ok l2 (Text_WritingMode t)) as ([[[t2 a2] d2] b2] & ->).
  { apply Hok. by eapply list_elem_of_lookup_2. }
  cbn [rbind]. eexists. split; [done|]. intros Hnil. rewrite Hnil in H0. done.
Qed.
End HeightsTotal.

Local Open Scope Z_scope.

Lemma rangeStringFrom_offsets (s : gostring) :
  forall (k : nat) (off : Z),
    Forall (fun jr => off <= fst jr < off + len s) (rangeStringFrom k off s).
Proof.
  induction s as [|b s IH]; intros k off; [constructor|].
  assert (len (b :: s) = 1 + len s) as Hl by (unfold len; cbn [length]; lia).
  pose proof (len_nonneg s) as Hs.
  cbn [rangeStringFrom]. destruct k as [|k].
  - destruct (decodeRune (b :: s)) as [r w]. constructor; [simpl; lia|].
    eapply Forall_impl; [apply IH|]. simpl. intros; lia.
  - eapply Forall_impl; [apply IH|]. simpl. intros; lia.
Qed.

Lemma runesOfString_nonempty (s : gostring) : s <> [] -> runesOfString s <> [].
Proof.
  destruct s as [|b s]; [done|]. intros _. unfold runesOfString, rangeString.
  cbn [rangeStringFrom]. by destruct (decodeRune (b :: s)).
Qed.

Section TextLineProofs.
Variable E : Env.
Variable face_Script : nat -> Script.
Variable f : nat.
Variable s : gostring.
Variable halign : TextAlign.
Hypothesis Hlevels : forall runes : list rune, levelsOk runes (EmbeddingLevels E runes).

Lemma lineSpans_ok (ppem : float) (items : list ScriptItem) :
  forall (lineWidth : float) (spans : list TextSpan),
    Forall (fun it => ScriptItem_Text it <> []) items ->
    Forall (lineSpanOk f) spans ->
    Forall (lineSpanOk f) (fst (lineSpans E face_Script f ppem items lineWidth spans))
    /\ length (fst (lineSpans E face_Script f ppem items lineWidth spans))
       = (length spans + length items)%nat
    /\ map Span_Text (fst (lineSpans E face_Script f ppem items lineWidth spans))
       = map Span_Text spans ++ map ScriptItem_Text items.
Proof.
  induction items as [|item items IH]; intros lineWidth spans Hit Hsp;
    cbn [lineSpans].
  - simpl. rewrite app_nil_r. repeat split; [done|lia].
  - apply Forall_cons in Hit as [Hi Hit].
    destruct (Shape E f _ _ _ _) as [glyphs direction].
    edestruct (IH (lineWidth + face_textWidth E f glyphs)%float) as (H1 & H2 & H3);
      [exact Hit| |].
    2: { split; [exact H1|]. split.
         - rewrite H2, length_app. simpl. lia.
         - rewrite H3, map_app. simpl. by rewrite <- app_assoc. }
    apply Forall_app. split; [done|]. by repeat constructor.
Qed.

Lemma textLine_ok (i j : Z) (y : float) :
  0 <= i < j -> j <= len s ->
  exists l, textLine E face_Script f s halign i j y = Ok l
            /\ line_y l = y /\ line_spans l <> []
            /\ Forall (lineSpanOk f) (line_spans l)
            /\ concat (map Span_Text (line_spans l))
               = stringOfRunes (runesOfString
                                  (take (Z.to_nat (j - i)) (drop (Z.to_nat i) s))).
Proof.
  intros Hi Hj. unfold textLine. rewrite slice_Ok by lia. cbn [rbind].
  set (sub := take _ _).
  assert (sub <> []) as Hsub.
  { subst sub. intros Hnil. apply (f_equal length) in Hnil.
    rewrite length_take, length_drop in Hnil. simpl in Hnil. unfold len in *. lia. }
  unfold itemizeString.
  destruct (ScriptItemizer_texts (LookupScript E) (runesOfString sub)
              (EmbeddingLevels E (runesOfString sub)) (Hlevels _))
    as (items & Hitems & Htexts).
  pose proof (ScriptItemizer_runs (LookupScript E) _ _ items
                (runesOfString_nonempty sub Hsub) Hitems) as (Hne & Hall & _).
  rewrite Hitems. cbn [rbind].
  pose proof (lineSpans_ok (face_PPEM E f) items 0%float [] Hall (Forall_nil_2 _))
    as (H1 & H2 & H3).
  destruct (lineSpans E face_Script f (face_PPEM E f) items 0 []) as [spans lineWidth].
  cbn [fst] in *. simpl in H2, H3.
  assert (spans <> []) as Hspans.
  { intros ->. simpl in H2. destruct items; [done|simpl in H2; lia]. }
  assert (forall x : float,
            Forall (lineSpanOk f) (map (fun sp => setSpanX sp x) spans)
            /\ map Span_Text (map (fun sp => setSpanX sp x) spans) = map Span_Text spans
            /\ map (fun sp => setSpanX sp x) spans <> []) as Hmap.
  { intros x. split; [|split].
    - apply Forall_fmap. eapply Forall_impl; [exact H1|]. by intros sp (? & ? & ?).
    - rewrite map_map. by apply map_ext.
    - by destruct spans. }
  unfold itemTexts in Htexts.
  destruct (bool_decide (halign = Center) || bool_decide (halign = Middle)).
  { destruct (Hmap (- lineWidth / 2)%float) as (G1 & G2 & G3).
    eexists. split; [done|]. simpl. rewrite G2, H3, Htexts. done. }
  destruct (bool_decide (halign = Right)).
  { destruct (Hmap (- lineWidth)%float) as (G1 & G2 & G3).
    eexists. split; [done|]. simpl. rewrite G2, H3, Htexts. done. }
  eexists. split; [done|]. simpl. rewrite H3, Htexts. done.
Qed.
End TextLineProofs.

Lemma RuneLen_separator (r : rune) : IsParagraphSeparator r = true -> 1 <= RuneLen r.
Proof.
  unfold IsParagraphSeparator, RuneLen, MaxRune. intros H.
  repeat match goal with
         | |- context [if ?c then _ else _] => destruct c eqn:?
         end; lia.
Qed.

Section TextLineLoop.
Variable E : Env.
Variable face_Script : nat -> Script.
Variable f : nat.
Variable s : gostring.
Variable halign : TextAlign.
(** What every line made by [textLine] satisfies. *)
Variable P : line -> Prop.
Hypothesis HP : forall (i j : Z) (y : float),
  0 <= i < j -> j <= len s ->
  exists l, textLine E face_Script f s halign i j y = Ok l /\ P l.

Lemma textLineStep_inv (j : Z) (r : rune) (st : LineSt) :
  0 <= j <= len s -> 0 <= l_i st -> Forall P (l_lines st) ->
  exists st',
    textLineStep E face_Script f s halign (j, r) st = Ok st'
    /\ 0 <= l_i st' /\ Forall P (l_lines st')
    /\ (length (l_lines st')
        <= length (l_lines st) + (if IsParagraphSeparator r then 1 else 0))%nat.
Proof.
  intros Hj Hi Hall. unfold textLineStep.
  destruct (IsParagraphSeparator r) eqn:Hsep.
  2: { exists st. repeat split; try done; lia. }
  destruct (l_skipNext st).
  { eexists. split; [done|]. simpl. repeat split; try done; lia. }
  assert (exists lines,
            (if l_i st <? j
             then (let* l := textLine E face_Script f s halign (l_i st) j (l_y st) in
                   Ok (l_lines st ++ [l]))
             else Ok (l_lines st)) = Ok lines
            /\ Forall P lines
            /\ (length lines <= length (l_lines st) + 1)%nat)
    as (lines & -> & Hlines & Hlen).
  { destruct (Z.ltb_spec (l_i st) j).
    - destruct (HP (l_i st) j (l_y st)) as (l & -> & Hl); [lia|lia|].
      cbn [rbind]. eexists. split; [done|]. split.
      + apply Forall_app. split; [done|]. by constructor.
      + rewrite length_app. simpl. lia.
    - eexists. split; [done|]. split; [done|lia]. }
  cbn [rbind]. pose proof (RuneLen_separator r Hsep) as Hr.
  destruct ((r =? 13) && (j + 1 <? len s)) eqn:Hc.
  - apply andb_true_iff in Hc as [_ Hc]. apply Z.ltb_lt in Hc.
    destruct (idx_Ok s (j + 1)) as (b & -> & _); [lia|]. cbn [rbind].
    eexists. split; [done|]. simpl. repeat split; try done; lia.
  - cbn [rbind]. eexists. split; [done|]. simpl. repeat split; try done; lia.
Qed.

Lemma textLineLoop_inv (rs : list (Z * rune)) :
  forall st : LineSt,
    Forall (fun jr => 0 <= fst jr <= len s) rs ->
    0 <= l_i st -> Forall P (l_lines st) ->
    exists st',
      textLineLoop E face_Script f s halign rs st = Ok st'
      /\ Forall P (l_lines st')
      /\ (length (l_lines st')
          <= length (l_lines st)
             + length (List.filter (fun jr => IsParagraphSeparator (snd jr)) rs))%nat.
Proof.
  induction rs as [|[j r] rs IH]; intros st Hrs Hi Hall; cbn [textLineLoop].
  - exists st. repeat split; try done. simpl. lia.
  - apply Forall_cons in Hrs as [Hj Hrs]. simpl in Hj.
    destruct (textLineStep_inv j r st Hj Hi Hall) as (st1 & -> & Hi1 & Hall1 & Hlen1).
    cbn [rbind]. destruct (IH st1 Hrs Hi1 Hall1) as (st' & -> & Hall' & Hlen').
    exists st'. repeat split; try done. cbn [List.filter snd].
    destruct (IsParagraphSeparator r); simpl in *; lia.
Qed.

Lemma NewTextLine_inv :
  exists t,
    NewTextLine E face_Script (Some f) s halign = Ok t
    /\ Text_text t = s /\ Text_fonts t = {[face_Font E f]}
    /\ Text_WritingMode t = HorizontalTB /\ Text_Overflows t = false
    /\ Forall P (Text_lines t)
    /\ (length (Text_lines t)
        <= length (List.filter (fun jr => IsParagraphSeparator (snd jr))
                     (rangeString (s ++ [10%Z]))))%nat.
Proof.
  unfold NewTextLine.
  destruct (textLineLoop_inv (rangeString (s ++ [10])) (mkLineSt 0 0 false []))
    as (st & -> & Hall & Hlen).
  - unfold rangeString. eapply Forall_impl; [apply rangeStringFrom_offsets|].
    simpl. intros jr Hjr. rewrite len_app in Hjr. unfold len in Hjr at 2.
    simpl in Hjr. lia.
  - simpl. lia.
  - simpl. constructor.
  - cbn [rbind]. eexists. split; [done|]. simpl. repeat split; try done.
Qed.
End TextLineLoop.

Local Open Scope float_scope.

Lemma spansChained_snoc (spans : list TextSpan) (sp : TextSpan) :
  forall x : float,
    spansChained x spans -> Span_X sp = spansWidth x spans ->
    spansChained x (spans ++ [sp]).
Proof.
  induction spans as [|sp0 spans IH]; intros x Hc Hx; simpl in *; [done|].
  destruct Hc as [Hx0 Hc]. split; [done|]. by apply IH.
Qed.

Lemma spansWidth_snoc (spans : list TextSpan) (sp : TextSpan) (x : float) :
  spansWidth x (spans ++ [sp]) = spansWidth x spans + Span_Width sp.
Proof. unfold spansWidth. by rewrite fold_left_app. Qed.

Lemma spansWidth_setSpanX (x' : float) (spans : list TextSpan) :
  forall x : float,
    spansWidth x (map (fun sp => setSpanX sp x') spans) = spansWidth x spans.
Proof.
  unfold spansWidth. induction spans as [|sp spans IH]; intros x; simpl; [done|].
  apply IH.
Qed.

Lemma lineSpans_chained (E : Env) (face_Script : nat -> Script) (f : nat)
    (ppem : float) (items : list ScriptItem) :
  forall (lineWidth : float) (spans : list TextSpan) (x0 : float),
    spansChained x0 spans -> spansWidth x0 spans = lineWidth ->
    spansChained x0 (fst (lineSpans E face_Script f ppem items lineWidth spans))
    /\ spansWidth x0 (fst (lineSpans E face_Script f ppem items lineWidth spans))
       = snd (lineSpans E face_Script f ppem items lineWidth spans).
Proof.
  induction items as [|item items IH]; intros lineWidth spans x0 Hc Hw;
    cbn [lineSpans]; [done|].
  destruct (Shape E f _ _ _ _) as [glyphs direction]. apply IH.
  - apply spansChained_snoc; [done|]. simpl. done.
  - rewrite spansWidth_snoc. simpl. by rewrite Hw.
Qed.

Lemma textLine_aligned (E : Env) (face_Script : nat -> Script) (f : nat)
    (s : gostring) (halign : TextAlign) (i j : Z) (y : float) (l : line) :
  textLine E face_Script f s halign i j y = Ok l -> lineAligned halign l.
Proof.
  unfold textLine. intros H. apply rbind_Ok in H as (sub & _ & H).
  apply rbind_Ok in H as (items & _ & H).
  pose proof (lineSpans_chained E face_Script f (face_PPEM E f) items 0 [] 0 I eq_refl)
    as [Hc Hw].
  destruct (lineSpans E face_Script f (face_PPEM E f) items 0 []) as [spans lineWidth].
  cbn [fst snd] in *. unfold lineAligned.
  destruct (bool_decide (halign = Center) || bool_decide (halign = Middle)).
  { inversion H; subst; clear H. simpl. rewrite spansWidth_setSpanX.
    apply Forall_fmap. apply Forall_forall. intros sp _. simpl. done. }
  destruct (bool_decide (halign = Right)).
  { inversion H; subst; clear H. simpl. rewrite spansWidth_setSpanX.
    apply Forall_fmap. apply Forall_forall. intros sp _. simpl. done. }
  inversion H; subst; clear H. simpl. done.
Qed.

(** X22.  With bidi levels as many as runes and none negative,
    [NewTextLine] on a face returns.  The text of the result is the string
    and its only font is the font of the face.  No line is without spans (an
    empty stretch between two separators only moves the baseline); every
    span has the face given, a text that is not empty and no objects.  There
    are no more lines than paragraph separators in the string followed by a
    line feed, and [Empty] holds exactly when there are no lines. *)
Theorem NewTextLine_lines (E : Env) (face_Script : nat -> Script) (f : nat)
    (s : gostring) (halign : TextAlign) :
  (forall runes : list rune, levelsOk runes (EmbeddingLevels E runes)) ->
  exists t,
    NewTextLine E face_Script (Some f) s halign = Ok t
    /\ Text_String t = s /\ Text_fonts t = {[face_Font E f]}
    /\ Text_WritingMode t = HorizontalTB /\ Text_Overflows t = false
    /\ Forall (fun l => line_spans l <> [] /\ Forall (lineSpanOk f) (line_spans l))
         (Text_lines t)
    /\ (length (Text_lines t)
        <= length (List.filter (fun jr => IsParagraphSeparator (snd jr))
                     (rangeString (s ++ [10%Z]))))%nat
    /\ (Text_Empty t = true <-> Text_lines t = []).
Proof.
  intros Hlevels.
  destruct (NewTextLine_inv E face_Script f s halign
              (fun l => line_spans l <> [] /\ Forall (lineSpanOk f) (line_spans l)))
    as (t & Ht & H1 & H2 & H3 & H4 & H5 & H6).
  { intros i j y Hi Hj.
    destruct (textLine_ok E face_Script f s halign Hlevels i j y Hi Hj)
      as (l & Hl & _ & Hne & Hall & _).
    by exists l. }
  exists t. repeat split; try done.
  - unfold Text_Empty. destruct (Text_lines t) as [|l ls]; [done|].
    apply Forall_cons in H5 as [[Hne _] _]. simpl.
    destruct (line_spans l); [done|]. unfold len. simpl. done.
  - intros Hn. unfold Text_Empty. by rewrite Hn.
Qed.

(** X23.  Where [NewTextLine] puts the spans of a line.  For Center and
    Middle every span of the line is put at minus half the width of the line,
    for Right at minus the width of the line: the same X for every span.  For
    any other alignment the spans follow one another from 0, each starting
    where the one before it ends. *)
Theorem NewTextLine_alignment (E : Env) (face_Script : nat -> Script) (f : nat)
    (s : gostring) (halign : TextAlign) :
  (forall runes : list rune, levelsOk runes (EmbeddingLevels E runes)) ->
  exists t,
    NewTextLine E face_Script (Some f) s halign = Ok t
    /\ Forall (lineAligned halign) (Text_lines t).
Proof.
  intros Hlevels.
  destruct (NewTextLine_inv E face_Script f s halign (lineAligned halign))
    as (t & Ht & _ & _ & _ & _ & H5 & _).
  { intros i j y Hi Hj.
    destruct (textLine_ok E face_Script f s halign Hlevels i j y Hi Hj)
      as (l & Hl & _).
    exists l. split; [done|]. by eapply textLine_aligned. }
  by exists t.
Qed.

(** X21.  When [NewTextBox] returns, the face was not nil; the text is laid
    out horizontally in natural orientation; [Size] is the width and height
    given; the text is a prefix of the string, and the whole string when the
    height is zero; every span has a face; and every font recorded is the
    font of the face given. *)
Theorem NewTextBox_text (E : Env) (face : FontFacePtr) (s : gostring)
    (width height : float) (halign valign : TextAlign) (indent lineStretch : float)
    (t : Text) :
  NewTextBox E face s width height halign valign indent lineStretch = Ok t ->
  face <> None
  /\ Text_WritingMode t = HorizontalTB /\ Text_TextOrientation t = Natural
  /\ Text_Size t = (width, height)
  /\ (exists n : nat, Text_String t = take n s)
  /\ ((height =? 0) = true -> Text_String t = s)
  /\ Forall (fun l => Forall (fun sp => Span_Face sp <> None) (line_spans l))
       (Text_lines t)
  /\ (forall x : nat, x ∈ Text_fonts t ->
        exists f : nat, face = Some f /\ x = face_Font E f).
Proof.
  unfold NewTextBox. intros H. apply rbind_Ok in H as (rt & Hrt & H).
  destruct face as [f|]; [|done]. inversion Hrt; subst; clear Hrt.
  apply rbind_Ok in H as ([t' rt'] & Ht & H). inversion H; subst; clear H.
  pose proof (ToText_text _ _ _ _ _ _ _ _ _ _ Ht) as (Hn & Hz & Hm & Ho & Hs).
  apply ToText_ok in Ht as [Hok Hf]; [|done]. simpl in *.
  split; [done|]. repeat split; try done.
  intros x Hx. destruct (Hf x Hx) as (f' & Hin & ->). exists f'. split; [|done].
  apply list_elem_of_singleton in Hin. done.
Qed.

Lemma NewTextBox_text_witness :
  exists t,
    NewTextBox sampleEnv (Some 0%nat) [97; 98; 10; 99]%Z 100 0 Left Top 0 0 = Ok t
    /\ Text_String t = [97; 98; 10; 99]%Z /\ Text_Size t = (100, 0).
Proof.
  eexists. split; [vm_compute; reflexivity|].
  pose proof (NewTextBox_text sampleEnv (Some 0%nat) [97; 98; 10; 99]%Z 100 0 Left Top
                0 0 _ ltac:(vm_compute; reflexivity)) as (_ & _ & _ & Hs & _ & Hz & _).
  split; [|exact Hs]. apply Hz. reflexivity.
Defined.

Lemma sampleEnv_levels (runes : list rune) :
  levelsOk runes (EmbeddingLevels sampleEnv runes).
Proof.
  split; simpl.
  - by rewrite length_map.
  - apply Forall_fmap. apply Forall_forall. intros r _. simpl. lia.
Qed.

Lemma NewTextLine_lines_witness :
  exists t,
    NewTextLine sampleEnv (fun _ => ScriptInvalid) (Some 0%nat)
      [97; 32; 98; 13; 10; 10; 99]%Z Right = Ok t
    /\ length (Text_lines t) = 2%nat.
Proof.
  destruct (NewTextLine_lines sampleEnv (fun _ => ScriptInvalid) 0
              [97; 32; 98; 13; 10; 10; 99]%Z Right sampleEnv_levels) as (t & Ht & _).
  exists t. split; [exact Ht|].
  vm_compute in Ht. injection Ht as <-. reflexivity.
Defined.

(** X20.  On the result of [ToText] on a rich text with a default face,
    [line.Heights] returns for every line, and [Text.Heights] returns; it
    gives (0, 0) when there are no lines. *)
Theorem ToText_Heights_total (E : Env) (width height : float)
    (halign valign : TextAlign) (indent lineStretch : float) (rt rt' : RichText)
    (t : Text) :
  defaultFace rt <> None ->
  ToText E width height halign valign indent lineStretch rt = Ok (t, rt') ->
  (forall l : line, l ∈ Text_lines t ->
     exists q : Quad, line_Heights E l (Text_WritingMode t) = Ok q)
  /\ exists r : float * float,
       Text_Heights E t = Ok r /\ (Text_lines t = [] -> r = (0, 0)).
Proof.
  intros Hd H. apply ToText_ok in H as [Hok _]; [|done]. split.
  - intros l Hl. apply line_Heights_Ok. unfold linesOk in Hok.
    rewrite Forall_forall in Hok. by apply Hok.
  - by apply Text_Heights_Ok.
Qed.

Lemma ToText_Heights_total_witness :
  exists t rt',
    ToText sampleEnv 100 0 Right Top 0 0 richAbcd = Ok (t, rt')
    /\ (forall l : line, l ∈ Text_lines t ->
          exists q : Quad, line_Heights sampleEnv l (Text_WritingMode t) = Ok q)
    /\ exists r : float * float,
         Text_Heights sampleEnv t = Ok r /\ (Text_lines t = [] -> r = (0, 0)).
Proof.
  eexists _, _. split; [vm_compute; reflexivity|].
  eapply (ToText_Heights_total sampleEnv 100 0 Right Top 0 0 richAbcd).
  - discriminate.
  - vm_compute. reflexivity.
Defined.

Lemma ToText_spans_have_faces_witness :
  exists t rt',
    ToText sampleEnv 100 0 Right Top 0 0 richAbcd = Ok (t, rt')
    /\ Forall (fun l => Forall (fun sp => Span_Face sp <> None) (line_spans l))
         (Text_lines t)
    /\ exists calls,
         WalkSpans sampleEnv (fun _ => 0%Z) (fun _ => 0%Z) t = Ok calls
         /\ map snd calls = concat (map line_spans (Text_lines t)).
Proof.
  eexists _, _. split; [vm_compute; reflexivity|].
  eapply (ToText_spans_have_faces sampleEnv (fun _ => 0%Z) (fun _ => 0%Z)
            100 0 Right Top 0 0 richAbcd).
  - discriminate.
  - vm_compute. reflexivity.
Defined.

Lemma ToText_fonts_witness :
  exists t rt',
    ToText sampleEnv 100 0 Right Top 0 0 richAbcd = Ok (t, rt')
    /\ forall x : nat, x ∈ Text_fonts t ->
         exists f : nat, Some f ∈ faces richAbcd /\ x = face_Font sampleEnv f.
Proof.
  eexists _, _. split; [vm_compute; reflexivity|].
  eapply (ToText_fonts sampleEnv 100 0 Right Top 0 0 richAbcd).
  - discriminate.
  - vm_compute. reflexivity.
Defined.

Lemma NewTextLine_alignment_witness :
  exists t,
    NewTextLine sampleEnv (fun _ => ScriptInvalid) (Some 0%nat)
      [97; 32; 98; 13; 10; 10; 99]%Z Right = Ok t
    /\ Forall (lineAligned Right) (Text_lines t).
Proof.
  apply (NewTextLine_alignment sampleEnv (fun _ => ScriptInvalid) 0
           [97; 32; 98; 13; 10; 10; 99]%Z Right).
  apply sampleEnv_levels.
Defined.

Local Open Scope Z_scope.

Lemma SetFaceSpan_bounds_witness :
  SetFaceSpan (Some 1%nat) (-1) 2
    (mkRichText [97; 98; 99; 100; 101; 102] [0] [Some 0%nat] HorizontalTB Natural
       (Some 0%nat) []) = Panic
  /\ exists rt',
      SetFaceSpan (Some 1%nat) 2 4
        (mkRichText [97; 98; 99; 100; 101; 102] [0] [Some 0%nat] HorizontalTB Natural
           (Some 0%nat) []) = Ok rt'
      /\ length (locs rt') = length (faces rt').
Proof.
  split.
  - apply (proj1 (SetFaceSpan_bounds (Some 1%nat) (-1) 2
                    (mkRichText [97; 98; 99; 100; 101; 102] [0] [Some 0%nat]
                       HorizontalTB Natural (Some 0%nat) []) eq_refl eq_refl));
      reflexivity.
  - destruct (proj2 (SetFaceSpan_bounds (Some 1%nat) 2 4
                       (mkRichText [97; 98; 99; 100; 101; 102] [0] [Some 0%nat]
                          HorizontalTB Natural (Some 0%nat) []) eq_refl eq_refl))
      as (rt' & H & Hlen & _); [vm_compute; discriminate|].
    exists rt'. by split.
Defined.

Lemma itemizeFaces_partition_witness :
  exists texts scripts fs,
    itemizeFaces sampleEnv richAbcd [97; 98; 32; 99; 10; 100; 0] [0; 0; 0; 0; 0; 0; 0]
      = Ok (texts, scripts, fs)
    /\ concat texts = stringOfRunes [97; 98; 32; 99; 10; 100; 0]
    /\ length scripts = length texts /\ length fs = length texts
    /\ Forall (fun f => f ∈ faces richAbcd) fs.
Proof.
  apply (itemizeFaces_partition sampleEnv richAbcd [97; 98; 32; 99; 10; 100; 0]
           [0; 0; 0; 0; 0; 0; 0]).
  - split; [reflexivity|]. repeat constructor; lia.
  - reflexivity.
  - reflexivity.
Defined.

Lemma shapeLoop_indices_witness :
  exists sh,
    shapeLoop sampleEnv richMixed [[97; 98]; [99; 100; 101]]
      [OtherScript 1; OtherScript 1] [Some 0%nat; Some 1%nat]
      (mkShaped 0 [] [] [] []) = Ok sh
    /\ glyphIndices sh = [0; 2] /\ clusterOffset sh = 5.
Proof.
  eexists. split; [vm_compute; reflexivity|].
  pose proof (shapeLoop_indices sampleEnv richMixed [[97; 98]; [99; 100; 101]]
                [OtherScript 1; OtherScript 1] [Some 0%nat; Some 1%nat] _
                ltac:(vm_compute; reflexivity)) as (_ & _ & _ & Hc & _).
  split; [reflexivity|exact Hc].
Defined.

Lemma ScriptItemizer_items_nonempty_witness :
  exists items,
    ScriptItemizer (LookupScript sampleEnv) [97; 32; 98] [0; 1; 0] = Ok items
    /\ items <> []
    /\ Forall (fun it => ScriptItem_Text it <> []) items
    /\ (length items <= 3)%nat.
Proof.
  apply (ScriptItemizer_items_nonempty (LookupScript sampleEnv) [97; 32; 98] [0; 1; 0]).
  - split; [reflexivity|]. repeat constructor; lia.
  - discriminate.
Defined.

Local Open Scope Z_scope.

Lemma objectGlyphs_Ok (E : Env) (rt : RichText) (script : Script)
    (clusterOffset : Z) (df : nat) (rs : list (Z * rune)) :
  defaultFace rt = Some df ->
  Forall (fun ir => 0 <= snd ir < len (objects rt)) rs ->
  exists gs,
    objectGlyphs E rt script clusterOffset rs = Ok gs
    /\ map Glyph_ID gs = map (fun ir => uint16 (snd ir)) rs
    /\ map Glyph_Cluster gs = map (fun ir => uint32 (clusterOffset + uint32 (fst ir))) rs
    /\ Forall (fun g => Glyph_Vertical g = negb (bool_decide (mode rt = HorizontalTB))
                        /\ Glyph_Script g = script) gs.
Proof.
  intros Hdf. induction 1 as [|[i r] rs Hr Hrs (gs & IH & Hid & Hcl & Hv)];
    cbn [objectGlyphs]; [by exists []|].
  unfold objectGlyph. simpl in Hr.
  destruct (idx_Ok (objects rt) r Hr) as (obj & -> & _). cbn [rbind].
  rewrite Hdf. cbn [rbind]. rewrite IH. cbn [rbind].
  eexists. split; [done|]. simpl. rewrite Hid, Hcl. repeat split; try done.
  constructor; [by split|done].
Qed.

Lemma objectGlyphs_Panic (E : Env) (rt : RichText) (script : Script)
    (clusterOffset : Z) (rs : list (Z * rune)) :
  Exists (fun ir => ~ 0 <= snd ir < len (objects rt)) rs ->
  objectGlyphs E rt script clusterOffset rs = Panic.
Proof.
  induction 1 as [[i r] rs Hr|[i r] rs Hrs IH]; cbn [objectGlyphs].
  - simpl in Hr. unfold objectGlyph.
    destruct (idx (objects rt) r) as [obj|] eqn:Ho; [|done].
    apply idx_inv in Ho as [Ho _]. done.
  - destruct (objectGlyph E rt script clusterOffset i r); [|done]. cbn [rbind].
    by rewrite IH.
Qed.

(** X24.  Shaping a run of embedded objects (the run has no face).  When
    every rune of the text is the index of an object of the table and the
    rich text has a default face, the run is given one glyph per rune, with
    no direction and no rotation; the glyph carries the rune, cut to 16 bits,
    as its ID, the byte offset of the rune in the logical text as its
    cluster, and is vertical exactly in a vertical mode.  When a rune is not
    the index of an object, shaping panics. *)
Theorem shapeRun_objects (E : Env) (rt : RichText) (text : gostring)
    (script : Script) (clusterOffset : Z) (df : nat) :
  defaultFace rt = Some df ->
  (Forall (fun r => 0 <= r < len (objects rt)) (runesOfString text) ->
   exists gs,
     shapeRun E rt text None script clusterOffset = Ok (gs, DirectionInvalid, NoRotation)
     /\ map Glyph_ID gs = map uint16 (runesOfString text)
     /\ map Glyph_Cluster gs
        = map (fun ir => uint32 (clusterOffset + uint32 (fst ir))) (rangeString text)
     /\ Forall (fun g => Glyph_Vertical g = negb (bool_decide (mode rt = HorizontalTB))
                         /\ Glyph_Script g = script) gs)
  /\ (Exists (fun r => ~ 0 <= r < len (objects rt)) (runesOfString text) ->
      shapeRun E rt text None script clusterOffset = Panic).
Proof.
  intros Hdf. unfold shapeRun, runesOfString. split.
  - intros Hall. apply Forall_fmap in Hall.
    destruct (objectGlyphs_Ok E rt script clusterOffset df (rangeString text) Hdf Hall)
      as (gs & -> & Hid & Hcl & Hv).
    cbn [rbind]. exists gs. split; [done|]. rewrite Hid, Hcl. repeat split; try done.
    by rewrite map_map.
  - intros Hex. rewrite (objectGlyphs_Panic E rt script clusterOffset (rangeString text));
      [done|].
    apply Exists_exists in Hex as (r & Hr & Hbad).
    apply list_elem_of_fmap in Hr as (ir & -> & Hir).
    apply Exists_exists. by exists ir.
Qed.

Lemma shapeRun_objects_witness :
  exists gs,
    shapeRun sampleEnv richAbcd [0] None ScriptInvalid 6
      = Ok (gs, DirectionInvalid, NoRotation)
    /\ map Glyph_ID gs = [0] /\ map Glyph_Cluster gs = [6].
Proof.
  destruct (proj1 (shapeRun_objects sampleEnv richAbcd [0] ScriptInvalid 6 0 eq_refl))
    as (gs & H & Hid & Hcl & _).
  - repeat constructor; vm_compute; congruence.
  - exists gs. repeat split; done.
Defined.

Local Open Scope float_scope.

(** ** A line that does not fit the height of the box: what [ToText] returns *)

Section AsmRun.
Variable E : Env.
Variable rt : RichText.
Variable log : gostring.
Variable fs : list FontFacePtr.
Variable gix : indexer.
Variable dirs : list Direction.
Variable rots : list Rotation.
Variable items : list Item.
Variable breaks : list Breakpoint.
Variables width height : float.
Variable halign : TextAlign.
Variable lineSpacing : float.


End AsmRun.

Section OverflowExact.
Variable E : Env.
Variable rt : RichText.
Variable log : gostring.
Variable fs : list FontFacePtr.
Variable gix : indexer.
Variable items : list Item.
Variable breaks : list Breakpoint.
Variables width height : float.
Variable halign : TextAlign.
Variable lineSpacing : float.

End OverflowExact.







